(** * crypto-sqlite-pipeline: a shallow embedding and its verified properties

    The development follows the layout of the TypeScript sources:

    - [Utils]      (src/utils.ts)       interval table, [floorToInterval], [clamp]
    - [Indicators] (src/indicators.ts)  the indicator kernels
    - [Binance]    (src/binance.ts)     token bucket, scheduler, back-off, retry loop
    - [Db]         (src/db.ts)          schema, upserts, [tx]
    - [Pipeline]   (src/pipeline.ts, src/index.ts)  bootstrap and update
    - [Verify]     (src/verify.ts)      gap detection; [VerifyReport]: spans and durations
    - [Repair]     (src/repair.ts)      gap and null-span repair

    followed by the definitions that word the specification, the concrete
    worlds of the examples, and then the properties.

    Numbers.  A TypeScript [number] is an IEEE-754 double.  Epoch
    milliseconds, interval lengths, ids and counters are integers far below
    2^53, where double arithmetic is exact: they are modelled in [Z].  Market
    data (prices, volumes, indicator values) are modelled by Rocq's primitive
    binary64 [float], so the kernels are evaluated in the arithmetic of the
    source.  The quantities of the rate limiter (token counts, back-off
    waits) are modelled in exact rationals [Q]: the statements about them
    are statements of real arithmetic, idealising the rounding of doubles.

    Effects.  A function that may throw returns a [Result]; a function that
    writes takes and returns the store, or the connection to it; a [while]
    loop takes a number of turns [fuel] and returns [None] when it is still
    running after that many; the exchange and the clock are an abstract
    world [Env] that is passed along.  Log lines and the duration of sleeps
    are not part of the model.

    The store.  What the sources rely on in SQLite is modelled with the
    tables: insert-or-update on a primary or unique key, [NOT NULL] and,
    with [foreign_keys = ON], [FOREIGN KEY] constraints, [AUTOINCREMENT]
    ids, NaN bound as NULL, and transactions that commit or roll back as a
    whole. *)

From Stdlib Require Import ZArith QArith Qminmax Qpower Lqa Uint63 Floats Sorted Lia.
From stdpp Require Import base option list sorting gmap strings.

Local Open Scope Z_scope.

(** ** Exceptions and results *)

(** The exceptions the sources raise, by origin. *)
Inductive Exn : Type :=
| E_rate_limited (status : Z)
    (* binance.ts: [new Error("418")], [new Error("429")] *)
| E_http (status : Z) (body : string)
    (* binance.ts: [new Error(`HTTP ${resp.status}: ${body}`)] *)
| E_fetch (reason : string)
    (* [fetch] rejected: network failure, or the abort at [timeoutMs] *)
| E_decode (reason : string)
    (* [resp.json()] or the tuple decoding failed *)
| E_sqlite (reason : string)
    (* a statement refused by the store: constraint, transaction state *)
| E_error (reason : string).
    (* any other [new Error(...)] of the sources *)

Inductive Result (A : Type) : Type :=
| Ok (a : A)
| Err (e : Exn).
Arguments Ok {A} a.
Arguments Err {A} e.

Definition is_ok {A} (r : Result A) : bool :=
  match r with Ok _ => true | Err _ => false end.

(** A thrown exception skips the rest of the computation. *)
#[global] Instance Result_bind : MBind Result :=
  fun A B f r => match r with Ok a => f a | Err e => Err e end.

(** ** src/utils.ts *)
Module Utils.

Definition INTERVAL_MS (code : string) : option Z :=
  if String.eqb code "1m" then Some 60000
  else if String.eqb code "3m" then Some 180000
  else if String.eqb code "5m" then Some 300000
  else if String.eqb code "15m" then Some 900000
  else if String.eqb code "30m" then Some 1800000
  else if String.eqb code "1h" then Some 3600000
  else if String.eqb code "2h" then Some 7200000
  else if String.eqb code "4h" then Some 14400000
  else if String.eqb code "6h" then Some 21600000
  else if String.eqb code "8h" then Some 28800000
  else if String.eqb code "12h" then Some 43200000
  else if String.eqb code "1d" then Some 86400000
  else if String.eqb code "3d" then Some 259200000
  else if String.eqb code "1w" then Some 604800000
  else None.

(** [Math.floor(ms / intervalMs) * intervalMs]; [Z.div] rounds down. *)
Definition floorToInterval (ms intervalMs : Z) : Result Z :=
  if intervalMs <=? 0 then Err (E_error "intervalMs must be positive")
  else Ok (ms / intervalMs * intervalMs).

Definition Qltb (a b : Q) : bool := negb (Qle_bool b a).

Definition clamp (n min max : Q) : Q :=
  if Qltb n min then min
  else if Qltb max n then max
  else n.

End Utils.

(** ** src/indicators.ts *)
Module Indicators.

Local Open Scope float_scope.

Record OHLCV : Type := mkOHLCV {
  time : Z;
  open : float;
  high : float;
  low : float;
  close : float;
  volume : float
}.

(** *** JavaScript numbers and arrays *)

(** An integer as a double (exact below 2^53). *)
Definition Z2F (z : Z) : float :=
  if (z <? 0)%Z then - PrimFloat.of_uint63 (Uint63.of_Z (- z))
  else PrimFloat.of_uint63 (Uint63.of_Z z).

Definition isNaN (x : float) : bool := negb (x =? x).

(** [Math.max] of two numbers: NaN if either is, and [+0] above [-0]
    (for two zeros the sum has the sign [Math.max] gives). *)
Definition max2 (a b : float) : float :=
  if isNaN a then a
  else if isNaN b then b
  else if a <? b then b
  else if b <? a then a
  else if a =? 0 then a + b
  else a.

Definition max3 (a b c : float) : float := max2 (max2 a b) c.

(** [xs[i]] read as a number: [undefined] (out of range) is NaN in
    arithmetic. *)
Definition get (xs : list float) (i : nat) : float := nth i xs nan.

(** [out[i] as number] for an array of [number | null]: in arithmetic
    [null] is 0 and [undefined] is NaN. *)
Definition asNumber (v : option (option float)) : float :=
  match v with
  | Some (Some x) => x
  | Some None => 0
  | None => nan
  end.

(** [out[i - 1] as number]; [out[-1]] is [undefined]. *)
Definition get_prev (out : list (option float)) (i : nat) : float :=
  match i with
  | O => nan
  | S j => asNumber (out !! j)
  end.

(** [new Array(n).fill(null)] *)
Definition nulls (n : nat) : list (option float) := replicate n None.

(** [new Array(n).fill(0)] *)
Definition zeros (n : nat) : list float := replicate n 0.

(** *** ema *)

Fixpoint ema_loop (values : list float) (period : Z) (k : float)
    (fuel i : nat) (sum : float) (out : list (option float))
    : list (option float) :=
  match fuel with
  | O => out
  | S fuel' =>
      let v := get values i in
      if (Z.of_nat i <? period)%Z then
        let sum := sum + v in
        let out :=
          if (Z.of_nat i =? period - 1)%Z
          then <[i := Some (sum / Z2F period)]> out else out in
        ema_loop values period k fuel' (S i) sum out
      else
        let prev := get_prev out i in
        let next := v * k + prev * (1 - k) in
        ema_loop values period k fuel' (S i) sum (<[i := Some next]> out)
  end.

Definition ema (values : list float) (period : Z) (alphaOverride : option float)
    : Result (list (option float)) :=
  if (period <=? 0)%Z then Err (E_error "period must be > 0")
  else
    let k := match alphaOverride with
             | Some a => a
             | None => 2 / (Z2F period + 1)
             end in
    Ok (ema_loop values period k (length values) 0 0 (nulls (length values))).

(** *** sma *)

Fixpoint sma_loop (values : list float) (period : Z) (fuel i : nat)
    (sum : float) (out : list (option float)) : list (option float) :=
  match fuel with
  | O => out
  | S fuel' =>
      let sum := sum + get values i in
      let sum :=
        if (Z.of_nat i >=? period)%Z
        then sum - get values (Z.to_nat (Z.of_nat i - period)) else sum in
      let out :=
        if (Z.of_nat i >=? period - 1)%Z
        then <[i := Some (sum / Z2F period)]> out else out in
      sma_loop values period fuel' (S i) sum out
  end.

Definition sma (values : list float) (period : Z) : list (option float) :=
  sma_loop values period (length values) 0 0 (nulls (length values)).

(** *** stddev *)

(** [for (j = ...; j <= i; j++) { d = values[j] - m; s += d * d }] *)
Fixpoint sum_sq (values : list float) (m : float) (fuel j : nat) (s : float)
    : float :=
  match fuel with
  | O => s
  | S fuel' =>
      let d := get values j - m in
      sum_sq values m fuel' (S j) (s + d * d)
  end.

Fixpoint stddev_loop (values : list float) (period : Z)
    (ma : list (option float)) (fuel i : nat) (out : list (option float))
    : list (option float) :=
  match fuel with
  | O => out
  | S fuel' =>
      match ma !! i with
      | Some None => stddev_loop values period ma fuel' (S i) out
      | m =>
          let s := sum_sq values (asNumber m) (Z.to_nat period)
                     (Z.to_nat (Z.of_nat i - period + 1)) 0 in
          stddev_loop values period ma fuel' (S i)
            (<[i := Some (sqrt (s / Z2F period))]> out)
      end
  end.

(** Called with [period = 20] only; the loop starts at [i = period - 1]. *)
Definition stddev (values : list float) (period : Z) (ma : list (option float))
    : list (option float) :=
  let start := Z.to_nat (period - 1) in
  stddev_loop values period ma (length values - start) start
    (nulls (length values)).

(** *** rsiWilder *)

Definition gain_of (change : float) : float :=
  if 0 <? change then change else 0.

Definition loss_of (change : float) : float :=
  if change <? 0 then - change else 0.

(** [100 - (100 / (1 + rs))] with [rs = avgLoss === 0 ? Infinity : avgGain / avgLoss] *)
Definition rsi_value (avgGain avgLoss : float) : float :=
  let rs := if avgLoss =? 0 then infinity else avgGain / avgLoss in
  100 - 100 / (1 + rs).

(** The inner loop [for (k = i + 1; k < close.length; k++)]. *)
Fixpoint rsi_smooth (close : list float) (period : Z) (fuel k : nat)
    (avgGain avgLoss : float) (out : list (option float))
    : list (option float) :=
  match fuel with
  | O => out
  | S fuel' =>
      let ch := get close k - get close (k - 1) in
      let g := gain_of ch in
      let l := loss_of ch in
      let avgGain := (avgGain * Z2F (period - 1) + g) / Z2F period in
      let avgLoss := (avgLoss * Z2F (period - 1) + l) / Z2F period in
      rsi_smooth close period fuel' (S k) avgGain avgLoss
        (<[k := Some (rsi_value avgGain avgLoss)]> out)
  end.

(** The outer loop [for (i = 0; i < close.length; i++)]. *)
Fixpoint rsi_loop (close : list float) (period : Z) (fuel i : nat)
    (prevClose : option float) (gainSum lossSum : float)
    (out : list (option float)) : list (option float) :=
  match fuel with
  | O => out
  | S fuel' =>
      let c := get close i in
      match prevClose with
      | None => rsi_loop close period fuel' (S i) (Some c) gainSum lossSum out
      | Some prev =>
          let change := c - prev in
          let gain := gain_of change in
          let loss := loss_of change in
          if (Z.of_nat i <=? period)%Z then
            let gainSum := gainSum + gain in
            let lossSum := lossSum + loss in
            if (Z.of_nat i =? period)%Z then
              let avgGain := gainSum / Z2F period in
              let avgLoss := lossSum / Z2F period in
              let out := <[i := Some (rsi_value avgGain avgLoss)]> out in
              rsi_smooth close period (length close - S i) (S i)
                avgGain avgLoss out
            else
              rsi_loop close period fuel' (S i) (Some c) gainSum lossSum out
          else
            rsi_loop close period fuel' (S i) (Some c) gainSum lossSum out
      end
  end.

Definition rsiWilder (close : list float) (period : Z) : list (option float) :=
  rsi_loop close period (length close) 0 None 0 0 (nulls (length close)).

(** *** atrWilder *)

(** [Math.max(high[i] - low[i], |high[i] - close[i-1]|, |low[i] - close[i-1]|)] *)
Definition true_range (high low close : list float) (i : nat) : float :=
  let m1 := get high i - get low i in
  let m2 := abs (get high i - get close (i - 1)) in
  let m3 := abs (get low i - get close (i - 1)) in
  max3 m1 m2 m3.

Fixpoint atr_tr (high low close : list float) (fuel i : nat) (tr : list float)
    : list float :=
  match fuel with
  | O => tr
  | S fuel' =>
      let v := if (i =? 0)%nat then get high i - get low i
               else true_range high low close i in
      atr_tr high low close fuel' (S i) (<[i := v]> tr)
  end.

Fixpoint atr_loop (tr : list float) (period : Z) (fuel i : nat) (sum : float)
    (out : list (option float)) : list (option float) :=
  match fuel with
  | O => out
  | S fuel' =>
      if (Z.of_nat i <? period)%Z then
        let sum := sum + get tr i in
        let out :=
          if (Z.of_nat i =? period - 1)%Z
          then <[i := Some (sum / Z2F period)]> out else out in
        atr_loop tr period fuel' (S i) sum out
      else
        let prev := get_prev out i in
        atr_loop tr period fuel' (S i) sum
          (<[i := Some ((prev * Z2F (period - 1) + get tr i) / Z2F period)]> out)
  end.

Definition atrWilder (high low close : list float) (period : Z)
    : list (option float) :=
  let n := length close in
  let tr := atr_tr high low close n 0 (zeros n) in
  atr_loop tr period (length tr) 0 0 (nulls n).

(** *** adxWilder *)

(** The arrays [tr], [plusDM], [minusDM]. *)
Record Moves : Type := mkMoves {
  mv_tr : list float;
  mv_plusDM : list float;
  mv_minusDM : list float
}.

(** The loop [for (i = 1; i < len; i++)] filling the three arrays. *)
Fixpoint adx_moves (high low close : list float) (fuel i : nat) (m : Moves)
    : Moves :=
  match fuel with
  | O => m
  | S fuel' =>
      let upMove := get high i - get high (i - 1) in
      let downMove := get low (i - 1) - get low i in
      let plus := if (downMove <? upMove) && (0 <? upMove) then upMove else 0 in
      let minus := if (upMove <? downMove) && (0 <? downMove) then downMove else 0 in
      adx_moves high low close fuel' (S i)
        (mkMoves (<[i := true_range high low close i]> (mv_tr m))
                 (<[i := plus]> (mv_plusDM m))
                 (<[i := minus]> (mv_minusDM m)))
  end.

(** The running Wilder sums [tr14], [plusDM14], [minusDM14]. *)
Record Sums : Type := mkSums {
  tr14 : float;
  plusDM14 : float;
  minusDM14 : float
}.

(** [for (i = 1; i <= period; i++) { tr14 += tr[i]; ... }] *)
Fixpoint adx_seed_sums (m : Moves) (fuel i : nat) (s : Sums) : Sums :=
  match fuel with
  | O => s
  | S fuel' =>
      adx_seed_sums m fuel' (S i)
        (mkSums (tr14 s + get (mv_tr m) i)
                (plusDM14 s + get (mv_plusDM m) i)
                (minusDM14 s + get (mv_minusDM m) i))
  end.

Definition dx_of (s : Sums) : float :=
  let plusDI := plusDM14 s / tr14 s * 100 in
  let minusDI := minusDM14 s / tr14 s * 100 in
  abs (plusDI - minusDI) / (plusDI + minusDI) * 100.

(** [for (i = period + 1; i < len; i++)]: advance the sums, store [dx]. *)
Fixpoint adx_dx_loop (m : Moves) (period : Z) (fuel i : nat) (s : Sums)
    (dxArr : list (option float)) : list (option float) :=
  match fuel with
  | O => dxArr
  | S fuel' =>
      let s := mkSums
        (tr14 s - tr14 s / Z2F period + get (mv_tr m) i)
        (plusDM14 s - plusDM14 s / Z2F period + get (mv_plusDM m) i)
        (minusDM14 s - minusDM14 s / Z2F period + get (mv_minusDM m) i) in
      adx_dx_loop m period fuel' (S i) s (<[i := Some (dx_of s)]> dxArr)
  end.

(** The first ADX: the mean of the first [period] non-null [dx]; the loop
    stops ([break]) once it is stored. *)
Fixpoint adx_first (dxArr : list (option float)) (period : Z) (fuel i : nat)
    (sum : float) (count : Z) (adx : list (option float))
    : list (option float) :=
  match fuel with
  | O => adx
  | S fuel' =>
      match dxArr !! i with
      | Some None => adx_first dxArr period fuel' (S i) sum count adx
      | v =>
          let sum := sum + asNumber v in
          let count := (count + 1)%Z in
          if (count =? period)%Z then <[i := Some (sum / Z2F period)]> adx
          else adx_first dxArr period fuel' (S i) sum count adx
      end
  end.

(** [adx.findIndex(v => v !== null)] *)
Fixpoint findIndex_nonnull (xs : list (option float)) (i : nat) : Z :=
  match xs with
  | [] => -1
  | Some _ :: _ => Z.of_nat i
  | None :: xs' => findIndex_nonnull xs' (S i)
  end.

(** [for (i = findIndex + 1; i < len; i++)]: Wilder smoothing of [dx]. *)
Fixpoint adx_smooth (dxArr : list (option float)) (period : Z) (fuel i : nat)
    (adx : list (option float)) : list (option float) :=
  match fuel with
  | O => adx
  | S fuel' =>
      let prev := get_prev adx i in
      match dxArr !! i with
      | Some None => adx_smooth dxArr period fuel' (S i) adx
      | dxv =>
          adx_smooth dxArr period fuel' (S i)
            (<[i := Some ((prev * Z2F (period - 1) + asNumber dxv) / Z2F period)]> adx)
      end
  end.

(** [dxArr[period] = dx] writes past the end when [period >= len]; the
    array is then read below [len] only, where the write does not show, as
    with the list update used here. *)
Definition adxWilder (high low close : list float) (period : Z)
    : list (option float) :=
  let len := length close in
  let m := adx_moves high low close (len - 1) 1
             (mkMoves (zeros len) (zeros len) (zeros len)) in
  let s := adx_seed_sums m (Z.to_nat period) 1 (mkSums 0 0 0) in
  let dxArr := <[Z.to_nat period := Some (dx_of s)]> (nulls len) in
  let dxArr := adx_dx_loop m period (len - Z.to_nat (period + 1))
                 (Z.to_nat (period + 1)) s dxArr in
  let adx := adx_first dxArr period len 0 0 0 (nulls len) in
  let start := Z.to_nat (findIndex_nonnull adx 0 + 1) in
  adx_smooth dxArr period (len - start) start adx.

(** *** macd *)

(** [c[i] = a[i] op b[i]] wherever both are non-null, null elsewhere (the
    loops with [if (a === null || b === null) { continue; }]); the vectors
    have the same length. *)
Definition both (op : float -> float -> float) (a b : list (option float))
    : list (option float) :=
  zip_with (fun x y =>
    match x, y with
    | Some x, Some y => Some (op x y)
    | _, _ => None
    end) a b.

Record Macd : Type := mkMacd {
  macd_line : list (option float);
  macd_signal_line : list (option float);
  macd_hist_line : list (option float)
}.

Definition macd (close : list float) (fast slow signal : Z) : Result Macd :=
  emaFast ← ema close fast None;
  emaSlow ← ema close slow None;
  let macdLine := both PrimFloat.sub emaFast emaSlow in
  signalLine ← ema (map (fun v => match v with None => 0 | Some v => v end) macdLine)
                   signal None;
  let hist := both PrimFloat.sub macdLine signalLine in
  Ok (mkMacd macdLine signalLine hist).

(** *** computeIndicators *)

Record IndicatorsOut : Type := mkIndicatorsOut {
  ema50 : list (option float);
  ema200 : list (option float);
  rsi14 : list (option float);
  atr14 : list (option float);
  adx14 : list (option float);
  vol_ma20 : list (option float);
  macd_ : list (option float);
  macd_signal : list (option float);
  macd_hist : list (option float);
  bb_sma20 : list (option float);
  bb_upper : list (option float);
  bb_lower : list (option float);
  pct_return_1 : list (option float);
  log_return_1 : list (option float)
}.

Section WithPlatform.

(** [Math.log], which the kernel's primitive floats do not provide. *)
Variable Math_log : float -> float.

(** [for (i = 1; i < close.length; i++)]: the two return vectors. *)
Fixpoint returns_loop (close : list float) (fuel i : nat)
    (pct logr : list (option float))
    : list (option float) * list (option float) :=
  match fuel with
  | O => (pct, logr)
  | S fuel' =>
      let prev := get close (i - 1) in
      let r := if prev =? 0 then None else Some (get close i / prev - 1) in
      let l := if prev =? 0 then None else Some (Math_log (get close i / prev)) in
      returns_loop close fuel' (S i) (<[i := r]> pct) (<[i := l]> logr)
  end.

Definition computeIndicators (series : list OHLCV) : Result IndicatorsOut :=
  let close := map close series in
  let high := map high series in
  let low := map low series in
  let volume := map volume series in
  ema50 ← ema close 50 None;
  ema200 ← ema close 200 None;
  let rsi14 := rsiWilder close 14 in
  let atr14 := atrWilder high low close 14 in
  let adx14 := adxWilder high low close 14 in
  let vol_ma20 := sma volume 20 in
  macdAll ← macd close 12 26 9;
  let bb_mid := sma close 20 in
  let bb_std := stddev close 20 bb_mid in
  let bb_upper := both (fun m s => m + 2 * s) bb_mid bb_std in
  let bb_lower := both (fun m s => m - 2 * s) bb_mid bb_std in
  let n := length close in
  let '(pct_return_1, log_return_1) :=
    returns_loop close (n - 1) 1 (nulls n) (nulls n) in
  Ok (mkIndicatorsOut ema50 ema200 rsi14 atr14 adx14 vol_ma20
        (macd_line macdAll) (macd_signal_line macdAll) (macd_hist_line macdAll)
        bb_mid bb_upper bb_lower pct_return_1 log_return_1).

End WithPlatform.

(** [xs[i]] of an indicator vector, for an index inside it. *)
Definition at_index (xs : list (option float)) (i : nat) : option float :=
  default None (xs !! i).

End Indicators.

(** ** src/binance.ts *)
Module Binance.

Local Open Scope Q_scope.

Record Kline : Type := mkKline {
  openTime : Z;
  open : float;
  high : float;
  low : float;
  close : float;
  volume : float;
  closeTime : Z;
  quoteAssetVolume : float;
  numberOfTrades : Z;
  takerBuyBaseVolume : float;
  takerBuyQuoteVolume : float
}.

Record RetryConfig : Type := mkRetry {
  baseMs : Q;
  maxMs : Q;
  maxRetries : Z
}.

Record RateLimitConfig : Type := mkRateLimit {
  requestsPerMinute : Q;
  maxConcurrent : Z;
  retry : RetryConfig
}.

(** *** class TokenBucket *)

Record TokenBucket : Type := mkBucket {
  capacity : Q;
  tokens : Q;
  refillPerMs : Q;
  lastRefill : Z
}.

(** [constructor(tokensPerMinute)], with [now] the value of [Date.now()]. *)
Definition newTokenBucket (tokensPerMinute : Q) (now : Z) : TokenBucket :=
  {| capacity := tokensPerMinute;
     tokens := tokensPerMinute;
     refillPerMs := tokensPerMinute / 60000;
     lastRefill := now |}.

(** [refill()], with [now] the value of [Date.now()]. *)
Definition refill (now : Z) (b : TokenBucket) : TokenBucket :=
  let delta := (now - lastRefill b)%Z in
  if (delta <=? 0)%Z then b
  else {| capacity := capacity b;
          tokens := Qmin (capacity b) (tokens b + inject_Z delta * refillPerMs b);
          refillPerMs := refillPerMs b;
          lastRefill := now |}.

(** One turn of the loop of [take()]: refill, then either take a token and
    return ([true]) or go to sleep for 100 ms ([false]). *)
Definition takeIter (now : Z) (b : TokenBucket) : TokenBucket * bool :=
  let b1 := refill now b in
  if Qle_bool 1 (tokens b1) then
    ({| capacity := capacity b1;
        tokens := tokens b1 - 1;
        refillPerMs := refillPerMs b1;
        lastRefill := lastRefill b1 |}, true)
  else (b1, false).

(** [take()]: [clock] lists the successive values of [Date.now()], one per
    turn of [while (true)]; [None] while the caller is still suspended when
    the readings end. *)
Fixpoint take (clock : list Z) (b : TokenBucket) : option (TokenBucket * list Z) :=
  match clock with
  | [] => None
  | now :: clock' =>
      let (b', admitted) := takeIter now b in
      if admitted then Some (b', clock') else take clock' b'
  end.

(** The states a bucket built for [tokensPerMinute] can be in. *)
Inductive reachable (tokensPerMinute : Q) : TokenBucket -> Prop :=
| reach_new now :
    reachable tokensPerMinute (newTokenBucket tokensPerMinute now)
| reach_refill b now :
    reachable tokensPerMinute b ->
    reachable tokensPerMinute (refill now b)
| reach_takeIter b now :
    reachable tokensPerMinute b ->
    reachable tokensPerMinute (takeIter now b).1
| reach_take b clock b' clock' :
    reachable tokensPerMinute b ->
    take clock b = Some (b', clock') ->
    reachable tokensPerMinute b'.

(** The number of calls admitted among [n] turns of [take()] taken while
    the clock stands at [now]. *)
Fixpoint burst (now : Z) (n : nat) (b : TokenBucket) : Z :=
  match n with
  | O => 0
  | S n' =>
      let (b', admitted) := takeIter now b in
      ((if admitted then 1 else 0) + burst now n' b')%Z
  end.

(** *** Back-off *)

(** The [Retry-After] header as [backoffWaitMs] reads it: through the
    truthiness test [if (retryAfterHeader)] and [Number(retryAfterHeader)]. *)
Inductive RetryAfter : Type :=
| RA_absent                 (* [null], or the empty string *)
| RA_nan                    (* [Number(h)] is [NaN] *)
| RA_seconds (ra : Q).      (* [Number(h)] *)

(** [backoffWaitMs(attempt, retryAfterHeader)]; [rnd] is the value that
    [Math.random()] returns, in [0, 1). *)
Definition backoffWaitMs (r : RetryConfig) (attempt : Z) (hdr : RetryAfter)
    (rnd : Q) : Q :=
  match hdr with
  | RA_seconds ra => Utils.clamp (ra * 1000) (baseMs r) (maxMs r)
  | _ =>
      let exp := Qmin (maxMs r) (baseMs r * 2 ^ attempt) in
      let jitter := rnd * exp * (1 # 2) in
      Utils.clamp (exp * (3 # 4) + jitter) (baseMs r) (maxMs r)
  end.

(** *** getKlines *)

Record Request : Type := mkRequest {
  req_symbol : string;
  req_interval : string;
  req_startTime : option Z;
  req_endTime : option Z;
  req_limit : Z
}.

(** What [doReq] reads off a response: the status, the [Retry-After]
    header, [resp.text()], and [resp.json()] decoded into klines (the
    decoding of the JSON tuples is not modelled further). *)
Record Response : Type := mkResponse {
  status : Z;
  retryAfter : RetryAfter;
  body : string;
  payload : Result (list Kline)
}.

Definition ok (resp : Response) : bool :=
  (200 <=? status resp)%Z && (status resp <=? 299)%Z.

Inductive FetchOutcome : Type :=
| Rejected (reason : string)      (* [fetch] threw: network, abort *)
| Responded (resp : Response).

(** What the outside world does during one attempt: the outcome of [fetch],
    and the values [Math.random()] returns if [doReq], respectively the
    retry handler, draws one. *)
Record Attempt : Type := mkAttempt {
  reply : FetchOutcome;
  rnd_doReq : Q;
  rnd_retry : Q
}.

(** [doReq()]: its result and the sleeps it performs. *)
Definition doReq (r : RetryConfig) (a : Attempt) : Result (list Kline) * list Q :=
  match reply a with
  | Rejected reason => (Err (E_fetch reason), [])
  | Responded resp =>
      if (status resp =? 418)%Z then
        (Err (E_rate_limited 418), [backoffWaitMs r 0 (retryAfter resp) (rnd_doReq a)])
      else if (status resp =? 429)%Z then
        (Err (E_rate_limited 429), [backoffWaitMs r 0 (retryAfter resp) (rnd_doReq a)])
      else if negb (ok resp) then
        (Err (E_http (status resp) (body resp)), [])
      else (payload resp, [])
  end.

(** The observable run of one [getKlines] call. *)
Record Run : Type := mkRun {
  outcome : Result (list Kline);
  requests : nat;
  sleeps : list Q
}.

(** The loop [while (true) { try { return await doReq() } catch ... }] from
    the given value of [attempt].  The world answers each request in turn
    ([env], a function of the request per attempt); [None] when the call is
    still in flight after the last answer listed. *)
Fixpoint retryLoop (r : RetryConfig) (req : Request) (attempt : Z)
    (env : list (Request -> Attempt)) : option Run :=
  match env with
  | [] => None
  | w :: env' =>
      let a := w req in
      let (res, slept) := doReq r a in
      match res with
      | Ok klines => Some (mkRun (Ok klines) 1 slept)
      | Err err =>
          let attempt' := (attempt + 1)%Z in
          if (attempt' >? maxRetries r)%Z then Some (mkRun (Err err) 1 slept)
          else
            let wait := backoffWaitMs r attempt' RA_absent (rnd_retry a) in
            match retryLoop r req attempt' env' with
            | Some run =>
                Some (mkRun (outcome run) (S (requests run))
                            (slept ++ wait :: sleeps run))
            | None => None
            end
      end
  end.

(** *** class RequestScheduler *)

Record RequestScheduler : Type := mkScheduler {
  bucket : TokenBucket;
  sched_maxConcurrent : Z;
  active : Z
}.

Definition newRequestScheduler (cfg : RateLimitConfig) (now : Z) : RequestScheduler :=
  mkScheduler (newTokenBucket (requestsPerMinute cfg) now) (maxConcurrent cfg) 0.

(** [schedule(fn)] in a process that awaits each call before it makes the
    next: the gate [while (active >= maxConcurrent) sleep(10)] is passed at
    once or never, there being no other call in flight to free a slot; then
    a token is taken ([clock] lists the readings of [Date.now()] in
    [take()]), [fn] runs between [active += 1] and [active -= 1], and its
    result or exception is passed through.  [ran] is what [fn] does once
    started; [None] when the call does not return. *)
Definition schedule {T} (ran : option T) (clock : list Z) (s : RequestScheduler)
    : option (RequestScheduler * list Z * T) :=
  if (active s >=? sched_maxConcurrent s)%Z then None
  else
    match take clock (bucket s) with
    | None => None
    | Some (b, clock') =>
        match ran with
        | None => None
        | Some res =>
            Some (mkScheduler b (sched_maxConcurrent s) (active s + 1 - 1)%Z,
                  clock', res)
        end
    end.

(** *** class BinanceClient *)

Record BinanceClient : Type := mkClient {
  scheduler : RequestScheduler;
  client_retry : RetryConfig;
  timeoutMs : Z
}.

Definition newBinanceClient (rateLimit : RateLimitConfig) (timeoutMs now : Z)
    : BinanceClient :=
  mkClient (newRequestScheduler rateLimit now) (retry rateLimit) timeoutMs.

(** [getKlines(symbol, interval, startTime, endTime, limit)]: the retry loop
    run under the scheduler. *)
Definition getKlines (client : BinanceClient) (req : Request) (clock : list Z)
    (env : list (Request -> Attempt)) : option (BinanceClient * list Z * Run) :=
  match schedule (retryLoop (client_retry client) req 0 env) clock
          (scheduler client) with
  | Some (s, clock', run) =>
      Some (mkClient s (client_retry client) (timeoutMs client), clock', run)
  | None => None
  end.

End Binance.

(** ** src/db.ts *)
Module Db.

(** *** Rows *)

Record SymbolRow : Type := mkSymbolRow {
  sym_id : Z;
  sym_symbol : string;
  base_asset : string;
  quote_asset : string
}.

Record IntervalRow : Type := mkIntervalRow {
  int_id : Z;
  int_code : string;
  int_ms : Z
}.

Record SeriesRow : Type := mkSeriesRow {
  ser_id : Z;
  symbol_id : Z;
  interval_id : Z
}.

Record CandleRow : Type := mkCandleRow {
  series_id : Z;
  open_time : Z;
  open : float;
  high : float;
  low : float;
  close : float;
  volume : float;
  quote_asset_volume : float;
  trades : Z;
  taker_buy_base_volume : float;
  taker_buy_quote_volume : float
}.

Record IndicatorRow : Type := mkIndicatorRow {
  ind_series_id : Z;
  ind_open_time : Z;
  ema50 : option float;
  ema200 : option float;
  rsi14 : option float;
  atr14 : option float;
  adx14 : option float;
  vol_ma20 : option float;
  macd : option float;
  macd_signal : option float;
  macd_hist : option float;
  bb_sma20 : option float;
  bb_upper : option float;
  bb_lower : option float;
  pct_return_1 : option float;
  log_return_1 : option float
}.

Record SeriesStateRow : Type := mkSeriesStateRow {
  last_open_time : option Z;
  last_updated_at : Z
}.

(** The table [sqlite_sequence] that SQLite keeps for the three tables
    with an [INTEGER PRIMARY KEY AUTOINCREMENT]: the largest id each of them
    has handed out so far. *)
Record Sequence : Type := mkSequence {
  seq_symbols : Z;
  seq_intervals : Z;
  seq_series : Z
}.

(** *** The store: one component per table of the schema

    [symbols], [intervals] and [series] are kept in rowid order; [candles]
    and [indicators] are keyed by their primary key
    [(series_id, open_time)], [series_state] by [series_id]; [known_gaps] is
    the set of its primary keys [(series_id, start_open_time,
    end_open_time)]; [sqlite_sequence] is the table of that name. *)
Record Store : Type := mkStore {
  symbols : list SymbolRow;
  intervals : list IntervalRow;
  series : list SeriesRow;
  candles : gmap (Z * Z) CandleRow;
  indicators : gmap (Z * Z) IndicatorRow;
  series_state : gmap Z SeriesStateRow;
  known_gaps : gset (Z * Z * Z);
  sqlite_sequence : Sequence
}.

Definition empty_store : Store := mkStore [] [] [] ∅ ∅ ∅ ∅ (mkSequence 0 0 0).

Definition with_symbols (v : list SymbolRow) (s : Store) : Store :=
  mkStore v (intervals s) (series s) (candles s) (indicators s)
          (series_state s) (known_gaps s) (sqlite_sequence s).
Definition with_intervals (v : list IntervalRow) (s : Store) : Store :=
  mkStore (symbols s) v (series s) (candles s) (indicators s)
          (series_state s) (known_gaps s) (sqlite_sequence s).
Definition with_series (v : list SeriesRow) (s : Store) : Store :=
  mkStore (symbols s) (intervals s) v (candles s) (indicators s)
          (series_state s) (known_gaps s) (sqlite_sequence s).
Definition with_candles (v : gmap (Z * Z) CandleRow) (s : Store) : Store :=
  mkStore (symbols s) (intervals s) (series s) v (indicators s)
          (series_state s) (known_gaps s) (sqlite_sequence s).
Definition with_indicators (v : gmap (Z * Z) IndicatorRow) (s : Store) : Store :=
  mkStore (symbols s) (intervals s) (series s) (candles s) v
          (series_state s) (known_gaps s) (sqlite_sequence s).
Definition with_known_gaps (v : gset (Z * Z * Z)) (s : Store) : Store :=
  mkStore (symbols s) (intervals s) (series s) (candles s) (indicators s)
          (series_state s) v (sqlite_sequence s).
Definition with_sequence (v : Sequence) (s : Store) : Store :=
  mkStore (symbols s) (intervals s) (series s) (candles s) (indicators s)
          (series_state s) (known_gaps s) v.

(** *** The connection and its transaction

    [db] is what statements read and write; [snapshot] holds the contents
    at [BEGIN] while a transaction is open. *)
Record Conn : Type := mkConn {
  db : Store;
  snapshot : option Store
}.

(** [openDatabase(dbPath)] on an existing store (the schema statements are
    [IF NOT EXISTS] and add no row). *)
Definition openDatabase (s : Store) : Conn := mkConn s None.

(** [close()] of the connection ([close] names a candle column here): an
    open transaction is rolled back. *)
Definition close_conn (c : Conn) : Store :=
  match snapshot c with
  | Some s => s
  | None => db c
  end.

Definition exec_begin (c : Conn) : Result Conn :=
  match snapshot c with
  | None => Ok (mkConn (db c) (Some (db c)))
  | Some _ => Err (E_sqlite "cannot start a transaction within a transaction")
  end.

Definition exec_commit (c : Conn) : Result Conn :=
  match snapshot c with
  | Some _ => Ok (mkConn (db c) None)
  | None => Err (E_sqlite "cannot commit - no transaction is active")
  end.

Definition exec_rollback (c : Conn) : Result Conn :=
  match snapshot c with
  | Some s => Ok (mkConn s None)
  | None => Err (E_sqlite "cannot rollback - no transaction is active")
  end.

(** [tx(fn, dryRun)].  [fn] runs on the connection and may throw; the
    [try] block ends in [ROLLBACK] or [COMMIT], the [catch] block rolls
    back and throws again. *)
Definition tx {T} (fn : Conn -> Conn * Result T) (dryRun : option bool)
    (c : Conn) : Conn * Result T :=
  match exec_begin c with
  | Err e => (c, Err e)
  | Ok c1 =>
      let (c2, r) := fn c1 in
      let tried : Conn * Result T :=
        match r with
        | Err err => (c2, Err err)
        | Ok result =>
            let ended := match dryRun with
                         | Some true => exec_rollback c2
                         | _ => exec_commit c2
                         end in
            match ended with
            | Ok c3 => (c3, Ok result)
            | Err e => (c2, Err e)
            end
        end in
      match tried with
      | (c3, Ok result) => (c3, Ok result)
      | (c3, Err err) =>
          match exec_rollback c3 with
          | Ok c4 => (c4, Err err)
          | Err e => (c3, Err e)
          end
      end
  end.

(** A statement, or a batch run under [conn.transaction(...)] (a savepoint
    inside an open transaction): it takes effect whole or not at all. *)
Definition run (stmt : Store -> Result Store) (c : Conn) : Conn * Result unit :=
  match stmt (db c) with
  | Ok s => (mkConn s (snapshot c), Ok tt)
  | Err e => (c, Err e)
  end.

(** *** Metadata upserts *)

(** The id an [AUTOINCREMENT] key gives the next row: one more than the
    largest id that the table holds or that [sqlite_sequence] records.  An
    [INSERT] takes this id before its conflict clause is looked at, and
    records it in [sqlite_sequence] unless the statement fails: so an
    [INSERT ... ON CONFLICT] that ends in [DO UPDATE] or [DO NOTHING] uses
    up an id that no row gets.  Ids are unbounded integers here, as all
    integers of the store are: the largest rowid, [2^63 - 1], after which
    SQLite refuses every insert, is out of reach of statements that take
    one id each. *)
Definition next_id (seq : Z) (ids : list Z) : Z :=
  1 + Z.max seq (foldr Z.max 0 ids).

Definition with_seq_symbols (v : Z) (s : Store) : Store :=
  with_sequence (mkSequence v (seq_intervals (sqlite_sequence s))
                              (seq_series (sqlite_sequence s))) s.
Definition with_seq_intervals (v : Z) (s : Store) : Store :=
  with_sequence (mkSequence (seq_symbols (sqlite_sequence s)) v
                            (seq_series (sqlite_sequence s))) s.
Definition with_seq_series (v : Z) (s : Store) : Store :=
  with_sequence (mkSequence (seq_symbols (sqlite_sequence s))
                            (seq_intervals (sqlite_sequence s)) v) s.

Definition upsert_symbol (symbol base quote : string) (s : Store) : Store :=
  let id := next_id (seq_symbols (sqlite_sequence s)) (map sym_id (symbols s)) in
  with_seq_symbols id
    (if existsb (fun r => String.eqb (sym_symbol r) symbol) (symbols s) then
       with_symbols
         (map (fun r => if String.eqb (sym_symbol r) symbol
                        then mkSymbolRow (sym_id r) (sym_symbol r) base quote
                        else r) (symbols s)) s
     else
       with_symbols (symbols s ++ [mkSymbolRow id symbol base quote]) s).

Definition ensureSymbol (c : Conn) (symbol base quote : string) : Conn * Result Z :=
  let c := mkConn (upsert_symbol symbol base quote (db c)) (snapshot c) in
  match List.find (fun r => String.eqb (sym_symbol r) symbol) (symbols (db c)) with
  | Some row => (c, Ok (sym_id row))
  | None => (c, Err (E_error "TypeError: row is undefined"))
  end.

(** [ms] is [INTERVAL_MS[interval]], [undefined] for an unknown code: bound
    as NULL, which the column [ms INTEGER NOT NULL] refuses. *)
Definition upsert_interval (code : string) (ms : option Z) (s : Store)
    : Result Store :=
  match ms with
  | None => Err (E_sqlite "NOT NULL constraint failed: intervals.ms")
  | Some ms =>
      let id := next_id (seq_intervals (sqlite_sequence s))
                        (map int_id (intervals s)) in
      Ok (with_seq_intervals id
            (if existsb (fun r => String.eqb (int_code r) code) (intervals s) then
               with_intervals
                 (map (fun r => if String.eqb (int_code r) code
                                then mkIntervalRow (int_id r) (int_code r) ms
                                else r) (intervals s)) s
             else
               with_intervals (intervals s ++ [mkIntervalRow id code ms]) s))
  end.

Definition ensureInterval (c : Conn) (code : string) (ms : option Z)
    : Conn * Result Z :=
  match run (upsert_interval code ms) c with
  | (c, Err e) => (c, Err e)
  | (c, Ok _) =>
      match List.find (fun r => String.eqb (int_code r) code) (intervals (db c)) with
      | Some row => (c, Ok (int_id row))
      | None => (c, Err (E_error "TypeError: row is undefined"))
      end
  end.

Definition series_matches (symbolId intervalId : Z) (r : SeriesRow) : bool :=
  (symbol_id r =? symbolId) && (interval_id r =? intervalId).

(** [INSERT ... ON CONFLICT(symbol_id, interval_id) DO NOTHING], under the
    two foreign keys of [series]; the statement that does nothing still
    uses up an id. *)
Definition insert_series (symbolId intervalId : Z) (s : Store) : Result Store :=
  let id := next_id (seq_series (sqlite_sequence s)) (map ser_id (series s)) in
  if existsb (series_matches symbolId intervalId) (series s) then
    Ok (with_seq_series id s)
  else if existsb (fun r => sym_id r =? symbolId) (symbols s)
          && existsb (fun r => int_id r =? intervalId) (intervals s) then
    Ok (with_seq_series id
          (with_series (series s ++ [mkSeriesRow id symbolId intervalId]) s))
  else Err (E_sqlite "FOREIGN KEY constraint failed").

Definition ensureSeries (c : Conn) (symbolId intervalId : Z) : Conn * Result Z :=
  match run (insert_series symbolId intervalId) c with
  | (c, Err e) => (c, Err e)
  | (c, Ok _) =>
      match List.find (series_matches symbolId intervalId) (series (db c)) with
      | Some row => (c, Ok (ser_id row))
      | None => (c, Err (E_error "TypeError: row is undefined"))
      end
  end.

(** *** Candle and indicator upserts *)

(** A double other than NaN as a [REAL] column gives it back: a zero is
    kept as the integer 0, so [-0] is read as [0]; every other double,
    the two infinities among them, is read as it was written. *)
Definition stored_real (x : float) : float :=
  if (x =? 0)%float then 0%float else x.

(** A double bound to a column: SQLite stores NaN as NULL. *)
Definition bind_real (x : float) : option float :=
  if Indicators.isNaN x then None else Some (stored_real x).

Definition bind_nullable (v : option float) : option float :=
  v ≫= bind_real.

Definition series_exists (seriesId : Z) (s : Store) : bool :=
  existsb (fun r => ser_id r =? seriesId) (series s).

(** The [REAL NOT NULL] columns of [candles], in the order of the table. *)
Definition candle_columns (r : CandleRow) : list (string * float) :=
  [("open", open r); ("high", high r); ("low", low r); ("close", close r);
   ("volume", volume r); ("quote_asset_volume", quote_asset_volume r);
   ("taker_buy_base_volume", taker_buy_base_volume r);
   ("taker_buy_quote_volume", taker_buy_quote_volume r)].

Definition candle_reals (r : CandleRow) : list float :=
  map snd (candle_columns r).

(** The row as the table holds it. *)
Definition stored_candle (r : CandleRow) : CandleRow :=
  mkCandleRow (series_id r) (open_time r)
    (stored_real (open r)) (stored_real (high r))
    (stored_real (low r)) (stored_real (close r))
    (stored_real (volume r)) (stored_real (quote_asset_volume r))
    (trades r)
    (stored_real (taker_buy_base_volume r))
    (stored_real (taker_buy_quote_volume r)).

(** One [stmt.run(r)] of [upsertCandles].  Every column is [NOT NULL], and
    the error names the first column of the table that is bound to NaN.
    Then, when a row with the same [(series_id, open_time)] is stored, [DO
    UPDATE] replaces its other columns, and no foreign key is checked since
    [series_id] stays as it is; when none is stored the row is inserted,
    for which its series must exist. *)
Definition upsert_candle (s : Store) (r : CandleRow) : Result Store :=
  match List.find (fun col => Indicators.isNaN col.2) (candle_columns r) with
  | Some col =>
      Err (E_sqlite ("NOT NULL constraint failed: candles." +:+ col.1))
  | None =>
      let written :=
        with_candles
          (<[(series_id r, open_time r) := stored_candle r]> (candles s)) s in
      match candles s !! (series_id r, open_time r) with
      | Some _ => Ok written
      | None =>
          if negb (series_exists (series_id r) s) then
            Err (E_sqlite "FOREIGN KEY constraint failed")
          else Ok written
      end
  end.

(** The row as the table holds it. *)
Definition stored_indicator (r : IndicatorRow) : IndicatorRow :=
  mkIndicatorRow (ind_series_id r) (ind_open_time r)
    (bind_nullable (ema50 r)) (bind_nullable (ema200 r))
    (bind_nullable (rsi14 r)) (bind_nullable (atr14 r))
    (bind_nullable (adx14 r)) (bind_nullable (vol_ma20 r))
    (bind_nullable (macd r)) (bind_nullable (macd_signal r))
    (bind_nullable (macd_hist r)) (bind_nullable (bb_sma20 r))
    (bind_nullable (bb_upper r)) (bind_nullable (bb_lower r))
    (bind_nullable (pct_return_1 r)) (bind_nullable (log_return_1 r)).

(** One [stmt.run(r)] of [upsertIndicators]: a row whose key is stored is
    updated, a new row needs its series. *)
Definition upsert_indicator (s : Store) (r : IndicatorRow) : Result Store :=
  let written :=
    with_indicators
      (<[(ind_series_id r, ind_open_time r) := stored_indicator r]> (indicators s)) s in
  match indicators s !! (ind_series_id r, ind_open_time r) with
  | Some _ => Ok written
  | None =>
      if negb (series_exists (ind_series_id r) s) then
        Err (E_sqlite "FOREIGN KEY constraint failed")
      else Ok written
  end.

(** [for (const r of batch) { stmt.run(r); }] *)
Fixpoint run_batch {R} (stmt : Store -> R -> Result Store) (rows : list R)
    (s : Store) : Result Store :=
  match rows with
  | [] => Ok s
  | r :: rows' =>
      match stmt s r with
      | Ok s' => run_batch stmt rows' s'
      | Err e => Err e
      end
  end.

Definition upsertCandles (c : Conn) (rows : list CandleRow) : Conn * Result unit :=
  run (run_batch upsert_candle rows) c.

Definition upsertIndicators (c : Conn) (rows : list IndicatorRow) : Conn * Result unit :=
  run (run_batch upsert_indicator rows) c.

(** *** Queries *)

(** [SELECT open_time FROM candles WHERE series_id = ? ORDER BY open_time ASC] *)
Definition candle_times (s : Store) (seriesId : Z) : list Z :=
  merge_sort Z.le
    (map snd (List.filter (fun k => k.1 =? seriesId) (map fst (map_to_list (candles s))))).

(** [getMaxOpenTime]: [SELECT MAX(open_time) ...], [null] on no row. *)
Definition getMaxOpenTime (c : Conn) (seriesId : Z) : option Z :=
  match candle_times (db c) seriesId with
  | [] => None
  | t :: ts => Some (foldr Z.max t ts)
  end.

(** *** Lookups and deletion *)


(** [open_time BETWEEN ? AND ?] on a row of the series. *)
Definition in_range (seriesId fromInclusive toInclusive : Z) (k : Z * Z) : bool :=
  (k.1 =? seriesId) && (fromInclusive <=? k.2) && (k.2 <=? toInclusive).

(** The two [DELETE] statements of [deleteRange]. *)
Definition delete_range (seriesId fromInclusive toInclusive : Z) (s : Store)
    : Result Store :=
  Ok (with_candles
        (filter (fun kv => in_range seriesId fromInclusive toInclusive kv.1 = false)
           (candles s))
        (with_indicators
           (filter (fun kv => in_range seriesId fromInclusive toInclusive kv.1 = false)
              (indicators s)) s)).

(** [deleteRange(db, seriesId, fromInclusive, toInclusive)] *)
Definition deleteRange (c : Conn) (seriesId fromInclusive toInclusive : Z)
    : Conn * Result unit :=
  run (delete_range seriesId fromInclusive toInclusive) c.

End Db.

(** ** src/config.ts *)

(** The part of [AppConfig] that bootstrap and update read;
    [bootstrap_startDate] is [Date.parse(cfg.bootstrap.startDate)], [None]
    when that is NaN. *)
Record AppConfig : Type := mkAppConfig {
  cfg_symbols : list string;
  cfg_intervals : list string;
  bootstrap_startDate : option Z
}.

(** ** src/pipeline.ts *)
Module Pipeline.

Definition MAX_API_LIMIT : Z := 1000.
Definition OVERLAP_BARS : Z := 600.

Definition mapToRows (seriesId : Z) (kl : list Binance.Kline) : list Db.CandleRow :=
  map (fun k =>
    Db.mkCandleRow seriesId (Binance.openTime k) (Binance.open k)
      (Binance.high k) (Binance.low k) (Binance.close k) (Binance.volume k)
      (Binance.quoteAssetVolume k) (Binance.numberOfTrades k)
      (Binance.takerBuyBaseVolume k) (Binance.takerBuyQuoteVolume k)) kl.

Definition mapToOHLCV (kl : list Binance.Kline) : list Indicators.OHLCV :=
  map (fun k =>
    Indicators.mkOHLCV (Binance.openTime k) (Binance.open k) (Binance.high k)
      (Binance.low k) (Binance.close k) (Binance.volume k)) kl.

(** The indicator row [{ series_id, open_time, ema50: ind.ema50[i], ... }]. *)
Definition indicatorRow (seriesId openTime : Z) (ind : Indicators.IndicatorsOut)
    (i : nat) : Db.IndicatorRow :=
  Db.mkIndicatorRow seriesId openTime
    (Indicators.at_index (Indicators.ema50 ind) i)
    (Indicators.at_index (Indicators.ema200 ind) i)
    (Indicators.at_index (Indicators.rsi14 ind) i)
    (Indicators.at_index (Indicators.atr14 ind) i)
    (Indicators.at_index (Indicators.adx14 ind) i)
    (Indicators.at_index (Indicators.vol_ma20 ind) i)
    (Indicators.at_index (Indicators.macd_ ind) i)
    (Indicators.at_index (Indicators.macd_signal ind) i)
    (Indicators.at_index (Indicators.macd_hist ind) i)
    (Indicators.at_index (Indicators.bb_sma20 ind) i)
    (Indicators.at_index (Indicators.bb_upper ind) i)
    (Indicators.at_index (Indicators.bb_lower ind) i)
    (Indicators.at_index (Indicators.pct_return_1 ind) i)
    (Indicators.at_index (Indicators.log_return_1 ind) i).

(** [symbol.replace(/USDT$/, "")] *)
Definition strip_USDT (symbol : string) : string :=
  let n := String.length symbol in
  if (4 <=? n)%nat && String.eqb (String.substring (n - 4) 4 symbol) "USDT"
  then String.substring 0 (n - 4) symbol
  else symbol.

Section WithWorld.

(** The world outside the process: the exchange behind the HTTP client,
    and the clock.  [getKlines] is [client.getKlines(symbol, interval,
    startTime, endTime, limit)], which returns klines or throws. *)
Variable Env : Type.
Variable getKlines :
  Env -> string -> string -> Z -> Z -> Z -> Env * Result (list Binance.Kline).
Variable Date_now : Env -> Env * Z.
Variable Math_log : float -> float.

Section Ingest.

Variables (symbol interval : string) (seriesId intervalMs start endClosed : Z).
Variable dryRun : bool.

(** [writeIndices]: the [i] with [rowsAll[i].open_time >= cursor]. *)
Definition writeIndices (rowsAll : list Db.CandleRow) (cursor : Z) : list nat :=
  List.filter
    (fun i => match rowsAll !! i with
              | Some r => Db.open_time r >=? cursor
              | None => false
              end)
    (seq 0 (length rowsAll)).

(** The callback handed to [db.tx]. *)
Definition writeChunk (candleWrite : list Db.CandleRow)
    (indicWrite : list Db.IndicatorRow) (c : Db.Conn) : Db.Conn * Result unit :=
  if (0 <? Z.of_nat (length candleWrite)) then
    match Db.upsertCandles c candleWrite with
    | (c, Err e) => (c, Err e)
    | (c, Ok _) => Db.upsertIndicators c indicWrite
    end
  else (c, Ok tt).

(** One turn of [while (cursor <= endClosed)], the same in
    [bootstrapSeries] and in [updateSeries] (there with [nowClosed] for
    [endClosed]): the next value of [cursor], or the exception thrown. *)
Definition ingestStep (cursor : Z) (conn : Db.Conn) (env : Env)
    : Db.Conn * Env * Result Z :=
  let fetchEnd := Z.min endClosed (cursor + intervalMs * (MAX_API_LIMIT - 1)) in
  let overlapStart := Z.max start (cursor - OVERLAP_BARS * intervalMs) in
  let (env, fetched) :=
    getKlines env symbol interval overlapStart fetchEnd MAX_API_LIMIT in
  match fetched with
  | Err e => (conn, env, Err e)
  | Ok klines =>
      if (length klines =? 0)%nat then (conn, env, Ok (cursor + intervalMs))
      else
        let ohlcvAll := mapToOHLCV klines in
        match Indicators.computeIndicators Math_log ohlcvAll with
        | Err e => (conn, env, Err e)
        | Ok indAll =>
            let rowsAll := mapToRows seriesId klines in
            let idx := writeIndices rowsAll cursor in
            let candleWrite := omap (fun i => rowsAll !! i) idx in
            let indicWrite :=
              omap (fun i =>
                (fun o => indicatorRow seriesId (Indicators.time o) indAll i)
                  <$> ohlcvAll !! i) idx in
            match Db.tx (writeChunk candleWrite indicWrite) (Some dryRun) conn with
            | (conn, Err e) => (conn, env, Err e)
            | (conn, Ok _) =>
                let advancedBars := Z.of_nat (length candleWrite) in
                if 0 <? advancedBars
                then (conn, env, Ok (cursor + advancedBars * intervalMs))
                else (conn, env, Ok (cursor + intervalMs))
            end
        end
  end.

(** [while (cursor <= endClosed) { ... }]; [None] when the loop is still
    running after [fuel] turns. *)
Fixpoint ingestLoop (fuel : nat) (cursor : Z) (conn : Db.Conn) (env : Env)
    : option (Db.Conn * Env * Result unit) :=
  match fuel with
  | O => None
  | S fuel' =>
      if cursor <=? endClosed then
        match ingestStep cursor conn env with
        | (conn, env, Ok cursor') => ingestLoop fuel' cursor' conn env
        | (conn, env, Err e) => Some (conn, env, Err e)
        end
      else Some (conn, env, Ok tt)
  end.

End Ingest.

(** The statements before the loop, shared by both commands: intern the
    symbol, the interval and the series. *)
Definition ensureMeta (conn : Db.Conn) (symbol interval : string)
    : Db.Conn * Result (Z * Z) :=
  match Db.ensureSymbol conn symbol (strip_USDT symbol) "USDT" with
  | (conn, Err e) => (conn, Err e)
  | (conn, Ok symbolId) =>
      match Db.ensureInterval conn interval (Utils.INTERVAL_MS interval) with
      | (conn, Err e) => (conn, Err e)
      | (conn, Ok intervalId) =>
          match Db.ensureSeries conn symbolId intervalId with
          | (conn, Err e) => (conn, Err e)
          | (conn, Ok seriesId) =>
              match Utils.INTERVAL_MS interval with
              | Some intervalMs => (conn, Ok (seriesId, intervalMs))
              | None => (conn, Err (E_error "unreachable"))
              end
          end
      end
  end.

(** [bootstrapSeries(cfg, symbol, interval, dryRun)] on the store [s]: the
    store and the world afterwards, and [Ok tt] or the exception that
    escapes ([finally] closes the connection in both cases). *)
Definition bootstrapSeries (fuel : nat) (cfg : AppConfig) (symbol interval : string)
    (dryRun : bool) (s : Db.Store) (env : Env)
    : option (Db.Store * Env * Result unit) :=
  let conn := Db.openDatabase s in
  match ensureMeta conn symbol interval with
  | (conn, Err e) => Some (Db.close_conn conn, env, Err e)
  | (conn, Ok (seriesId, intervalMs)) =>
      let (env, now) := Date_now env in
      match Utils.floorToInterval now intervalMs with
      | Err e => Some (Db.close_conn conn, env, Err e)
      | Ok floored =>
          let endClosed := floored - 1 in
          match bootstrap_startDate cfg with
          | None => Some (Db.close_conn conn, env, Ok tt)
          | Some start =>
              match ingestLoop symbol interval seriesId intervalMs start
                      endClosed dryRun fuel start conn env with
              | Some (conn, env, r) => Some (Db.close_conn conn, env, r)
              | None => None
              end
          end
      end
  end.

(** [updateSeries(cfg, symbol, interval, dryRun)]. *)
Definition updateSeries (fuel : nat) (cfg : AppConfig) (symbol interval : string)
    (dryRun : bool) (s : Db.Store) (env : Env)
    : option (Db.Store * Env * Result unit) :=
  let conn := Db.openDatabase s in
  match ensureMeta conn symbol interval with
  | (conn, Err e) => Some (Db.close_conn conn, env, Err e)
  | (conn, Ok (seriesId, intervalMs)) =>
      let maxOpen := Db.getMaxOpenTime conn seriesId in
      let (env, now) := Date_now env in
      match Utils.floorToInterval now intervalMs with
      | Err e => Some (Db.close_conn conn, env, Err e)
      | Ok floored =>
          let nowClosed := floored - 1 in
          let start :=
            match maxOpen with
            | None => bootstrap_startDate cfg
            | Some maxOpen =>
                (fun parsed => Z.max parsed (maxOpen - OVERLAP_BARS * intervalMs))
                  <$> bootstrap_startDate cfg
            end in
          match start with
          | None => Some (Db.close_conn conn, env, Ok tt)
          | Some start =>
              match ingestLoop symbol interval seriesId intervalMs start
                      nowClosed dryRun fuel start conn env with
              | Some (conn, env, r) => Some (Db.close_conn conn, env, r)
              | None => None
              end
          end
      end
  end.

(** *** src/index.ts: the commands *)

(** [for (const symbol of cfg.symbols) for (const interval of cfg.intervals)]
    over the pairs still to do, with the check
    [if (!INTERVAL_MS[interval]) throw ...] before each series. *)
Fixpoint forEachSeries
    (perSeries : string -> string -> Db.Store -> Env -> option (Db.Store * Env * Result unit))
    (pairs : list (string * string)) (s : Db.Store) (env : Env)
    : option (Db.Store * Env * Result unit) :=
  match pairs with
  | [] => Some (s, env, Ok tt)
  | (symbol, interval) :: pairs' =>
      match Utils.INTERVAL_MS interval with
      | None => Some (s, env, Err (E_error "Unsupported interval"))
      | Some _ =>
          match perSeries symbol interval s env with
          | Some (s, env, Ok _) => forEachSeries perSeries pairs' s env
          | other => other
          end
      end
  end.

Definition seriesPairs (cfg : AppConfig) : list (string * string) :=
  symbol ← cfg_symbols cfg; interval ← cfg_intervals cfg; [(symbol, interval)].

(** The [bootstrap] command; every series runs with at most [fuel] turns
    of its loop. *)
Definition bootstrapCommand (fuel : nat) (cfg : AppConfig) (dryRun : bool)
    (s : Db.Store) (env : Env) : option (Db.Store * Env * Result unit) :=
  forEachSeries (fun symbol interval => bootstrapSeries fuel cfg symbol interval dryRun)
    (seriesPairs cfg) s env.

(** The [update] command. *)
Definition updateCommand (fuel : nat) (cfg : AppConfig) (dryRun : bool)
    (s : Db.Store) (env : Env) : option (Db.Store * Env * Result unit) :=
  forEachSeries (fun symbol interval => updateSeries fuel cfg symbol interval dryRun)
    (seriesPairs cfg) s env.

End WithWorld.

End Pipeline.

(** ** src/verify.ts: gap detection *)

(** The value of [Math.floor(diff / step) - 1]: a whole number, or
    [Infinity] when [step] is 0.  Both copies of [findGaps] compute it under
    [diff > step], so with [step = 0] the dividend is positive and the
    quotient is [+Infinity], never NaN. *)
Inductive Count : Type :=
  | Finite (n : Z)
  | Infinity.

Coercion Finite : Z >-> Count.

Definition missing_between (diff step : Z) : Count :=
  if step =? 0 then Infinity else Finite (diff / step - 1).

(** [c >= n] for a count [c] and a whole number [n]. *)
Definition Count_geb (c : Count) (n : Z) : bool :=
  match c with
  | Finite m => m >=? n
  | Infinity => true
  end.

Definition Count_add (a b : Count) : Count :=
  match a, b with
  | Finite x, Finite y => Finite (x + y)
  | _, _ => Infinity
  end.

(** One reported gap: [{ startMissing, endMissing, missingBars }]. *)
Record Gap : Type := mkGap {
  startMissing : Z;
  endMissing : Z;
  missingBars : Count
}.

Module Verify.

(** The body of the loop [for (i = 1; i < sortedTimes.length; i++)], with
    [prev = sortedTimes[i-1]] carried along and [rest] the elements from
    index [i] on; [out.push] appends. *)
Fixpoint findGaps_from (step prev : Z) (rest : list Z) : list Gap :=
  match rest with
  | [] => []
  | next :: rest' =>
      let diff := next - prev in
      if diff >? step then
        let missingBars := missing_between diff step in
        let startMissing := prev + step in
        let endMissing := next - step in
        mkGap startMissing endMissing missingBars :: findGaps_from step next rest'
      else findGaps_from step next rest'
  end.

Definition findGaps (sortedTimes : list Z) (step : Z) : list Gap :=
  match sortedTimes with
  | [] => []
  | t0 :: rest => findGaps_from step t0 rest
  end.

End Verify.

(** ** src/repair.ts *)
Module Repair.

Definition MAX_API_LIMIT : Z := 1000.
Definition OVERLAP_BARS : Z := 600.
Definition IGNORE_NULL_WARMUP_BARS : Z := 200.
Definition MIN_GAP_BARS_TO_REPAIR : Z := 1.

Record SeriesMeta : Type := mkSeriesMeta {
  id : Z;
  symbol : string;
  interval : string;
  intervalMs : Z
}.

(** A run of null-indicator rows: [{ start, end }]. *)
Record Span : Type := mkSpan {
  span_start : Z;
  span_end : Z
}.

(** The line of [repair_summary] logged for a series. *)
Record Summary : Type := mkSummary {
  sum_series : Z;
  gaps_remaining : nat;
  null_indicator_rows_remaining : nat
}.

(** *** Detection *)

(** The copy of [findGaps] in repair.ts: as verify's, with the test
    [missingBars >= MIN_GAP_BARS_TO_REPAIR]. *)
Fixpoint findGaps_from (step prev : Z) (rest : list Z) : list Gap :=
  match rest with
  | [] => []
  | next :: rest' =>
      let diff := next - prev in
      if diff >? step then
        let missingBars := missing_between diff step in
        if Count_geb missingBars MIN_GAP_BARS_TO_REPAIR then
          let startMissing := prev + step in
          let endMissing := next - step in
          mkGap startMissing endMissing missingBars :: findGaps_from step next rest'
        else findGaps_from step next rest'
      else findGaps_from step next rest'
  end.

Definition findGaps (sortedTimes : list Z) (step : Z) : list Gap :=
  match sortedTimes with
  | [] => []
  | t0 :: rest => findGaps_from step t0 rest
  end.

(** The loop of [mergeContiguous], with [s] and [p] the start and the last
    time of the run being built. *)
Fixpoint mergeContiguous_from (step s p : Z) (rest : list Z) : list Span :=
  match rest with
  | [] => [mkSpan s p]
  | t :: rest' =>
      if t =? p + step then mergeContiguous_from step s t rest'
      else mkSpan s p :: mergeContiguous_from step t t rest'
  end.

Definition mergeContiguous (times : list Z) (step : Z) : list Span :=
  match times with
  | [] => []
  | t0 :: rest => mergeContiguous_from step t0 t0 rest
  end.

(** *** Queries *)

Definition meta_le (a b : SeriesMeta) : Prop :=
  String.ltb (symbol a) (symbol b) = true \/
  (symbol a = symbol b /\ intervalMs a <= intervalMs b).

#[global] Instance meta_le_dec a b : Decision (meta_le a b).
Proof. unfold meta_le. apply _. Defined.

(** [SELECT s.id, sy.symbol, i.code, i.ms FROM series s JOIN symbols sy ...
    JOIN intervals i ... ORDER BY sy.symbol, i.ms] *)
Definition seriesMetas (s : Db.Store) : list SeriesMeta :=
  merge_sort meta_le
    (omap (fun r =>
       sy ← List.find (fun sy => Db.sym_id sy =? Db.symbol_id r) (Db.symbols s);
       i ← List.find (fun i => Db.int_id i =? Db.interval_id r) (Db.intervals s);
       Some (mkSeriesMeta (Db.ser_id r) (Db.sym_symbol sy) (Db.int_code i) (Db.int_ms i)))
     (Db.series s)).

(** [ema50 IS NULL AND ema200 IS NULL AND ... AND log_return_1 IS NULL] *)
Definition all_null (r : Db.IndicatorRow) : bool :=
  forallb (fun v : option float => match v with None => true | Some _ => false end)
    [Db.ema50 r; Db.ema200 r; Db.rsi14 r; Db.atr14 r; Db.adx14 r; Db.vol_ma20 r;
     Db.macd r; Db.macd_signal r; Db.macd_hist r; Db.bb_sma20 r; Db.bb_upper r;
     Db.bb_lower r; Db.pct_return_1 r; Db.log_return_1 r].

(** [SELECT open_time FROM indicators WHERE series_id = ? AND open_time > ?
    AND <all fields NULL> ORDER BY open_time ASC] *)
Definition nullRows (s : Db.Store) (seriesId warmupCut : Z) : list Z :=
  merge_sort Z.le
    (map (fun kr => kr.1.2)
       (List.filter (fun kr => (kr.1.1 =? seriesId) && (kr.1.2 >? warmupCut)
                               && all_null kr.2)
          (map_to_list (Db.indicators s)))).

Section WithWorld.

Variable Env : Type.
Variable getKlines :
  Env -> string -> string -> Z -> Z -> Z -> Env * Result (list Binance.Kline).
Variable Math_log : float -> float.

(** [ohlcv.map((row, i) => ({ series_id, open_time: row.time, ema50:
    ind.ema50[i], ... }))] *)
Definition indicWrite (meta : SeriesMeta) (ohlcv : list Indicators.OHLCV)
    (ind : Indicators.IndicatorsOut) : list Db.IndicatorRow :=
  imap (fun i row => Pipeline.indicatorRow (id meta) (Indicators.time row) ind i) ohlcv.

(** *** repairGaps *)

(** The callback handed to [db.tx] for a chunk of a gap window. *)
Definition writeGapChunk (candleWrite : list Db.CandleRow)
    (iw : list Db.IndicatorRow) (c : Db.Conn) : Db.Conn * Result unit :=
  let (c, r) := if (0 <? length candleWrite)%nat
                then Db.upsertCandles c candleWrite else (c, Ok tt) in
  match r with
  | Err e => (c, Err e)
  | Ok _ => if (0 <? length iw)%nat then Db.upsertIndicators c iw else (c, Ok tt)
  end.

(** One turn of [while (cursor <= to)] for the gap [g]. *)
Definition gapStep (meta : SeriesMeta) (g : Gap) (to cursor : Z)
    (conn : Db.Conn) (env : Env) : Db.Conn * Env * Result Z :=
  let fetchEnd := Z.min to (cursor + intervalMs meta * (MAX_API_LIMIT - 1)) in
  let (env, fetched) :=
    getKlines env (symbol meta) (interval meta) cursor fetchEnd MAX_API_LIMIT in
  match fetched with
  | Err e => (conn, env, Err e)
  | Ok klines =>
      if (length klines =? 0)%nat then (conn, env, Ok (cursor + intervalMs meta))
      else
        let ohlcv := Pipeline.mapToOHLCV klines in
        match Indicators.computeIndicators Math_log ohlcv with
        | Err e => (conn, env, Err e)
        | Ok ind =>
            let candleRows := Pipeline.mapToRows (id meta) klines in
            let candleWrite :=
              List.filter (fun r => (Db.open_time r >=? startMissing g)
                                    && (Db.open_time r <=? endMissing g)) candleRows in
            let iw := indicWrite meta ohlcv ind in
            let (conn, written) :=
              if (0 <? length candleWrite)%nat || (0 <? length iw)%nat
              then Db.tx (writeGapChunk candleWrite iw) None conn
              else (conn, Ok tt) in
            match written with
            | Err e => (conn, env, Err e)
            | Ok _ =>
                (conn, env,
                 Ok (cursor + Z.max 1 (Z.of_nat (length klines)) * intervalMs meta))
            end
        end
  end.

Fixpoint gapLoop (meta : SeriesMeta) (g : Gap) (to : Z) (fuel : nat) (cursor : Z)
    (conn : Db.Conn) (env : Env) : option (Db.Conn * Env * Result unit) :=
  match fuel with
  | O => None
  | S fuel' =>
      if cursor <=? to then
        match gapStep meta g to cursor conn env with
        | (conn, env, Ok cursor') => gapLoop meta g to fuel' cursor' conn env
        | (conn, env, Err e) => Some (conn, env, Err e)
        end
      else Some (conn, env, Ok tt)
  end.

(** [repairGaps(db, client, meta, gaps)]: every loop runs for at most
    [fuel] turns. *)
Fixpoint repairGaps (fuel : nat) (meta : SeriesMeta) (gaps : list Gap)
    (conn : Db.Conn) (env : Env) : option (Db.Conn * Env * Result unit) :=
  match gaps with
  | [] => Some (conn, env, Ok tt)
  | g :: gaps' =>
      let from := startMissing g - OVERLAP_BARS * intervalMs meta in
      let to := endMissing g + OVERLAP_BARS * intervalMs meta in
      match gapLoop meta g to fuel from conn env with
      | Some (conn, env, Ok _) => repairGaps fuel meta gaps' conn env
      | other => other
      end
  end.

(** *** repairNullSpans *)

Definition spanStep (meta : SeriesMeta) (to cursor : Z)
    (conn : Db.Conn) (env : Env) : Db.Conn * Env * Result Z :=
  let fetchEnd := Z.min to (cursor + intervalMs meta * (MAX_API_LIMIT - 1)) in
  let (env, fetched) :=
    getKlines env (symbol meta) (interval meta) cursor fetchEnd MAX_API_LIMIT in
  match fetched with
  | Err e => (conn, env, Err e)
  | Ok klines =>
      if (length klines =? 0)%nat then (conn, env, Ok (cursor + intervalMs meta))
      else
        let ohlcv := Pipeline.mapToOHLCV klines in
        match Indicators.computeIndicators Math_log ohlcv with
        | Err e => (conn, env, Err e)
        | Ok ind =>
            let iw := indicWrite meta ohlcv ind in
            let (conn, written) :=
              if (0 <? length iw)%nat
              then Db.tx (fun c => Db.upsertIndicators c iw) None conn
              else (conn, Ok tt) in
            match written with
            | Err e => (conn, env, Err e)
            | Ok _ =>
                (conn, env,
                 Ok (cursor + Z.max 1 (Z.of_nat (length klines)) * intervalMs meta))
            end
        end
  end.

Fixpoint spanLoop (meta : SeriesMeta) (to : Z) (fuel : nat) (cursor : Z)
    (conn : Db.Conn) (env : Env) : option (Db.Conn * Env * Result unit) :=
  match fuel with
  | O => None
  | S fuel' =>
      if cursor <=? to then
        match spanStep meta to cursor conn env with
        | (conn, env, Ok cursor') => spanLoop meta to fuel' cursor' conn env
        | (conn, env, Err e) => Some (conn, env, Err e)
        end
      else Some (conn, env, Ok tt)
  end.

Fixpoint repairNullSpans (fuel : nat) (meta : SeriesMeta) (spans : list Span)
    (conn : Db.Conn) (env : Env) : option (Db.Conn * Env * Result unit) :=
  match spans with
  | [] => Some (conn, env, Ok tt)
  | s :: spans' =>
      let from := span_start s - OVERLAP_BARS * intervalMs meta in
      let to := span_end s + OVERLAP_BARS * intervalMs meta in
      match spanLoop meta to fuel from conn env with
      | Some (conn, env, Ok _) => repairNullSpans fuel meta spans' conn env
      | other => other
      end
  end.

(** *** runRepair *)

(** The body of [for (const m of metas)]: [None] for an empty series
    ([continue]), else the summary it logs. *)
Definition repairSeries (fuel : nat) (meta : SeriesMeta) (conn : Db.Conn)
    (env : Env) : option (Db.Conn * Env * Result (option Summary)) :=
  let times := Db.candle_times (Db.db conn) (id meta) in
  match times with
  | [] => Some (conn, env, Ok None)
  | first :: _ =>
      let gaps := findGaps times (intervalMs meta) in
      match (if (0 <? length gaps)%nat then repairGaps fuel meta gaps conn env
             else Some (conn, env, Ok tt)) with
      | None => None
      | Some (conn, env, Err e) => Some (conn, env, Err e)
      | Some (conn, env, Ok _) =>
          let warmupCut := first + IGNORE_NULL_WARMUP_BARS * intervalMs meta in
          let nullSpans :=
            mergeContiguous (nullRows (Db.db conn) (id meta) warmupCut)
              (intervalMs meta) in
          match (if (0 <? length nullSpans)%nat
                 then repairNullSpans fuel meta nullSpans conn env
                 else Some (conn, env, Ok tt)) with
          | None => None
          | Some (conn, env, Err e) => Some (conn, env, Err e)
          | Some (conn, env, Ok _) =>
              let times2 := Db.candle_times (Db.db conn) (id meta) in
              let gaps2 := findGaps times2 (intervalMs meta) in
              let nullRows2 := nullRows (Db.db conn) (id meta) warmupCut in
              Some (conn, env,
                    Ok (Some (mkSummary (id meta) (length gaps2) (length nullRows2))))
          end
      end
  end.

Fixpoint repairAll (fuel : nat) (metas : list SeriesMeta) (conn : Db.Conn)
    (env : Env) : option (Db.Conn * Env * Result (list Summary)) :=
  match metas with
  | [] => Some (conn, env, Ok [])
  | m :: metas' =>
      match repairSeries fuel m conn env with
      | None => None
      | Some (conn, env, Err e) => Some (conn, env, Err e)
      | Some (conn, env, Ok summary) =>
          match repairAll fuel metas' conn env with
          | Some (conn, env, Ok rest) =>
              Some (conn, env, Ok (option_list summary ++ rest))
          | other => other
          end
      end
  end.

(** [runRepair(cfg)] on the store [s]: the store and the world afterwards,
    and the summaries logged or the exception that escapes. *)
Definition runRepair (fuel : nat) (s : Db.Store) (env : Env)
    : option (Db.Store * Env * Result (list Summary)) :=
  let conn := Db.openDatabase s in
  match repairAll fuel (seriesMetas (Db.db conn)) conn env with
  | Some (conn, env, r) => Some (Db.close_conn conn, env, r)
  | None => None
  end.

End WithWorld.

End Repair.

(** ** src/verify.ts: the series summary *)

Module VerifyReport.

(** verify.ts has its own copy of [mergeContiguous]. *)
Fixpoint mergeContiguous_from (step s p : Z) (rest : list Z) : list Repair.Span :=
  match rest with
  | [] => [Repair.mkSpan s p]
  | t :: rest' =>
      if t =? p + step then mergeContiguous_from step s t rest'
      else Repair.mkSpan s p :: mergeContiguous_from step t t rest'
  end.

Definition mergeContiguous (times : list Z) (step : Z) : list Repair.Span :=
  match times with
  | [] => []
  | t0 :: rest => mergeContiguous_from step t0 t0 rest
  end.

(** [bars: ((s.end - s.start) / step) + 1] of [sampleSpans]; on the spans
    that [mergeContiguous] returns for a step other than 0 the division is
    exact. *)
Definition bars (step : Z) (s : Repair.Span) : Z :=
  (Repair.span_end s - Repair.span_start s) / step + 1.

(** [msToHuman(ms)]: the numbers [d], [h] and [m] it prints as
    [`${d}d ${h}h ${m}m`]; [%] is the remainder of the truncated division. *)
Definition msToHuman (ms : Z) : Z * Z * Z :=
  let s := ms / 1000 in
  let d := s / 86400 in
  let h := Z.rem s 86400 / 3600 in
  let m := Z.rem s 3600 / 60 in
  (d, h, m).

End VerifyReport.

(** ** Gap detection as the specification words it *)
Module GapSpec.

(** The consecutive pairs [(t_{i-1}, t_i)] of a list. *)
Definition consecutive (times : list Z) : list (Z * Z) :=
  zip times (tail times).

Definition is_gap (ms : Z) (p : Z * Z) : bool := p.2 - p.1 >? ms.

Definition report (ms : Z) (p : Z * Z) : Gap :=
  mkGap (p.1 + ms) (p.2 - ms) (Finite ((p.2 - p.1) / ms - 1)).

(** "for consecutive (t_{i-1}, t_i) with t_i - t_{i-1} > ms, report ..." *)
Definition gaps (times : list Z) (ms : Z) : list Gap :=
  map (report ms) (List.filter (is_gap ms) (consecutive times)).

(** A reported gap is an exact run of [missingBars >= 1] missing bar
    positions from [startMissing] to [endMissing]. *)
Definition exact (ms : Z) (g : Gap) : Prop :=
  exists n : Z,
    missingBars g = Finite n /\
    1 <= n /\
    endMissing g = startMissing g + (n - 1) * ms.

End GapSpec.


(** ** The token bucket's invariant *)
Module BucketSpec.
Import Binance.
Local Open Scope Q_scope.

(** The invariant of the bucket, with the facts about its constant fields
    that make it inductive. *)
Definition bucket_inv (tpm : Q) (b : TokenBucket) : Prop :=
  capacity b = tpm /\ refillPerMs b = tpm / 60000 /\
  0 <= tokens b /\ tokens b <= capacity b.

(** A bucket of 60 tokens per minute, created at time 0 and emptied there
    by 60 calls of [take]. *)
Definition drained : TokenBucket :=
  Nat.iter 60 (fun b => (takeIter 0 b).1) (newTokenBucket 60 0).

End BucketSpec.

(** ** The back-off formula as the specification words it *)

Module BackoffSpec.
Import Binance.
Local Open Scope Q_scope.

(** "clamp(base * 2^attempt * (0.75 + U(0, 0.5)), baseMs, maxMs)", with [u]
    the draw of U(0, 0.5). *)
Definition wait (r : RetryConfig) (attempt : Z) (u : Q) : Q :=
  Utils.clamp (baseMs r * 2 ^ attempt * ((3 # 4) + u)) (baseMs r) (maxMs r).



End BackoffSpec.


(** ** Permanent errors and the retry loop *)

Module RetrySpec.
Import Binance.

(** A response with "a non-2xx status other than 418 and 429". *)
Definition permanent (resp : Response) : bool :=
  negb (ok resp) && negb (status resp =? 418) && negb (status resp =? 429).

(** The world answers this attempt of [req] with such a response. *)
Definition replies_permanent (req : Request) (w : Request -> Attempt) : Prop :=
  exists resp, reply (w req) = Responded resp /\ permanent resp = true.

(** The error raised for the answer of an attempt. *)
Definition error_of (a : Attempt) : Result (list Kline) :=
  match reply a with
  | Responded resp => Err (E_http (status resp) (body resp))
  | Rejected reason => Err (E_fetch reason)
  end.

(** The waits [backoffWaitMs(attempt + 1, null)], [backoffWaitMs(attempt + 2,
    null)], ... slept after the failed attempts [env]. *)
Fixpoint retry_waits (r : RetryConfig) (req : Request) (attempt : Z)
    (env : list (Request -> Attempt)) : list Q :=
  match env with
  | [] => []
  | w :: env' =>
      backoffWaitMs r (attempt + 1) RA_absent (rnd_retry (w req))
        :: retry_waits r req (attempt + 1) env'
  end.

End RetrySpec.


Module RetryExample.
Import Binance.

Definition cfg : RetryConfig := mkRetry 500 60000 1.
(** 600 requests per minute, 4 in flight, one retry; built at time 0. *)
Definition client : BinanceClient :=
  newBinanceClient (mkRateLimit 600 4 cfg) 5000 0.
Definition req : Request := mkRequest "BTCUSDT" "1m" (Some 0) (Some 59999) 1000.
Definition bar : Kline :=
  mkKline 0 1%float 1%float 1%float 1%float 1%float 59999 1%float 1 1%float 1%float.
Definition bad_request : Request -> Attempt :=
  fun _ => mkAttempt (Responded (mkResponse 400 RA_absent "bad" (Err (E_decode "no json")))) 0 0.
Definition good : Request -> Attempt :=
  fun _ => mkAttempt (Responded (mkResponse 200 RA_absent "" (Ok [bar]))) 0 0.

End RetryExample.


(** ** A rising series for the RSI kernel *)
Module RsiExample.
Local Open Scope float_scope.
(** Fifteen closes rising by one: fourteen gains, no loss. *)
Definition ramp : list float :=
  [1; 2; 3; 4; 5; 6; 7; 8; 9; 10; 11; 12; 13; 14; 15].
End RsiExample.


(** ** A callback for [tx] *)
Module TxExample.
(** A callback that interns one symbol. *)
Definition intern (c : Db.Conn) : Db.Conn * Result Z :=
  Db.ensureSymbol c "BTCUSDT" "BTC" "USDT".

(** A callback that interns one symbol and then ends the transaction
    itself, with [db.conn.exec("COMMIT")]. *)
Definition commits (c : Db.Conn) : Db.Conn * Result Z :=
  match intern c with
  | (c1, Ok id) =>
      match Db.exec_commit c1 with
      | Ok c2 => (c2, Ok id)
      | Err e => (c1, Err e)
      end
  | (c1, Err e) => (c1, Err e)
  end.
End TxExample.


(** ** A small exchange for the concrete runs *)
Module Market.

(** The [i]-th one-minute bar of a steadily rising market. *)
Definition bar (i : nat) : Binance.Kline :=
  let t := Z.of_nat i * 60000 in
  let p := Indicators.Z2F (100 + Z.of_nat i) in
  Binance.mkKline t p (p + 2)%float (p - 1)%float (p + 1)%float
    (Indicators.Z2F (10 + Z.of_nat i)) (t + 59999)
    (Indicators.Z2F (1000 + Z.of_nat i)) (5 + Z.of_nat i)
    (Indicators.Z2F (4 + Z.of_nat i)) (Indicators.Z2F (400 + Z.of_nat i)).

(** The bars [from], [from + 1], ..., [from + n - 1]. *)
Definition bars (from n : nat) : list Binance.Kline := map bar (seq from n).

(** The world of a run: the log of the [(startTime, endTime)] windows that
    were requested. *)
Definition Env : Type := list (Z * Z).

(** An exchange that holds [listed] and answers every request with the
    listed bars inside the window, oldest first, at most [limit] of them:
    the same answer to the same arguments. *)
Definition getKlines (listed : list Binance.Kline) (env : Env)
    (symbol interval : string) (startTime endTime limit : Z)
    : Env * Result (list Binance.Kline) :=
  (env ++ [(startTime, endTime)],
   Ok (firstn (Z.to_nat limit)
         (List.filter (fun k => (startTime <=? Binance.openTime k)
                                && (Binance.openTime k <=? endTime)) listed))).

(** A clock that stands at [now]. *)
Definition Date_now (now : Z) (env : Env) : Env * Z := (env, now).

Definition cfg : AppConfig := mkAppConfig ["BTCUSDT"] ["1m"] (Some 0).

(** A stand-in for [Math.log] where a run needs one: [log_return_1] is
    stored and never read back, and no statement below depends on it. *)
Definition log_stand_in (x : float) : float := x.

End Market.

(** ** The ingest loop as the specification words it *)

Module IngestSpec.

(** "write := { i | klines[i].openTime >= cursor }": its size. *)
Definition written (klines : list Binance.Kline) (cursor : Z) : Z :=
  Z.of_nat (length (List.filter (fun k => Binance.openTime k >=? cursor) klines)).

(** An upper bound on the turns the loop takes from [cursor]. *)
Definition turns (intervalMs endClosed cursor : Z) : nat :=
  Z.to_nat ((endClosed - cursor) / intervalMs + 1).

End IngestSpec.


(** ** What a dry run keeps, and what bootstrap interns *)

Module DryRunSpec.

(** The tables a dry run leaves as they were. *)
Definition same_data (s s' : Db.Store) : Prop :=
  Db.candles s' = Db.candles s /\
  Db.indicators s' = Db.indicators s /\
  Db.series_state s' = Db.series_state s /\
  Db.known_gaps s' = Db.known_gaps s.

(** The metadata a first bootstrap of [(symbol, interval)] interns. *)
Definition interned (symbol interval : string) (ms : Z) : Db.Store :=
  Db.mkStore
    [Db.mkSymbolRow 1 symbol (Pipeline.strip_USDT symbol) "USDT"]
    [Db.mkIntervalRow 1 interval ms]
    [Db.mkSeriesRow 1 1 1]
    ∅ ∅ ∅ ∅
    (Db.mkSequence 1 1 1).

End DryRunSpec.


(** ** The known-gap registry *)

Module RegistrySpec.

(** The connection with the registry [known_gaps] replaced by [kg], in the
    visible contents and in the snapshot of an open transaction. *)
Definition conn_with_known_gaps (kg : gset (Z * Z * Z)) (c : Db.Conn) : Db.Conn :=
  Db.mkConn (Db.with_known_gaps kg (Db.db c))
            (Db.with_known_gaps kg <$> Db.snapshot c).

(** The same replacement in the outcome of a step on a connection... *)
Definition in_conn {E A : Type} (kg : gset (Z * Z * Z)) (o : Db.Conn * E * A)
    : Db.Conn * E * A :=
  (conn_with_known_gaps kg o.1.1, o.1.2, o.2).

(** ... and in the outcome of a run on a store. *)
Definition in_store {E A : Type} (kg : gset (Z * Z * Z)) (o : Db.Store * E * A)
    : Db.Store * E * A :=
  (Db.with_known_gaps kg o.1.1, o.1.2, o.2).

(** A detected gap overlaps a registered window of its series. *)
Definition overlaps (seriesId : Z) (g : Gap) (w : Z * Z * Z) : Prop :=
  w.1.1 = seriesId /\ w.1.2 <= endMissing g /\ startMissing g <= w.2.

(** A statement that does not read the registry: it commutes with
    replacing it. *)
Definition blind (kg : gset (Z * Z * Z)) (stmt : Db.Store -> Result Db.Store)
    : Prop :=
  forall s, stmt (Db.with_known_gaps kg s) =
            match stmt s with
            | Ok s' => Ok (Db.with_known_gaps kg s')
            | Err e => Err e
            end.

End RegistrySpec.


Module RepairExample.

(** BTCUSDT/1m with the bars 0 and 3 stored, the bars 1 and 2 missing, and
    the window of the two missing bars registered as a known gap. *)
Definition holed : Db.Store :=
  match Db.run_batch Db.upsert_candle
          (Pipeline.mapToRows 1 [Market.bar 0; Market.bar 3])
          (DryRunSpec.interned "BTCUSDT" "1m" 60000) with
  | Ok s => Db.with_known_gaps {[ (1, 60000, 120000) ]} s
  | Err _ => Db.empty_store
  end.

End RepairExample.


(** ** Two updates in a row *)
Module UpdateExample.

Section WithPlatform.
Variable Math_log : float -> float.

(** The [update] command against an exchange that lists the 602 one-minute
    bars 0 .. 601, with the clock standing at the end of the last bar. *)
Definition update (s : Db.Store) (env : Market.Env)
    : option (Db.Store * Market.Env * Result unit) :=
  Pipeline.updateCommand Market.Env (Market.getKlines (Market.bars 0 602))
    (Market.Date_now (602 * 60000)) Math_log 10 Market.cfg false s env.

(** One run on the empty store. *)
Definition once : option (Db.Store * Market.Env * Result unit) :=
  update Db.empty_store [].

(** Another run right after a run that completed. *)
Definition again (run : option (Db.Store * Market.Env * Result unit))
    : option (Db.Store * Market.Env * Result unit) :=
  match run with
  | Some (s1, env1, Ok _) => update s1 env1
  | other => other
  end.

Definition twice : option (Db.Store * Market.Env * Result unit) := again once.

End WithPlatform.

(** What a run leaves at the key [k] of [indicators]: whether it completed
    without exception and, if a row is there, whether all its indicator
    fields are NULL. *)
Definition indicator_row_null (k : Z * Z)
    (run : option (Db.Store * Market.Env * Result unit))
    : option (bool * option bool) :=
  match run with
  | Some (s, _, r) => Some (is_ok r, Repair.all_null <$> Db.indicators s !! k)
  | None => None
  end.

(** The requests a run has made. *)
Definition requested (run : option (Db.Store * Market.Env * Result unit))
    : list (Z * Z) :=
  match run with
  | Some (_, env, _) => env
  | None => []
  end.

End UpdateExample.


(** ** A batch of upserts as a fold of inserts *)
Module UpsertSpec.

(** The rows of a batch written one after the other into a table keyed by
    [(series_id, open_time)]. *)
Definition write_all {R V : Type} (key : R -> Z * Z) (val : R -> V)
    (m : gmap (Z * Z) V) (rows : list R) : gmap (Z * Z) V :=
  foldl (fun m r => <[key r := val r]> m) m rows.

End UpsertSpec.

(** ** The series of tests/indicators.test.ts *)
Module IndicatorsTest.
Import Indicators.
Local Open Scope float_scope.

(** [series.push({ time: i, open: base, high: base + 1, low: base - 1,
    close: base + 0.5, volume: 1000 + i })] with [base = 100 + i * 0.1]. *)
Definition series : list OHLCV :=
  map (fun i =>
         let base := 100 + Z2F (Z.of_nat i) * 0x1.999999999999ap-4 in
         mkOHLCV (Z.of_nat i) base (base + 1) (base - 1) (base + 0.5)
                 (1000 + Z2F (Z.of_nat i)))
      (seq 0 300).

Definition lengths (ind : IndicatorsOut) : list nat :=
  [length (ema50 ind); length (ema200 ind); length (rsi14 ind);
   length (atr14 ind); length (adx14 ind); length (vol_ma20 ind);
   length (macd_ ind); length (bb_sma20 ind); length (bb_upper ind);
   length (bb_lower ind)].

End IndicatorsTest.

(** ** Warm-up of the indicator vectors *)

Module WarmupSpec.

(** An indicator vector of length [n] that is null exactly below index
    [warm]: "null for i < warm", a number from there on. *)
Definition warm_from (warm : Z) (n : nat) (out : list (option float)) : Prop :=
  length out = n /\
  forall j : nat, (j < n)%nat ->
    if Z.of_nat j <? warm then out !! j = Some None
    else exists v, out !! j = Some (Some v).

(** [pct_return_1[j]] and [log_return_1[j]] for [j >= 1], in closed form. *)
Definition pct_at (close : list float) (j : nat) : option float :=
  if (Indicators.get close (j - 1) =? 0)%float then None
  else Some (Indicators.get close j / Indicators.get close (j - 1) - 1)%float.

Definition log_at (Math_log : float -> float) (close : list float) (j : nat)
    : option float :=
  if (Indicators.get close (j - 1) =? 0)%float then None
  else Some (Math_log (Indicators.get close j / Indicators.get close (j - 1))%float).

End WarmupSpec.

(** ** The requests a call may issue *)

Module RetryBudget.
Import Binance.

(** The number of requests the retry loop may issue from [attempt] on: one,
    and one more for each value of [attempt] up to [maxRetries]. *)
Definition budget (r : RetryConfig) (attempt : Z) : Z :=
  Z.max 1 (maxRetries r - attempt + 1).

End RetryBudget.

(** ** Spans and gaps as sets of bars *)

Module SpanSpec.

(** The open times a span stands for: [start], [start + step], ... *)
Definition expand (step : Z) (s : Repair.Span) : list Z :=
  map (fun k : nat => Repair.span_start s + Z.of_nat k * step)
      (seq 0 (Z.to_nat (VerifyReport.bars step s))).

(** The bars a list of gaps reports missing. *)
Definition missing (gaps : list Gap) : Count :=
  foldr (fun g acc => Count_add (missingBars g) acc) (Finite 0) gaps.

End SpanSpec.

(** ** What the constraints of the schema keep true *)

Module StoreSpec.
Import Db.

(** What the [UNIQUE] constraints on [symbols.symbol] and [intervals.code]
    keep true of every store. *)
Definition names_unique (s : Store) : Prop :=
  NoDup (map sym_symbol (symbols s)) /\ NoDup (map int_code (intervals s)).

(** The series has a candle at [t]. *)
Definition has_candle (s : Store) (seriesId t : Z) : Prop :=
  is_Some (candles s !! (seriesId, t)).

End StoreSpec.

(** ** Batches *)

Module BatchSpec.
Import Db.

Definition candle_key (r : CandleRow) : Z * Z := (series_id r, open_time r).
Definition indicator_key (r : IndicatorRow) : Z * Z := (ind_series_id r, ind_open_time r).

(** A candle row the table accepts: no NaN in a [REAL NOT NULL] column,
    and a series for the foreign key, unless a row with its key is stored
    already. *)
Definition candle_ok (s : Store) (r : CandleRow) : bool :=
  negb (existsb Indicators.isNaN (candle_reals r)) &&
  (series_exists (series_id r) s || bool_decide (is_Some (candles s !! candle_key r))).

(** An indicator row the table accepts. *)
Definition indicator_ok (s : Store) (r : IndicatorRow) : bool :=
  series_exists (ind_series_id r) s ||
  bool_decide (is_Some (indicators s !! indicator_key r)).

(** The error a refused row is refused with: the NOT NULL error of the
    first column, in the order of the table, that holds NaN; the FOREIGN
    KEY error when no column does. *)
Definition first_nan (r : CandleRow) : option string :=
  if Indicators.isNaN (open r) then Some "open"
  else if Indicators.isNaN (high r) then Some "high"
  else if Indicators.isNaN (low r) then Some "low"
  else if Indicators.isNaN (close r) then Some "close"
  else if Indicators.isNaN (volume r) then Some "volume"
  else if Indicators.isNaN (quote_asset_volume r) then Some "quote_asset_volume"
  else if Indicators.isNaN (taker_buy_base_volume r) then Some "taker_buy_base_volume"
  else if Indicators.isNaN (taker_buy_quote_volume r) then Some "taker_buy_quote_volume"
  else None.

Definition candle_error (r : CandleRow) : Exn :=
  match first_nan r with
  | Some col => E_sqlite ("NOT NULL constraint failed: candles." +:+ col)
  | None => E_sqlite "FOREIGN KEY constraint failed"
  end.

(** A candle of series 7 whose [low] and [close] are NaN. *)
Definition nan_candle : CandleRow :=
  mkCandleRow 7 0 1%float 1%float nan nan 1%float 1%float 1 1%float 1%float.

(** A candle of series 1 whose [open] is [-0]. *)
Definition neg_zero_candle : CandleRow :=
  mkCandleRow 1 0 neg_zero 1%float 1%float 1%float 1%float 1%float 1 1%float 1%float.

(** A candle of series 7. *)
Definition orphan : CandleRow :=
  mkCandleRow 7 0 1%float 1%float 1%float 1%float 1%float 1%float 1 1%float 1%float.

(** A store that holds a candle of series 7 and no series: one that was
    filled with the foreign keys switched off. *)
Definition orphaned : Store := with_candles {[ (7, 0) := orphan ]} empty_store.

End BatchSpec.

(** ** What repair and ingest may write *)

Module RepairSpec.

(** The key [k] of [candles] lies in one of the gaps of the series. *)
Definition in_gaps (seriesId : Z) (gaps : list Gap) (k : Z * Z) : Prop :=
  k.1 = seriesId /\
  Exists (fun g => startMissing g <= k.2 <= endMissing g) gaps.

(** The turns the loop over the window of a gap, or of a span, may take. *)
Definition window_turns (ms lo hi : Z) : nat :=
  IngestSpec.turns ms (hi + Repair.OVERLAP_BARS * ms) (lo - Repair.OVERLAP_BARS * ms).

End RepairSpec.

Module IngestFrameSpec.

(** The rows of [s'] outside the series, or before [cursor], are those of [s]. *)
Definition kept_before (seriesId cursor : Z) (s s' : Db.Store) : Prop :=
  forall k : Z * Z, k.1 <> seriesId \/ k.2 < cursor ->
    Db.candles s' !! k = Db.candles s !! k /\
    Db.indicators s' !! k = Db.indicators s !! k.

End IngestFrameSpec.


(** * Verified properties *)

(** *** Properties of gap detection *)
Section GapDetection.

Variable ms : Z.
Hypothesis ms_pos : 0 < ms.

(** For a step other than 0 the quotient is finite. *)
Lemma missing_between_finite diff :
  missing_between diff ms = Finite (diff / ms - 1).
Proof using ms_pos.
  unfold missing_between. destruct (ms =? 0) eqn:E; [lia|done].
Qed.

Lemma verify_findGaps_from_spec prev rest :
  Verify.findGaps_from ms prev rest =
  map (GapSpec.report ms)
      (List.filter (GapSpec.is_gap ms) (zip (prev :: rest) rest)).
Proof using ms_pos.
  revert prev; induction rest as [|next rest IH]; intros prev; [done|].
  cbn [Verify.findGaps_from zip zip_with List.filter].
  unfold GapSpec.is_gap at 1; cbn [fst snd].
  rewrite missing_between_finite.
  destruct (next - prev >? ms); cbn [map]; rewrite IH; done.
Qed.

(** On multiples of [ms] a difference above [ms] spans at least two steps. *)
Lemma multiple_gap_bars prev next :
  (ms | prev) -> (ms | next) -> ms < next - prev ->
  1 <= (next - prev) / ms - 1 /\ (next - prev) / ms * ms = next - prev.
Proof using ms_pos.
  intros [a ->] [b ->] Hlt.
  replace (b * ms - a * ms) with ((b - a) * ms) in * by lia.
  rewrite Z.div_mul by lia. split; [|done]. nia.
Qed.

Lemma repair_findGaps_from_verify prev rest :
  (ms | prev) -> Forall (fun t => (ms | t)) rest ->
  Repair.findGaps_from ms prev rest = Verify.findGaps_from ms prev rest.
Proof using ms_pos.
  revert prev; induction rest as [|next rest IH]; intros prev Hp Hr; [done|].
  apply Forall_cons in Hr as [Hn Hr].
  cbn [Repair.findGaps_from Verify.findGaps_from].
  destruct (next - prev >? ms) eqn:Hgt; [|by apply IH].
  apply Z.gtb_lt in Hgt.
  destruct (multiple_gap_bars prev next Hp Hn Hgt) as [Hbars _].
  rewrite missing_between_finite.
  unfold Repair.MIN_GAP_BARS_TO_REPAIR, Count_geb.
  destruct ((next - prev) / ms - 1 >=? 1) eqn:Hge; [by rewrite IH|lia].
Qed.

Lemma findGaps_from_exact prev rest :
  (ms | prev) -> Forall (fun t => (ms | t)) rest ->
  Forall (GapSpec.exact ms) (Verify.findGaps_from ms prev rest).
Proof using ms_pos.
  revert prev; induction rest as [|next rest IH]; intros prev Hp Hr.
  { constructor. }
  apply Forall_cons in Hr as [Hn Hr].
  cbn [Verify.findGaps_from].
  destruct (next - prev >? ms) eqn:Hgt; [|by apply IH].
  apply Z.gtb_lt in Hgt.
  destruct (multiple_gap_bars prev next Hp Hn Hgt) as [Hbars Hex].
  constructor; [|by apply IH].
  exists ((next - prev) / ms - 1).
  split; [cbn; apply missing_between_finite|].
  split; cbn; [done|]. nia.
Qed.

(** C8.  On a strictly increasing list of stored open times that are all
    multiples of the interval [ms], both copies of [findGaps] (verify's and
    repair's) report exactly the consecutive pairs whose difference exceeds
    [ms], each with [startMissing = prev + ms], [endMissing = next - ms] and
    [missingBars = (next - prev)/ms - 1]; the division is exact and every
    report covers at least one bar. *)
Theorem findGaps_reports_exactly_the_gaps (times : list Z) :
  Sorted Z.lt times ->
  Forall (fun t => (ms | t)) times ->
  Verify.findGaps times ms = GapSpec.gaps times ms /\
  Repair.findGaps times ms = GapSpec.gaps times ms /\
  Forall (GapSpec.exact ms) (GapSpec.gaps times ms).
Proof using ms_pos.
  intros _ Hmul.
  assert (Hv : Verify.findGaps times ms = GapSpec.gaps times ms).
  { destruct times as [|t0 rest]; [done|].
    unfold Verify.findGaps, GapSpec.gaps, GapSpec.consecutive.
    cbn [tail]. by apply verify_findGaps_from_spec. }
  split; [done|]. rewrite <- Hv.
  destruct times as [|t0 rest]; [by split; [|constructor]|].
  apply Forall_cons in Hmul as [H0 Hr].
  split.
  - by apply repair_findGaps_from_verify.
  - by apply findGaps_from_exact.
Qed.

End GapDetection.

Lemma findGaps_reports_exactly_the_gaps_witness :
  Verify.findGaps [0; 60000; 240000; 300000] 60000
    = [mkGap 120000 180000 2] /\
  Repair.findGaps [0; 60000; 240000; 300000] 60000
    = GapSpec.gaps [0; 60000; 240000; 300000] 60000.
Proof.
  assert (Hs : Sorted Z.lt [0; 60000; 240000; 300000]).
  { repeat constructor. }
  assert (Hm : Forall (fun t => (60000 | t)) [0; 60000; 240000; 300000]).
  { repeat constructor; [by exists 0|by exists 1|by exists 4|by exists 5]. }
  destruct (findGaps_reports_exactly_the_gaps 60000 ltac:(lia) _ Hs Hm)
    as (Hv & Hr & _).
  split; [reflexivity|exact Hr].
Defined.


(** ** The token bucket (src/binance.ts) *)

Section TokenBucketInvariant.
Import Binance BucketSpec.
Local Open Scope Q_scope.


Variable tpm : Q.
Hypothesis tpm_nonneg : 0 <= tpm.

Lemma rate_nonneg : 0 <= tpm / 60000.
Proof using tpm_nonneg.
  apply Qle_shift_div_l; [reflexivity|]. lra.
Qed.

Lemma newTokenBucket_inv now : bucket_inv tpm (newTokenBucket tpm now).
Proof using tpm_nonneg.
  unfold bucket_inv, newTokenBucket; cbn. repeat split; [done|lra].
Qed.

Lemma refill_inv now b : bucket_inv tpm b -> bucket_inv tpm (refill now b).
Proof using tpm_nonneg.
  intros (Hc & Hr & H0 & H1). unfold refill.
  destruct (now - lastRefill b <=? 0)%Z eqn:Hd; [done|].
  apply Z.leb_gt in Hd.
  unfold bucket_inv; cbn. repeat split; try done.
  - apply Q.min_glb; [lra|].
    assert (0 <= inject_Z (now - lastRefill b) * refillPerMs b).
    { apply Qmult_le_0_compat.
      - change 0 with (inject_Z 0). rewrite <- Zle_Qle. lia.
      - rewrite Hr. apply rate_nonneg. }
    lra.
  - apply Q.le_min_l.
Qed.

Lemma takeIter_inv now b : bucket_inv tpm b -> bucket_inv tpm (takeIter now b).1.
Proof using tpm_nonneg.
  intros Hb. apply (refill_inv now) in Hb.
  unfold takeIter. destruct Hb as (Hc & Hr & H0 & H1).
  destruct (Qle_bool 1 (tokens (refill now b))) eqn:Ht; cbn; [|done].
  apply Qle_bool_iff in Ht. unfold bucket_inv; cbn.
  repeat split; try done; lra.
Qed.

Lemma take_inv clock b b' clock' :
  bucket_inv tpm b -> take clock b = Some (b', clock') -> bucket_inv tpm b'.
Proof using tpm_nonneg.
  revert b; induction clock as [|now clock IH]; intros b Hb Ht; [done|].
  cbn [take] in Ht.
  pose proof (takeIter_inv now b Hb) as Hi.
  destruct (takeIter now b) as [b1 [|]]; cbn in Hi.
  - by inversion Ht; subst.
  - by eapply IH.
Qed.

Lemma reachable_inv b : reachable tpm b -> bucket_inv tpm b.
Proof using tpm_nonneg.
  induction 1 as [now|b now _ IH|b now _ IH|b clock b' clock' _ IH Ht].
  - apply newTokenBucket_inv.
  - by apply refill_inv.
  - by apply takeIter_inv.
  - by eapply take_inv.
Qed.

Lemma refill_frozen now b : (now <= lastRefill b)%Z -> refill now b = b.
Proof.
  intros H. unfold refill.
  destruct (now - lastRefill b <=? 0)%Z eqn:Hd; [done|].
  apply Z.leb_gt in Hd. lia.
Qed.

Lemma burst_le_tokens now n b :
  bucket_inv tpm b -> (now <= lastRefill b)%Z ->
  inject_Z (burst now n b) <= tokens b.
Proof using tpm_nonneg.
  revert b; induction n as [|n IH]; intros b Hb Hnow.
  { destruct Hb as (_ & _ & H0 & _). exact H0. }
  cbn [burst].
  pose proof (takeIter_inv now b Hb) as Hi.
  unfold takeIter in *. rewrite refill_frozen in * by done.
  destruct (Qle_bool 1 (tokens b)) eqn:Ht; cbn in Hi.
  - specialize (IH _ Hi Hnow). cbn in IH.
    rewrite inject_Z_plus. change (inject_Z 1) with 1. lra.
  - specialize (IH _ Hi Hnow). by rewrite Z.add_0_l.
Qed.

Lemma takeIter_lastRefill now b : (now <= lastRefill (takeIter now b).1)%Z.
Proof.
  unfold takeIter, refill.
  destruct (now - lastRefill b <=? 0)%Z eqn:Hd;
    destruct (Qle_bool 1 _); cbn; lia.
Qed.

(** The calls admitted at one reading of the clock are paid for by the
    tokens that the first refill at that reading leaves: the refill records
    the reading, so the turns after the first add nothing. *)
Lemma burst_le_refill now n b :
  bucket_inv tpm b -> inject_Z (burst now n b) <= tokens (refill now b).
Proof using tpm_nonneg.
  intros Hb. destruct n as [|n].
  { apply (refill_inv now) in Hb. destruct Hb as (_ & _ & H0 & _). exact H0. }
  cbn [burst].
  pose proof (takeIter_inv now b Hb) as Hi.
  pose proof (takeIter_lastRefill now b) as Hl.
  pose proof (burst_le_tokens now n _ Hi Hl) as Hn.
  unfold takeIter in *.
  destruct (Qle_bool 1 (tokens (refill now b))) eqn:Ht; cbn [fst] in *.
  - cbn [tokens] in Hn. rewrite inject_Z_plus. change (inject_Z 1) with 1. lra.
  - by rewrite Z.add_0_l.
Qed.

(** C10.  The token bucket keeps [0 <= tokens <= capacity], with
    [capacity = requestsPerMinute], in every state it can reach by [refill],
    by a turn of [take] and by [take] itself: [refill] sets [tokens] to the
    minimum of [capacity] and [tokens + elapsed * refillPerMs] and never
    lowers it; a turn of [take] removes exactly one token, and only when at
    least one is there; and a burst, any number of turns of [take] at one
    reading of the clock, however long the bucket has been idle before,
    admits no more calls than the refilled bucket holds tokens, so never
    more than [capacity]. *)
Theorem token_bucket_invariant :
  (forall b, reachable tpm b ->
     capacity b = tpm /\ 0 <= tokens b /\ tokens b <= capacity b) /\
  (forall b now, reachable tpm b ->
     tokens (refill now b) ==
       Qmin (capacity b)
            (tokens b + inject_Z (Z.max 0 (now - lastRefill b)) * refillPerMs b) /\
     tokens b <= tokens (refill now b)) /\
  (forall b now, reachable tpm b ->
     if (takeIter now b).2
     then 1 <= tokens (refill now b) /\
          tokens (takeIter now b).1 == tokens (refill now b) - 1
     else tokens (refill now b) < 1 /\ (takeIter now b).1 = refill now b) /\
  (forall b now n, reachable tpm b ->
     inject_Z (burst now n b) <= tokens (refill now b) /\
     inject_Z (burst now n b) <= capacity b).
Proof using tpm_nonneg.
  repeat apply conj.
  - intros b Hb. apply reachable_inv in Hb as (Hc & _ & H0 & H1). done.
  - intros b now Hb. apply reachable_inv in Hb as (Hc & Hr & H0 & H1).
    unfold refill.
    destruct (now - lastRefill b <=? 0)%Z eqn:Hd.
    + apply Z.leb_le in Hd. rewrite Z.max_l by lia.
      change (inject_Z 0) with 0.
      split; [|lra]. rewrite Q.min_r; lra.
    + apply Z.leb_gt in Hd. rewrite Z.max_r by lia. cbn.
      split; [reflexivity|].
      assert (0 <= inject_Z (now - lastRefill b) * refillPerMs b).
      { apply Qmult_le_0_compat.
        - change 0 with (inject_Z 0). rewrite <- Zle_Qle. lia.
        - rewrite Hr. apply rate_nonneg. }
      apply Q.min_glb; lra.
  - intros b now _. unfold takeIter.
    destruct (Qle_bool 1 (tokens (refill now b))) eqn:Ht; cbn.
    + apply Qle_bool_iff in Ht. split; [done|reflexivity].
    + split; [|done]. apply Qnot_le_lt. intros Hle.
      apply Qle_bool_iff in Hle. congruence.
  - intros b now n Hb. apply reachable_inv in Hb.
    pose proof (burst_le_refill now n b Hb) as Hn.
    apply (refill_inv now) in Hb as (Hc & _ & _ & H1).
    split; [exact Hn|].
    assert (Hcap : capacity (refill now b) = capacity b).
    { unfold refill. by destruct (_ <=? _)%Z. }
    rewrite Hcap in H1. lra.
Qed.

End TokenBucketInvariant.

Lemma drained_reachable : Binance.reachable 60 BucketSpec.drained.
Proof.
  unfold BucketSpec.drained.
  generalize 60%nat. intros n.
  induction n as [|n IH]; cbn [Nat.iter].
  - apply Binance.reach_new.
  - by apply Binance.reach_takeIter.
Qed.

Lemma token_bucket_invariant_witness :
  (0 <= Binance.tokens (Binance.takeIter 5 (Binance.newTokenBucket 60 0)).1 /\
   Binance.tokens (Binance.takeIter 5 (Binance.newTokenBucket 60 0)).1 <= 60 /\
   inject_Z (Binance.burst 60000 1000 BucketSpec.drained) <= 60)%Q.
Proof.
  assert (H60 : (0 <= 60)%Q) by discriminate.
  destruct (token_bucket_invariant 60 H60) as (Hinv & _ & _ & Hburst).
  destruct (Hinv (Binance.takeIter 5 (Binance.newTokenBucket 60 0)).1) as (_ & H0 & H1).
  - apply Binance.reach_takeIter, Binance.reach_new.
  - split; [exact H0|]. split; [exact H1|].
    exact (proj2 (Hburst BucketSpec.drained 60000%Z 1000%nat drained_reachable)).
Defined.

(** A bucket of 60 tokens per minute, drained and then left idle for a
    minute, admits 60 of 1000 calls made at once; while it is drained it
    admits none. *)
Example burst_after_idle_time :
  Binance.tokens BucketSpec.drained = 0%Q /\
  Binance.burst 0 1000 BucketSpec.drained = 0%Z /\
  Binance.burst 60000 1000 BucketSpec.drained = 60%Z.
Proof. vm_compute. done. Qed.

(** ** Back-off (src/binance.ts) *)
Section Backoff.
Import Binance.
Local Open Scope Q_scope.

Lemma Qltb_lt a b : Utils.Qltb a b = true <-> a < b.
Proof.
  unfold Utils.Qltb. rewrite negb_true_iff.
  split.
  - intros H. apply Qnot_le_lt. intros Hle. apply Qle_bool_iff in Hle. congruence.
  - intros H. destruct (Qle_bool b a) eqn:E; [|done].
    apply Qle_bool_iff in E. lra.
Qed.

Lemma Qltb_ge a b : Utils.Qltb a b = false <-> b <= a.
Proof.
  unfold Utils.Qltb. rewrite negb_false_iff. apply Qle_bool_iff.
Qed.


Lemma clamp_bounds x lo hi : lo <= hi -> lo <= Utils.clamp x lo hi <= hi.
Proof.
  intros Hb. unfold Utils.clamp.
  destruct (Utils.Qltb x lo) eqn:E1; [lra|].
  destruct (Utils.Qltb hi x) eqn:E2; [lra|].
  apply Qltb_ge in E1, E2. lra.
Qed.


End Backoff.




(** ** The retry loop (src/binance.ts) *)
Section Retry.
Import Binance RetrySpec.

Variable r : RetryConfig.
Variable req : Request.

Lemma doReq_permanent a resp :
  reply a = Responded resp -> permanent resp = true ->
  doReq r a = (Err (E_http (status resp) (body resp)), []).
Proof.
  unfold doReq, permanent. intros -> H.
  apply andb_prop in H as [H H429]. apply andb_prop in H as [Hok H418].
  apply negb_true_iff in H418, H429. rewrite H418, H429, Hok. done.
Qed.

Lemma retryLoop_permanent (n : nat) : forall env attempt last,
  attempt + 1 + Z.of_nat n = maxRetries r + 1 ->
  Forall (replies_permanent req) env ->
  env !! n = Some last ->
  retryLoop r req attempt env =
    Some (mkRun (error_of (last req)) (S n)
                (retry_waits r req attempt (firstn n env))).
Proof.
  induction n as [|n IH]; intros env attempt last Hn Hall Hlast.
  - destruct env as [|w env]; [done|]. cbn in Hlast. inversion Hlast; subst.
    apply Forall_cons in Hall as [(resp & Hw & Hp) _].
    cbn [retryLoop]. rewrite (doReq_permanent _ _ Hw Hp).
    destruct (attempt + 1 >? maxRetries r) eqn:Hgt; [|lia].
    unfold error_of. by rewrite Hw.
  - destruct env as [|w env]; [done|]. cbn in Hlast.
    apply Forall_cons in Hall as [(resp & Hw & Hp) Hall].
    cbn [retryLoop]. rewrite (doReq_permanent _ _ Hw Hp).
    destruct (attempt + 1 >? maxRetries r) eqn:Hgt; [lia|].
    rewrite (IH env (attempt + 1) last) by (done || lia).
    done.
Qed.

(** C2 (amended).  For every response with a non-2xx status other than 418
    and 429, [doReq] raises an error carrying the status and the response
    body, without sleeping; [getKlines] retries it like any other failure:
    once the scheduler has admitted the call, when every answer is such a
    response it issues [maxRetries + 1] requests, sleeping
    [backoffWaitMs(k, null)] before the k-th retry, and only then lets the
    error of the last answer propagate. *)
Theorem getKlines_retries_permanent_errors (client : BinanceClient)
    (clock clock' : list Z) (b' : TokenBucket)
    (env : list (Request -> Attempt)) (last : Request -> Attempt) :
  client_retry client = r ->
  0 <= maxRetries r ->
  Forall (replies_permanent req) env ->
  env !! Z.to_nat (maxRetries r) = Some last ->
  active (scheduler client) < sched_maxConcurrent (scheduler client) ->
  Binance.take clock (bucket (scheduler client)) = Some (b', clock') ->
  (forall a resp, reply a = Responded resp -> permanent resp = true ->
     doReq r a = (Err (E_http (status resp) (body resp)), [])) /\
  exists client',
    getKlines client req clock env =
      Some (client', clock',
            mkRun (error_of (last req))
                  (S (Z.to_nat (maxRetries r)))
                  (retry_waits r req 0 (firstn (Z.to_nat (maxRetries r)) env))).
Proof.
  intros Hr Hmax Hall Hlast Hgate Htake. split; [apply doReq_permanent|].
  unfold getKlines, schedule. rewrite Hr.
  destruct (active _ >=? _) eqn:Hg; [lia|].
  rewrite Htake.
  rewrite (retryLoop_permanent (Z.to_nat (maxRetries r)) env 0 last) by (done || lia).
  by eexists.
Qed.

End Retry.


Lemma getKlines_retries_permanent_errors_witness :
  exists client',
    Binance.getKlines RetryExample.client RetryExample.req [0]
      [RetryExample.bad_request; RetryExample.bad_request] =
    Some (client', [],
          Binance.mkRun (Err (E_http 400 "bad")) 2
            [Binance.backoffWaitMs RetryExample.cfg 1 Binance.RA_absent 0]).
Proof.
  refine (proj2 (getKlines_retries_permanent_errors RetryExample.cfg RetryExample.req
            RetryExample.client [0] [] _
            [RetryExample.bad_request; RetryExample.bad_request]
            RetryExample.bad_request _ _ _ _ _ _)).
  - reflexivity.
  - cbn. lia.
  - repeat constructor; by eexists.
  - reflexivity.
  - cbn. lia.
  - vm_compute. reflexivity.
Defined.

(** C2 as stated fails: with [maxRetries = 1], an HTTP 400 answered to the
    first request does not propagate out of [getKlines] after one request;
    the request is issued again (and here succeeds). *)
Lemma getKlines_retries_after_http_400 :
  ~ (exists client' clock' run,
       Binance.getKlines RetryExample.client RetryExample.req [0]
         [RetryExample.bad_request; RetryExample.good]
         = Some (client', clock', run) /\
       Binance.outcome run = Err (E_http 400 "bad") /\
       Binance.requests run = 1%nat).
Proof.
  intros (client' & clock' & run & Hrun & Hout & Hreq). vm_compute in Hrun.
  inversion Hrun; subst. discriminate.
Qed.

Example getKlines_second_request_succeeds :
  (fun o => (Binance.outcome o.2, Binance.requests o.2))
    <$> Binance.getKlines RetryExample.client RetryExample.req [0]
          [RetryExample.bad_request; RetryExample.good]
  = Some (Ok [RetryExample.bar], 2%nat).
Proof. vm_compute. reflexivity. Qed.

(** ** Warm-up of the Wilder RSI kernel (src/indicators.ts) *)

Section RsiWarmup.
Import Indicators.

Variable close : list float.
Variable period : Z.

Lemma rsi_smooth_length fuel : forall k ag al out,
  length (rsi_smooth close period fuel k ag al out) = length out.
Proof.
  induction fuel as [|fuel IH]; intros k ag al out; cbn [rsi_smooth]; [done|].
  by rewrite IH, length_insert.
Qed.

Lemma rsi_smooth_below fuel : forall k ag al out (j : nat),
  (j < k)%nat ->
  rsi_smooth close period fuel k ag al out !! j = out !! j.
Proof.
  induction fuel as [|fuel IH]; intros k ag al out j Hj; cbn [rsi_smooth]; [done|].
  rewrite IH by lia. apply list_lookup_insert_ne. lia.
Qed.

Lemma rsi_loop_length fuel : forall i prev gs ls out,
  length (rsi_loop close period fuel i prev gs ls out) = length out.
Proof.
  induction fuel as [|fuel IH]; intros i prev gs ls out; cbn [rsi_loop]; [done|].
  destruct prev as [prev|]; [|by apply IH].
  destruct (Z.of_nat i <=? period); [|by apply IH].
  destruct (Z.of_nat i =? period); [|by apply IH].
  by rewrite rsi_smooth_length, length_insert.
Qed.

(** The loop writes at index [period] and above only. *)
Lemma rsi_loop_below fuel : forall i prev gs ls out (j : nat),
  Z.of_nat j < period ->
  rsi_loop close period fuel i prev gs ls out !! j = out !! j.
Proof.
  induction fuel as [|fuel IH]; intros i prev gs ls out j Hj; cbn [rsi_loop]; [done|].
  destruct prev as [prev|]; [|by apply IH].
  destruct (Z.of_nat i <=? period); [|by apply IH].
  destruct (Z.of_nat i =? period) eqn:Hi; [|by apply IH].
  apply Z.eqb_eq in Hi.
  rewrite rsi_smooth_below by lia. apply list_lookup_insert_ne. lia.
Qed.

(** Once a previous close is known, the loop reaches [i = period] and
    stores a number there. *)
Lemma rsi_loop_at_period fuel : forall i prev gs ls out (p : nat),
  period = Z.of_nat p -> (i <= p)%nat -> (p < i + fuel)%nat ->
  (p < length out)%nat -> (0 < i)%nat ->
  exists v, rsi_loop close period fuel i (Some prev) gs ls out !! p = Some (Some v).
Proof.
  induction fuel as [|fuel IH]; intros i prev gs ls out p Hp Hi Hf Hlen Hpos;
    [lia|].
  cbn [rsi_loop].
  destruct (Z.of_nat i <=? period) eqn:Hle; [|apply Z.leb_gt in Hle; lia].
  destruct (Z.of_nat i =? period) eqn:Heq.
  - apply Z.eqb_eq in Heq. assert (i = p) as -> by lia.
    eexists. rewrite rsi_smooth_below by lia.
    by apply list_lookup_insert_eq.
  - apply Z.eqb_neq in Heq. apply IH; lia.
Qed.

(** C6 (amended).  For every close vector and every positive period, the
    Wilder RSI kernel returns null at every output index [j] with
    [0 <= j < period]; at the output index [j = period] it emits the first
    RSI value. *)
Theorem rsiWilder_null_below_period (j : nat) :
  0 < period -> (j < length close)%nat ->
  (Z.of_nat j < period -> rsiWilder close period !! j = Some None) /\
  (Z.of_nat j = period -> exists v, rsiWilder close period !! j = Some (Some v)).
Proof.
  intros Hpos Hlen. unfold rsiWilder. split.
  - intros Hj. rewrite rsi_loop_below by done.
    unfold nulls. by apply lookup_replicate_2.
  - intros Hj. destruct close as [|c0 rest] eqn:Hc; [cbn in Hlen; lia|].
    rewrite <- Hc in *. assert (Hl : length close = S (length rest)) by (by rewrite Hc).
    rewrite Hl. cbn [rsi_loop].
    apply rsi_loop_at_period; try lia.
    unfold nulls. rewrite length_replicate. lia.
Qed.

End RsiWarmup.


Lemma rsiWilder_null_below_period_witness :
  Indicators.rsiWilder RsiExample.ramp 14 !! 13%nat = Some None.
Proof.
  refine (proj1 (rsiWilder_null_below_period RsiExample.ramp 14 13 _ _) _).
  - lia.
  - cbn. lia.
  - lia.
Defined.

(** C6 as stated fails at the index [period] itself: on fifteen rising
    closes with [period = 14] the output at index 14 is 100, not null. *)
Lemma rsiWilder_emits_at_period :
  ~ (forall i : nat, 0 <= Z.of_nat i <= 14 ->
       Indicators.rsiWilder RsiExample.ramp 14 !! i = Some None).
Proof.
  intros H. specialize (H 14%nat ltac:(lia)). vm_compute in H. discriminate.
Qed.

Example rsiWilder_ramp_at_period :
  Indicators.rsiWilder RsiExample.ramp 14 !! 14%nat = Some (Some 100%float).
Proof. vm_compute. reflexivity. Qed.

(** ** Transactions (src/db.ts) *)

Section Transactions.
Import Db.

Context {T : Type}.
Variable fn : Conn -> Conn * Result T.

(** [fn] issues no [BEGIN], [COMMIT] or [ROLLBACK] of its own. *)
Hypothesis fn_keeps_transaction : forall c, snapshot (fn c).1 = snapshot c.

(** What [tx] does on a connection with no transaction open, by the result
    of [fn] and the flag. *)
Lemma tx_unfold (dryRun : option bool) (s : Store) :
  tx fn dryRun (mkConn s None) =
  match (fn (mkConn s (Some s))).2 with
  | Ok v =>
      match dryRun with
      | Some true => (mkConn s None, Ok v)
      | _ => (mkConn (db (fn (mkConn s (Some s))).1) None, Ok v)
      end
  | Err e => (mkConn s None, Err e)
  end.
Proof using fn_keeps_transaction.
  unfold tx, exec_begin; cbn [snapshot db].
  pose proof (fn_keeps_transaction (mkConn s (Some s))) as Hk.
  destruct (fn (mkConn s (Some s))) as [[s2 snap2] r]; cbn in Hk; subst snap2.
  cbn [snd fst db].
  destruct r as [v|e]; [|done].
  destruct dryRun as [[|]|]; done.
Qed.

End Transactions.

(** C5 (amended).  For every callback [fn] and flag [dryRun], [tx(fn,
    dryRun)] on a connection with no transaction open runs [fn] inside a
    transaction begun on the current contents [s].  When [fn] returns with a
    transaction still open, [tx] leaves none open: if [fn] returned [v], [tx]
    returns [v], having committed what [fn] wrote unless [dryRun] is [true],
    in which case it has rolled back; if [fn] threw, [tx] rolls back and
    throws the same exception.  The roll-back returns to the contents [s0]
    at the [BEGIN] of the open transaction, which is [s] for a callback that
    issues no [BEGIN], [COMMIT] or [ROLLBACK] of its own.  When [fn] has ended
    the transaction itself, nothing is rolled back: the [COMMIT] or
    [ROLLBACK] of [tx] fails, the [ROLLBACK] of the [catch] block fails
    too, and [tx] throws [cannot rollback - no transaction is active],
    whatever [fn] returned or threw, with the store as [fn] left it. *)
Theorem tx_commits_or_rolls_back {T : Type} (fn : Db.Conn -> Db.Conn * Result T)
    (dryRun : option bool) (s : Db.Store) :
  let inside := Db.mkConn s (Some s) in
  let after := Db.tx fn dryRun (Db.openDatabase s) in
  match Db.snapshot (fn inside).1 with
  | Some s0 =>
      Db.snapshot after.1 = None /\
      (Db.snapshot (fn inside).1 = Db.snapshot inside -> s0 = s) /\
      match (fn inside).2 with
      | Ok v =>
          after.2 = Ok v /\
          Db.db after.1
            = (if decide (dryRun = Some true) then s0 else Db.db (fn inside).1)
      | Err e =>
          after.2 = Err e /\ Db.db after.1 = s0
      end
  | None =>
      after = ((fn inside).1,
               Err (E_sqlite "cannot rollback - no transaction is active"))
  end.
Proof.
  intros inside after. subst inside after.
  unfold Db.tx, Db.exec_begin, Db.openDatabase. cbn [Db.snapshot Db.db].
  destruct (fn (Db.mkConn s (Some s))) as [[s2 [s0|]] [v|e]];
    destruct dryRun as [[|]|]; cbn;
    try done; (split; [done|]); (split; [|done]); intros H; by inversion H.
Qed.

Lemma tx_commits_or_rolls_back_witness :
  Db.tx TxExample.intern (Some true) (Db.openDatabase Db.empty_store)
    = (Db.mkConn Db.empty_store None, Ok 1) /\
  Db.symbols (Db.db (Db.tx TxExample.intern None (Db.openDatabase Db.empty_store)).1)
    = [Db.mkSymbolRow 1 "BTCUSDT" "BTC" "USDT"].
Proof.
  pose proof (tx_commits_or_rolls_back TxExample.intern (Some true) Db.empty_store) as Hdry.
  pose proof (tx_commits_or_rolls_back TxExample.intern None Db.empty_store) as Hcommit.
  cbn zeta in Hdry, Hcommit.
  change (TxExample.intern (Db.mkConn Db.empty_store (Some Db.empty_store)))
    with (Db.mkConn (Db.upsert_symbol "BTCUSDT" "BTC" "USDT" Db.empty_store)
                    (Some Db.empty_store), @Ok Z 1) in Hdry, Hcommit.
  cbn [fst snd Db.snapshot Db.db] in Hdry, Hcommit.
  destruct Hdry as (Hs & _ & Hr & Hd), Hcommit as (_ & _ & _ & Hc).
  split.
  - destruct (Db.tx TxExample.intern (Some true) (Db.openDatabase Db.empty_store))
      as [[d sn] r]; cbn in *. by subst.
  - rewrite Hc. reflexivity.
Defined.

(** C5 as stated fails, since not every callback leaves the transaction to
    [tx]: a callback that interns a symbol and then issues [COMMIT] itself
    returns normally, but the dry run does not roll back.  Its [ROLLBACK]
    finds no transaction, [tx] throws instead of returning the value of
    the callback, and the row stays in the store. *)
Lemma tx_dry_run_cannot_undo_a_commit :
  ~ (forall (fn : Db.Conn -> Db.Conn * Result Z) (dryRun : option bool) (s : Db.Store),
       let inside := Db.mkConn s (Some s) in
       let after := Db.tx fn dryRun (Db.openDatabase s) in
       match (fn inside).2 with
       | Ok v =>
           after.2 = Ok v /\
           Db.db after.1
             = (if decide (dryRun = Some true) then s else Db.db (fn inside).1)
       | Err e =>
           after.2 = Err e /\ Db.db after.1 = s
       end).
Proof.
  intros H. specialize (H TxExample.commits (Some true) Db.empty_store).
  vm_compute in H. destruct H as [H _]. discriminate.
Qed.

(** On a connection with a transaction open [tx] throws at its [BEGIN],
    before [fn] runs. *)
Lemma tx_inside_transaction {T : Type} (fn : Db.Conn -> Db.Conn * Result T)
    (dryRun : option bool) (s s0 : Db.Store) :
  Db.tx fn dryRun (Db.mkConn s (Some s0))
    = (Db.mkConn s (Some s0),
       Err (E_sqlite "cannot start a transaction within a transaction")).
Proof. reflexivity. Qed.

Example tx_dry_run_after_commit :
  Db.tx TxExample.commits (Some true) (Db.openDatabase Db.empty_store)
    = (Db.openDatabase (Db.upsert_symbol "BTCUSDT" "BTC" "USDT" Db.empty_store),
       Err (E_sqlite "cannot rollback - no transaction is active")) /\
  Db.symbols (Db.upsert_symbol "BTCUSDT" "BTC" "USDT" Db.empty_store)
    = [Db.mkSymbolRow 1 "BTCUSDT" "BTC" "USDT"].
Proof. split; reflexivity. Qed.

(** ** The ingest loop (src/pipeline.ts) *)

(** The rows picked through [writeIndices] are the rows that pass the test. *)
Lemma omap_lookup_filter_seq {A} (p : A -> bool) (l pre : list A) :
  omap (fun i => (pre ++ l) !! i)
       (List.filter (fun i => match (pre ++ l) !! i with
                              | Some r => p r
                              | None => false
                              end)
          (seq (length pre) (length l)))
  = List.filter p l.
Proof.
  revert pre; induction l as [|x l IH]; intros pre; [done|].
  cbn [length seq List.filter].
  assert (Hx : (pre ++ x :: l) !! length pre = Some x).
  { by rewrite lookup_app_r, Nat.sub_diag by lia. }
  rewrite Hx.
  specialize (IH (pre ++ [x])).
  rewrite <- app_assoc, length_app in IH. cbn in IH.
  rewrite Nat.add_1_r in IH.
  destruct (p x); cbn [omap list_omap]; rewrite ?Hx; fold (@omap list _ nat A);
    by rewrite IH.
Qed.

Lemma omap_lookup_filter {A} (p : A -> bool) (l : list A) :
  omap (fun i => l !! i)
       (List.filter (fun i => match l !! i with
                              | Some r => p r
                              | None => false
                              end)
          (seq 0 (length l)))
  = List.filter p l.
Proof. exact (omap_lookup_filter_seq p l []). Qed.

Section IngestLoop.
Import Pipeline IngestSpec.

Variable Env : Type.
Variable getKlines :
  Env -> string -> string -> Z -> Z -> Z -> Env * Result (list Binance.Kline).
Variable Date_now : Env -> Env * Z.
Variable Math_log : float -> float.

Variables (symbol interval : string) (seriesId intervalMs start endClosed : Z).
Variable dryRun : bool.

Local Abbreviation step := (ingestStep Env getKlines Math_log symbol interval seriesId
                    intervalMs start endClosed dryRun).
Local Abbreviation loop := (ingestLoop Env getKlines Math_log symbol interval seriesId
                    intervalMs start endClosed dryRun).
Local Abbreviation fetch cursor env :=
  (getKlines env symbol interval
     (Z.max start (cursor - OVERLAP_BARS * intervalMs))
     (Z.min endClosed (cursor + intervalMs * (MAX_API_LIMIT - 1)))
     MAX_API_LIMIT).

Lemma length_candleWrite (klines : list Binance.Kline) cursor :
  Z.of_nat (length (omap (fun i => mapToRows seriesId klines !! i)
                      (writeIndices (mapToRows seriesId klines) cursor)))
  = written klines cursor.
Proof.
  unfold writeIndices, written.
  rewrite (omap_lookup_filter (fun r => Db.open_time r >=? cursor)).
  unfold mapToRows. f_equal.
  induction klines as [|k ks IH]; [done|].
  cbn [map List.filter Db.open_time].
  destruct (Binance.openTime k >=? cursor); cbn [length]; by rewrite IH.
Qed.

(** A turn that does not throw moves the cursor by [max(1, |write|)] bars. *)
Lemma ingestStep_advance cursor conn env conn' env' cursor' :
  step cursor conn env = (conn', env', Ok cursor') ->
  exists klines,
    (fetch cursor env).2 = Ok klines /\
    cursor' = cursor + Z.max 1 (written klines cursor) * intervalMs.
Proof.
  unfold ingestStep.
  destruct (fetch cursor env) as [env1 [klines|e]]; [|done].
  intros H. exists klines. split; [done|].
  destruct (length klines =? 0)%nat eqn:Hlen.
  { apply Nat.eqb_eq in Hlen. destruct klines; [|done].
    inversion H; subst. unfold written; cbn [List.filter length].
    rewrite Z.max_l by lia. lia. }
  destruct (Indicators.computeIndicators _ _) as [indAll|e]; [|done].
  destruct (Db.tx _ _ _) as [conn2 [[]|e]]; [|done].
  rewrite length_candleWrite in H.
  destruct (0 <? written klines cursor) eqn:Hw; inversion H; subst.
  - apply Z.ltb_lt in Hw. rewrite Z.max_r by lia. lia.
  - apply Z.ltb_ge in Hw. rewrite Z.max_l by lia. lia.
Qed.

Hypothesis intervalMs_pos : 0 < intervalMs.

Lemma turns_decrease cursor cursor' :
  cursor <= endClosed -> cursor + intervalMs <= cursor' ->
  (turns intervalMs endClosed cursor' < turns intervalMs endClosed cursor)%nat.
Proof using intervalMs_pos.
  intros Hle Hadv. unfold turns.
  assert (0 <= (endClosed - cursor) / intervalMs) by (apply Z.div_pos; lia).
  assert ((endClosed - cursor') / intervalMs <= (endClosed - cursor) / intervalMs - 1).
  { transitivity ((endClosed - cursor + (-1) * intervalMs) / intervalMs).
    - apply Z.div_le_mono; lia.
    - rewrite Z.div_add by lia. lia. }
  lia.
Qed.

Lemma ingestLoop_terminates fuel : forall cursor conn env,
  (turns intervalMs endClosed cursor < fuel)%nat ->
  is_Some (loop fuel cursor conn env).
Proof using intervalMs_pos.
  induction fuel as [|fuel IH]; intros cursor conn env Hfuel; [lia|].
  cbn [ingestLoop].
  destruct (cursor <=? endClosed) eqn:Hc; [|done].
  apply Z.leb_le in Hc.
  destruct (step cursor conn env) as [[conn1 env1] [cursor1|e]] eqn:Hstep; [|done].
  apply ingestStep_advance in Hstep as (klines & _ & ->).
  apply IH.
  assert (Hadv : cursor + intervalMs
                 <= cursor + Z.max 1 (written klines cursor) * intervalMs) by nia.
  pose proof (turns_decrease _ _ Hc Hadv). lia.
Qed.

(** C9.  With [endClosed] fixed before the loop and a positive interval,
    every turn of the ingest loop that does not throw moves [cursor] forward
    by [max(1, |write|) * intervalMs], that is by [intervalMs] when the
    fetch returns no klines or no row at or after [cursor] is written and by
    the number of written bars times [intervalMs] otherwise, hence by at
    least [intervalMs]; and the loop ends (by passing [endClosed] or by an
    exception) within [(endClosed - cursor) / intervalMs + 1] turns. *)
Theorem bootstrap_loop_terminates cursor conn env :
  (forall conn' env' cursor',
     step cursor conn env = (conn', env', Ok cursor') ->
     exists klines,
       (fetch cursor env).2 = Ok klines /\
       cursor' = cursor + Z.max 1 (written klines cursor) * intervalMs /\
       cursor + intervalMs <= cursor') /\
  (forall fuel, (turns intervalMs endClosed cursor < fuel)%nat ->
     is_Some (loop fuel cursor conn env)).
Proof using intervalMs_pos.
  split.
  - intros conn' env' cursor' Hstep.
    apply ingestStep_advance in Hstep as (klines & Hk & ->).
    exists klines. repeat split; [done|]. nia.
  - intros fuel. apply ingestLoop_terminates.
Qed.

End IngestLoop.

(** [bootstrapSeries] always returns: the interval of a supported code is
    positive, and an unsupported one makes [ensureInterval] throw. *)
Lemma bootstrapSeries_terminates Env getKlines Date_now Math_log cfg symbol
    interval dryRun s env :
  exists fuel, forall fuel', (fuel <= fuel')%nat ->
    is_Some (Pipeline.bootstrapSeries Env getKlines Date_now Math_log fuel' cfg
               symbol interval dryRun s env).
Proof.
  unfold Pipeline.bootstrapSeries.
  destruct (Pipeline.ensureMeta _ _ _) as [conn [[seriesId intervalMs]|e]];
    [|by exists 0%nat].
  destruct (Date_now env) as [env1 now].
  unfold Utils.floorToInterval.
  destruct (intervalMs <=? 0) eqn:Hms; [by exists 0%nat|].
  apply Z.leb_gt in Hms.
  destruct (bootstrap_startDate cfg) as [start|]; [|by exists 0%nat].
  exists (S (IngestSpec.turns intervalMs (now / intervalMs * intervalMs - 1) start)).
  intros fuel' Hfuel.
  destruct (ingestLoop_terminates Env getKlines Math_log symbol interval seriesId
              intervalMs start (now / intervalMs * intervalMs - 1) dryRun Hms
              fuel' start conn env1 ltac:(lia)) as [[[conn2 env2] r] ->].
  done.
Qed.

Lemma bootstrap_loop_terminates_witness :
  is_Some (Pipeline.ingestLoop Market.Env (Market.getKlines (Market.bars 0 3))
             (fun x => x) "BTCUSDT" "1m" 1 60000 0 179999 false
             4 0 (Db.openDatabase Db.empty_store) []).
Proof.
  refine (proj2 (bootstrap_loop_terminates Market.Env
            (Market.getKlines (Market.bars 0 3)) (fun x => x) "BTCUSDT" "1m" 1 60000 0
            179999 false _ 0 (Db.openDatabase Db.empty_store) []) 4%nat _).
  - lia.
  - vm_compute. lia.
Defined.

(** ** Dry-run bootstrap (src/pipeline.ts, src/index.ts) *)

Section MetadataFrame.
Import Db DryRunSpec.

Lemma same_data_refl s : same_data s s.
Proof. by repeat split. Qed.

Lemma same_data_trans s1 s2 s3 :
  same_data s1 s2 -> same_data s2 s3 -> same_data s1 s3.
Proof.
  intros (? & ? & ? & ?) (? & ? & ? & ?). repeat split; congruence.
Qed.

(** The metadata upserts touch [symbols], [intervals] and [series] only. *)
Local Ltac frame := split; [reflexivity | by repeat split].

Lemma run_keeps_transaction stmt c : snapshot (run stmt c).1 = snapshot c.
Proof. unfold run. by destruct (stmt (db c)). Qed.

Lemma ensureSymbol_frame c symbol base quote :
  snapshot (ensureSymbol c symbol base quote).1 = snapshot c /\
  same_data (db c) (db (ensureSymbol c symbol base quote).1).
Proof.
  unfold ensureSymbol, upsert_symbol.
  destruct (existsb _ _); destruct (List.find _ _); frame.
Qed.

Lemma ensureInterval_frame c code ms :
  snapshot (ensureInterval c code ms).1 = snapshot c /\
  same_data (db c) (db (ensureInterval c code ms).1).
Proof.
  unfold ensureInterval, run, upsert_interval.
  destruct ms as [ms|]; [|frame].
  destruct (existsb _ _); cbn [db]; destruct (List.find _ _); frame.
Qed.

Lemma ensureSeries_frame c symbolId intervalId :
  snapshot (ensureSeries c symbolId intervalId).1 = snapshot c /\
  same_data (db c) (db (ensureSeries c symbolId intervalId).1).
Proof.
  unfold ensureSeries, run, insert_series.
  destruct (existsb (series_matches _ _) _).
  { destruct (List.find _ _); frame. }
  destruct (_ && _); [|frame].
  cbn [db]. destruct (List.find _ _); frame.
Qed.

Lemma ensureMeta_frame c symbol interval :
  snapshot (Pipeline.ensureMeta c symbol interval).1 = snapshot c /\
  same_data (db c) (db (Pipeline.ensureMeta c symbol interval).1).
Proof.
  unfold Pipeline.ensureMeta.
  pose proof (ensureSymbol_frame c symbol (Pipeline.strip_USDT symbol) "USDT") as [Hs1 Hd1].
  destruct (ensureSymbol c symbol _ _) as [c1 [symbolId|e]]; cbn [fst] in *; [|done].
  pose proof (ensureInterval_frame c1 interval (Utils.INTERVAL_MS interval)) as [Hs2 Hd2].
  destruct (ensureInterval c1 interval _) as [c2 [intervalId|e]]; cbn [fst] in *.
  2:{ split; [congruence|by eapply same_data_trans]. }
  pose proof (ensureSeries_frame c2 symbolId intervalId) as [Hs3 Hd3].
  destruct (ensureSeries c2 symbolId intervalId) as [c3 [seriesId|e]]; cbn [fst] in *.
  2:{ split; [congruence|eauto using same_data_trans]. }
  destruct (Utils.INTERVAL_MS interval); cbn [fst];
    (split; [congruence|eauto using same_data_trans]).
Qed.

End MetadataFrame.

Section DryRun.
Import Pipeline DryRunSpec.

Variable Env : Type.
Variable getKlines :
  Env -> string -> string -> Z -> Z -> Z -> Env * Result (list Binance.Kline).
Variable Date_now : Env -> Env * Z.
Variable Math_log : float -> float.

Lemma writeChunk_keeps_transaction cw iw c :
  Db.snapshot (writeChunk cw iw c).1 = Db.snapshot c.
Proof.
  unfold writeChunk. destruct (0 <? _); [|done].
  unfold Db.upsertCandles, Db.upsertIndicators.
  pose proof (run_keeps_transaction (Db.run_batch Db.upsert_candle cw) c) as H1.
  destruct (Db.run _ c) as [c1 [[]|e]]; cbn [fst] in *; [|done].
  by rewrite run_keeps_transaction.
Qed.

(** A dry-run turn of the loop returns the connection as it found it. *)
Lemma ingestStep_dry symbol interval seriesId intervalMs start endClosed
    cursor s env :
  (ingestStep Env getKlines Math_log symbol interval seriesId intervalMs start
     endClosed true cursor (Db.mkConn s None) env).1.1 = Db.mkConn s None.
Proof.
  unfold ingestStep.
  destruct (getKlines _ _ _ _ _ _) as [env1 [klines|e]]; [|done].
  destruct (length klines =? 0)%nat; [done|].
  destruct (Indicators.computeIndicators _ _) as [indAll|e]; [|done].
  rewrite tx_unfold by apply writeChunk_keeps_transaction.
  destruct ((writeChunk _ _ _).2) as [[]|e]; [|done].
  by destruct (0 <? _).
Qed.

Lemma ingestLoop_dry symbol interval seriesId intervalMs start endClosed fuel :
  forall cursor s env conn' env' r,
  ingestLoop Env getKlines Math_log symbol interval seriesId intervalMs start
    endClosed true fuel cursor (Db.mkConn s None) env = Some (conn', env', r) ->
  conn' = Db.mkConn s None.
Proof.
  induction fuel as [|fuel IH]; intros cursor s env conn' env' r H; [done|].
  cbn [ingestLoop] in H.
  destruct (cursor <=? endClosed); [|by inversion H].
  pose proof (ingestStep_dry symbol interval seriesId intervalMs start endClosed
                cursor s env) as Hstep.
  destruct (ingestStep _ _ _ _ _ _ _ _ _ _ _ _ _) as [[conn1 env1] [cursor1|e]];
    cbn [fst] in Hstep; subst conn1.
  - by eapply IH.
  - by inversion H.
Qed.


Lemma forEachSeries_frame perSeries :
  (forall symbol interval s env s' env' r,
     perSeries symbol interval s env = Some (s', env', r) -> same_data s s') ->
  forall pairs s env s' env' r,
    forEachSeries Env perSeries pairs s env = Some (s', env', r) -> same_data s s'.
Proof.
  intros Hper. induction pairs as [|[symbol interval] pairs IH];
    intros s env s' env' r H; cbn [forEachSeries] in H.
  { inversion H; subst. apply same_data_refl. }
  destruct (Utils.INTERVAL_MS interval).
  2:{ inversion H; subst. apply same_data_refl. }
  destruct (perSeries symbol interval s env) as [[[s1 env1] [[]|e]]|] eqn:Hp; [| |done].
  - eapply same_data_trans; [by eapply Hper|by eapply IH].
  - inversion H; subst. by eapply Hper.
Qed.



End DryRun.



Example dry_run_bootstrap_result Math_log :
  Pipeline.bootstrapCommand Market.Env (Market.getKlines (Market.bars 0 3))
    (Market.Date_now 180000) Math_log 10 Market.cfg true Db.empty_store []
  = Some (DryRunSpec.interned "BTCUSDT" "1m" 60000, [(0, 179999)], Ok tt).
Proof. vm_compute. reflexivity. Qed.

(** ** Repair and the known-gap registry (src/repair.ts) *)

Section RegistryIgnored.
Import Db RegistrySpec.

Variable kg : gset (Z * Z * Z).

Local Abbreviation cw := (conn_with_known_gaps kg).

Lemma upsert_candle_blind s r :
  upsert_candle (with_known_gaps kg s) r =
  match upsert_candle s r with
  | Ok s' => Ok (with_known_gaps kg s')
  | Err e => Err e
  end.
Proof.
  unfold upsert_candle. destruct (List.find _ _); [done|]. cbv zeta.
  change (candles (with_known_gaps kg s)) with (candles s).
  destruct (candles s !! _); [done|].
  change (series_exists (series_id r) (with_known_gaps kg s))
    with (series_exists (series_id r) s).
  by destruct (negb _).
Qed.

Lemma upsert_indicator_blind s r :
  upsert_indicator (with_known_gaps kg s) r =
  match upsert_indicator s r with
  | Ok s' => Ok (with_known_gaps kg s')
  | Err e => Err e
  end.
Proof.
  unfold upsert_indicator. cbv zeta.
  change (indicators (with_known_gaps kg s)) with (indicators s).
  destruct (indicators s !! _); [done|].
  change (series_exists (ind_series_id r) (with_known_gaps kg s))
    with (series_exists (ind_series_id r) s).
  by destruct (negb _).
Qed.

Lemma run_batch_blind {R} (stmt : Store -> R -> Result Store) rows :
  (forall s r, stmt (with_known_gaps kg s) r =
               match stmt s r with
               | Ok s' => Ok (with_known_gaps kg s')
               | Err e => Err e
               end) ->
  blind kg (run_batch stmt rows).
Proof.
  intros Hstmt. induction rows as [|r rows IH]; intros s; cbn [run_batch]; [done|].
  rewrite Hstmt. destruct (stmt s r) as [s'|e]; [apply IH|done].
Qed.

Lemma run_blind stmt c :
  blind kg stmt ->
  run stmt (cw c) = (cw (run stmt c).1, (run stmt c).2).
Proof.
  intros Hb. unfold run. cbn [db conn_with_known_gaps]. rewrite Hb.
  by destruct (stmt (db c)).
Qed.

Lemma upsertCandles_blind c rows :
  upsertCandles (cw c) rows = (cw (upsertCandles c rows).1, (upsertCandles c rows).2).
Proof. apply run_blind, run_batch_blind, upsert_candle_blind. Qed.

Lemma upsertIndicators_blind c rows :
  upsertIndicators (cw c) rows =
  (cw (upsertIndicators c rows).1, (upsertIndicators c rows).2).
Proof. apply run_blind, run_batch_blind, upsert_indicator_blind. Qed.

Lemma tx_blind {T} (fn : Conn -> Conn * Result T) dryRun c :
  (forall c, fn (cw c) = (cw (fn c).1, (fn c).2)) ->
  tx fn dryRun (cw c) = (cw (tx fn dryRun c).1, (tx fn dryRun c).2).
Proof.
  intros Hfn. destruct c as [s [snap|]]; [done|].
  unfold tx, exec_begin. cbn [snapshot db conn_with_known_gaps fmap option_fmap option_map].
  change (mkConn (with_known_gaps kg s) (Some (with_known_gaps kg s)))
    with (cw (mkConn s (Some s))).
  rewrite Hfn.
  destruct (fn (mkConn s (Some s))) as [[s2 snap2] [v|e]]; cbn [fst snd].
  - destruct dryRun as [[|]|]; destruct snap2; done.
  - destruct snap2; done.
Qed.

Lemma close_conn_blind c :
  close_conn (cw c) = with_known_gaps kg (close_conn c).
Proof. by destruct c as [s [snap|]]. Qed.

End RegistryIgnored.

Section RepairIgnoresRegistry.
Import Repair RegistrySpec.

Variable Env : Type.
Variable getKlines :
  Env -> string -> string -> Z -> Z -> Z -> Env * Result (list Binance.Kline).
Variable Math_log : float -> float.
Variable kg : gset (Z * Z * Z).

Local Abbreviation cw := (conn_with_known_gaps kg).

Lemma writeGapChunk_blind cws iw c :
  writeGapChunk cws iw (cw c) =
  (cw (writeGapChunk cws iw c).1, (writeGapChunk cws iw c).2).
Proof.
  unfold writeGapChunk.
  destruct (0 <? length cws)%nat.
  - rewrite upsertCandles_blind.
    destruct (Db.upsertCandles c cws) as [c1 [[]|e]]; cbn [fst snd]; [|done].
    destruct (0 <? length iw)%nat; [apply upsertIndicators_blind|done].
  - destruct (0 <? length iw)%nat; [apply upsertIndicators_blind|done].
Qed.

Lemma gapStep_blind meta g to cursor c env :
  gapStep Env getKlines Math_log meta g to cursor (cw c) env =
  in_conn kg (gapStep Env getKlines Math_log meta g to cursor c env).
Proof.
  unfold gapStep, in_conn.
  destruct (getKlines _ _ _ _ _ _) as [env1 [klines|e]]; [|done].
  destruct (length klines =? 0)%nat; [done|].
  destruct (Indicators.computeIndicators _ _) as [ind|e]; [|done].
  destruct (_ || _); [|done].
  rewrite tx_blind by apply writeGapChunk_blind.
  destruct (Db.tx _ _ c) as [c1 [[]|e]]; done.
Qed.

Lemma gapLoop_blind meta g to fuel : forall cursor c env,
  gapLoop Env getKlines Math_log meta g to fuel cursor (cw c) env =
  in_conn kg <$> gapLoop Env getKlines Math_log meta g to fuel cursor c env.
Proof.
  induction fuel as [|fuel IH]; intros cursor c env; cbn [gapLoop]; [done|].
  destruct (cursor <=? to); [|done].
  rewrite gapStep_blind.
  destruct (gapStep _ _ _ _ _ _ _ c env) as [[c1 env1] [cursor1|e]];
    cbn [in_conn fst snd]; [apply IH|done].
Qed.

Lemma repairGaps_blind fuel meta gaps : forall c env,
  repairGaps Env getKlines Math_log fuel meta gaps (cw c) env =
  in_conn kg <$> repairGaps Env getKlines Math_log fuel meta gaps c env.
Proof.
  induction gaps as [|g gaps IH]; intros c env; cbn [repairGaps]; [done|].
  rewrite gapLoop_blind.
  destruct (gapLoop _ _ _ _ _ _ _ _ c env) as [[[c1 env1] [[]|e]]|];
    cbn [fmap option_fmap option_map in_conn fst snd]; [apply IH|done|done].
Qed.

Lemma spanStep_blind meta to cursor c env :
  spanStep Env getKlines Math_log meta to cursor (cw c) env =
  in_conn kg (spanStep Env getKlines Math_log meta to cursor c env).
Proof.
  unfold spanStep, in_conn.
  destruct (getKlines _ _ _ _ _ _) as [env1 [klines|e]]; [|done].
  destruct (length klines =? 0)%nat; [done|].
  destruct (Indicators.computeIndicators _ _) as [ind|e]; [|done].
  destruct (0 <? _)%nat; [|done].
  rewrite tx_blind by (intros; apply upsertIndicators_blind).
  destruct (Db.tx _ _ c) as [c1 [[]|e]]; done.
Qed.

Lemma spanLoop_blind meta to fuel : forall cursor c env,
  spanLoop Env getKlines Math_log meta to fuel cursor (cw c) env =
  in_conn kg <$> spanLoop Env getKlines Math_log meta to fuel cursor c env.
Proof.
  induction fuel as [|fuel IH]; intros cursor c env; cbn [spanLoop]; [done|].
  destruct (cursor <=? to); [|done].
  rewrite spanStep_blind.
  destruct (spanStep _ _ _ _ _ _ c env) as [[c1 env1] [cursor1|e]];
    cbn [in_conn fst snd]; [apply IH|done].
Qed.

Lemma repairNullSpans_blind fuel meta spans : forall c env,
  repairNullSpans Env getKlines Math_log fuel meta spans (cw c) env =
  in_conn kg <$> repairNullSpans Env getKlines Math_log fuel meta spans c env.
Proof.
  induction spans as [|s spans IH]; intros c env; cbn [repairNullSpans]; [done|].
  rewrite spanLoop_blind.
  destruct (spanLoop _ _ _ _ _ _ _ c env) as [[[c1 env1] [[]|e]]|];
    cbn [fmap option_fmap option_map in_conn fst snd]; [apply IH|done|done].
Qed.

Lemma repairSeries_blind fuel meta c env :
  repairSeries Env getKlines Math_log fuel meta (cw c) env =
  in_conn kg <$> repairSeries Env getKlines Math_log fuel meta c env.
Proof.
  unfold repairSeries.
  change (Db.candle_times (Db.db (cw c)) (id meta))
    with (Db.candle_times (Db.db c) (id meta)).
  destruct (Db.candle_times (Db.db c) (id meta)) as [|first times] eqn:Ht; [done|].
  assert (Hgaps :
    (if (0 <? length (findGaps (first :: times) (intervalMs meta)))%nat
     then repairGaps Env getKlines Math_log fuel meta
            (findGaps (first :: times) (intervalMs meta)) (cw c) env
     else Some (cw c, env, Ok tt))
    = in_conn kg <$>
      (if (0 <? length (findGaps (first :: times) (intervalMs meta)))%nat
       then repairGaps Env getKlines Math_log fuel meta
              (findGaps (first :: times) (intervalMs meta)) c env
       else Some (c, env, Ok tt))).
  { destruct (0 <? _)%nat; [apply repairGaps_blind|done]. }
  rewrite Hgaps. clear Hgaps.
  destruct (if (0 <? _)%nat then _ else _) as [[[c1 env1] [[]|e]]|];
    cbn [fmap option_fmap option_map in_conn fst snd]; [|done|done].
  change (Db.db (cw c1)) with (Db.with_known_gaps kg (Db.db c1)).
  change (nullRows (Db.with_known_gaps kg (Db.db c1)))
    with (nullRows (Db.db c1)).
  set (spans := mergeContiguous _ _).
  assert (Hspans :
    (if (0 <? length spans)%nat
     then repairNullSpans Env getKlines Math_log fuel meta spans (cw c1) env1
     else Some (cw c1, env1, Ok tt))
    = in_conn kg <$>
      (if (0 <? length spans)%nat
       then repairNullSpans Env getKlines Math_log fuel meta spans c1 env1
       else Some (c1, env1, Ok tt))).
  { destruct (0 <? _)%nat; [apply repairNullSpans_blind|done]. }
  rewrite Hspans. clear Hspans.
  destruct (if (0 <? _)%nat then _ else _) as [[[c2 env2] [[]|e]]|];
    cbn [fmap option_fmap option_map in_conn fst snd]; done.
Qed.

Lemma repairAll_blind fuel metas : forall c env,
  repairAll Env getKlines Math_log fuel metas (cw c) env =
  in_conn kg <$> repairAll Env getKlines Math_log fuel metas c env.
Proof.
  induction metas as [|m metas IH]; intros c env; cbn [repairAll]; [done|].
  rewrite repairSeries_blind.
  destruct (repairSeries _ _ _ _ _ c env) as [[[c1 env1] [summary|e]]|];
    cbn [fmap option_fmap option_map in_conn fst snd]; [|done|done].
  rewrite IH.
  destruct (repairAll _ _ _ _ _ c1 env1) as [[[c2 env2] [rest|e]]|]; done.
Qed.

Lemma runRepair_blind fuel s env :
  runRepair Env getKlines Math_log fuel (Db.with_known_gaps kg s) env =
    in_store kg <$> runRepair Env getKlines Math_log fuel s env.
Proof.
  unfold runRepair.
  change (Db.openDatabase (Db.with_known_gaps kg s)) with (cw (Db.openDatabase s)).
  change (seriesMetas (Db.db (cw (Db.openDatabase s))))
    with (seriesMetas (Db.db (Db.openDatabase s))).
  rewrite repairAll_blind.
  destruct (repairAll _ _ _ _ _ _ env) as [[[c1 env1] r]|];
    cbn [fmap option_fmap option_map in_conn in_store fst snd]; [|done].
  by rewrite close_conn_blind.
Qed.

End RepairIgnoresRegistry.

(** C1 (amended).  The repair engine never consults the [known_gaps]
    registry: run on two stores that differ in the registry only, it makes
    the same requests, writes the same rows and logs the same summaries, so
    every gap detected from the stored open times (at least one missing bar)
    is re-ingested whether or not a registered window overlaps it; and it
    leaves the registry as it found it. *)
Theorem repair_ignores_known_gaps (Env : Type)
    (getKlines : Env -> string -> string -> Z -> Z -> Z ->
                 Env * Result (list Binance.Kline))
    (Math_log : float -> float) (fuel : nat)
    (kg : gset (Z * Z * Z)) (s : Db.Store) (env : Env) :
  Repair.runRepair Env getKlines Math_log fuel (Db.with_known_gaps kg s) env =
    RegistrySpec.in_store kg <$> Repair.runRepair Env getKlines Math_log fuel s env /\
  (forall s' env' r,
     Repair.runRepair Env getKlines Math_log fuel s env = Some (s', env', r) ->
     Db.known_gaps s' = Db.known_gaps s).
Proof.
  split; [apply runRepair_blind|].
  intros s' env' r Hrun.
  pose proof (runRepair_blind Env getKlines Math_log (Db.known_gaps s) fuel s env) as Hb.
  replace (Db.with_known_gaps (Db.known_gaps s) s) with s in Hb by (by destruct s).
  rewrite Hrun in Hb. cbn in Hb. inversion Hb as [Hs'].
  by rewrite Hs' at 1.
Qed.



(** C1 as stated fails: the gap [60000, 120000] of the stored series is the
    registered known-gap window itself, and repair re-ingests it: the
    missing candle at 60000 is in the store afterwards, whatever the
    platform's logarithm. *)
Lemma repair_reingests_known_gap :
  ~ (exists Math_log,
       forall g, g ∈ Repair.findGaps (Db.candle_times RepairExample.holed 1) 60000 ->
         (exists w, w ∈ Db.known_gaps RepairExample.holed /\
                    RegistrySpec.overlaps 1 g w) ->
         forall s' env' r,
           Repair.runRepair Market.Env (Market.getKlines (Market.bars 0 4))
             Math_log 2000 RepairExample.holed [] = Some (s', env', r) ->
           Db.candles s' !! (1, startMissing g) = None).
Proof.
  intros [Math_log H].
  specialize (H (mkGap 60000 120000 2)).
  assert (Hg : mkGap 60000 120000 2 ∈ Repair.findGaps (Db.candle_times RepairExample.holed 1) 60000).
  { vm_compute. left. }
  assert (Hw : exists w, w ∈ Db.known_gaps RepairExample.holed /\ RegistrySpec.overlaps 1 (mkGap 60000 120000 2) w).
  { exists (1, 60000, 120000). split; [|done].
    replace (Db.known_gaps RepairExample.holed) with ({[ (1, 60000, 120000) ]} : gset (Z*Z*Z)).
    - set_solver.
    - vm_compute. reflexivity. }
  specialize (H Hg Hw).
  destruct (Repair.runRepair _ _ _ _ _ _) as [[[s' env'] r]|] eqn:E.
  - specialize (H s' env' r eq_refl). cbn [startMissing] in H.
    apply (f_equal (fun o => match o with
                             | Some (s, _, _) => Db.open_time <$> Db.candles s !! (1, 60000)
                             | None => None
                             end)) in E.
    cbn beta iota in E. rewrite H in E. vm_compute in E. discriminate.
  - vm_compute in E. discriminate.
Qed.


(** ** Upserts are idempotent (src/db.ts) *)
Section UpsertIdempotent.
Import Db.

Import UpsertSpec.

Context {R V : Type}.
Variable key : R -> Z * Z.
Variable val : R -> V.

Local Abbreviation write_all := (UpsertSpec.write_all key val).

Lemma write_all_snoc m rows r :
  write_all m (rows ++ [r]) = <[key r := val r]> (write_all m rows).
Proof. unfold write_all. by rewrite foldl_app. Qed.

(** A key holds what the last row of the batch with that key wrote, or
    what the table held before. *)
Lemma write_all_lookup rows : forall m k,
  write_all m rows !! k =
  match List.find (fun r => bool_decide (key r = k)) (rev rows) with
  | Some r => Some (val r)
  | None => m !! k
  end.
Proof.
  induction rows as [|r rows IH] using rev_ind; intros m k; [done|].
  rewrite write_all_snoc, rev_app_distr. cbn [rev app List.find].
  case_bool_decide as Hk.
  - subst k. apply lookup_insert_eq.
  - rewrite lookup_insert_ne by done. apply IH.
Qed.

Lemma write_all_idempotent m rows :
  write_all (write_all m rows) rows = write_all m rows.
Proof.
  apply map_eq. intros k. rewrite !write_all_lookup.
  by destruct (List.find _ _).
Qed.

End UpsertIdempotent.

Section UpsertBatches.
Import Db UpsertSpec BatchSpec.

Lemma upsert_candle_result s r :
  upsert_candle s r =
  if candle_ok s r
  then Ok (with_candles (<[candle_key r := stored_candle r]> (candles s)) s)
  else Err (candle_error r).
Proof.
  unfold upsert_candle, candle_ok, candle_error, first_nan, candle_reals,
    candle_columns, candle_key.
  cbn [List.find map existsb fst snd].
  repeat (destruct (Indicators.isNaN _); [reflexivity|]).
  cbn [orb negb andb]. cbv zeta.
  destruct (candles s !! _) as [old|].
  - rewrite bool_decide_eq_true_2 by done. by rewrite orb_true_r.
  - rewrite bool_decide_eq_false_2 by (by intros [? ?]).
    rewrite orb_false_r. by destruct (series_exists _ _).
Qed.

Lemma upsert_indicator_result s r :
  upsert_indicator s r =
  if indicator_ok s r
  then Ok (with_indicators
             (<[indicator_key r := stored_indicator r]> (indicators s)) s)
  else Err (E_sqlite "FOREIGN KEY constraint failed").
Proof.
  unfold upsert_indicator, indicator_ok, indicator_key. cbv zeta.
  destruct (indicators s !! _) as [old|].
  - rewrite bool_decide_eq_true_2 by done. by rewrite orb_true_r.
  - rewrite bool_decide_eq_false_2 by (by intros [? ?]).
    rewrite orb_false_r. by destruct (series_exists _ _).
Qed.

(** Writing an accepted row changes nothing in what the table accepts. *)
Lemma candle_ok_written s r r' :
  candle_ok s r = true ->
  candle_ok (with_candles (<[candle_key r := stored_candle r]> (candles s)) s) r'
  = candle_ok s r'.
Proof.
  unfold candle_ok. intros Hr. apply andb_prop in Hr as [_ Hr].
  f_equal. cbn [candles with_candles].
  change (series_exists (series_id r') (with_candles _ s))
    with (series_exists (series_id r') s).
  destruct (decide (candle_key r' = candle_key r)) as [E|E].
  - rewrite E, lookup_insert_eq.
    rewrite (bool_decide_eq_true_2 (is_Some (Some _))) by done.
    rewrite orb_true_r.
    assert (Hs : series_id r' = series_id r) by (unfold candle_key in E; congruence).
    by rewrite Hs.
  - by rewrite lookup_insert_ne.
Qed.

Lemma indicator_ok_written s r r' :
  indicator_ok s r = true ->
  indicator_ok
    (with_indicators (<[indicator_key r := stored_indicator r]> (indicators s)) s) r'
  = indicator_ok s r'.
Proof.
  unfold indicator_ok. intros Hr. cbn [indicators with_indicators].
  change (series_exists (ind_series_id r') (with_indicators _ s))
    with (series_exists (ind_series_id r') s).
  destruct (decide (indicator_key r' = indicator_key r)) as [E|E].
  - rewrite E, lookup_insert_eq.
    rewrite (bool_decide_eq_true_2 (is_Some (Some _))) by done.
    rewrite orb_true_r.
    assert (Hs : ind_series_id r' = ind_series_id r)
      by (unfold indicator_key in E; congruence).
    by rewrite Hs.
  - by rewrite lookup_insert_ne.
Qed.

Lemma run_batch_candle_result rows : forall s,
  match run_batch upsert_candle rows s with
  | Ok s1 =>
      forallb (candle_ok s) rows = true /\
      s1 = with_candles
             (write_all candle_key stored_candle (candles s) rows) s
  | Err e =>
      exists good r bad,
        rows = good ++ r :: bad /\
        forallb (candle_ok s) good = true /\
        candle_ok s r = false /\
        e = candle_error r
  end.
Proof.
  induction rows as [|r rows IH]; intros s; cbn [run_batch forallb].
  { split; [done|]. by destruct s. }
  rewrite upsert_candle_result.
  destruct (candle_ok s r) eqn:Hr; cbn [andb].
  2:{ by exists [], r, rows. }
  specialize (IH (with_candles (<[candle_key r := stored_candle r]> (candles s)) s)).
  assert (Hok : forall rs,
    forallb (candle_ok (with_candles (<[candle_key r := stored_candle r]> (candles s)) s)) rs
    = forallb (candle_ok s) rs).
  { intros rs. induction rs as [|x rs IHrs]; [done|]. cbn [forallb].
    by rewrite IHrs, candle_ok_written. }
  destruct (run_batch _ _ _) as [s1|e].
  - rewrite Hok in IH. destruct IH as [Hall ->]. split; [done|]. by destruct s.
  - destruct IH as (good & r' & bad & -> & Hgood & Hr' & ->).
    exists (r :: good), r', bad. cbn [forallb app].
    rewrite Hok in Hgood. rewrite candle_ok_written in Hr' by done.
    rewrite Hr, Hgood. done.
Qed.

Lemma run_batch_indicator_result rows : forall s,
  match run_batch upsert_indicator rows s with
  | Ok s1 =>
      forallb (indicator_ok s) rows = true /\
      s1 = with_indicators
             (write_all indicator_key stored_indicator (indicators s) rows) s
  | Err e =>
      forallb (indicator_ok s) rows = false /\
      e = E_sqlite "FOREIGN KEY constraint failed"
  end.
Proof.
  induction rows as [|r rows IH]; intros s; cbn [run_batch forallb].
  { split; [done|]. by destruct s. }
  rewrite upsert_indicator_result.
  destruct (indicator_ok s r) eqn:Hr; cbn [andb]; [|done].
  specialize (IH (with_indicators
                    (<[indicator_key r := stored_indicator r]> (indicators s)) s)).
  assert (Hok : forall rs,
    forallb (indicator_ok
               (with_indicators
                  (<[indicator_key r := stored_indicator r]> (indicators s)) s)) rs
    = forallb (indicator_ok s) rs).
  { intros rs. induction rs as [|x rs IHrs]; [done|]. cbn [forallb].
    by rewrite IHrs, indicator_ok_written. }
  rewrite Hok in IH.
  destruct (run_batch _ _ _) as [s1|e]; [|done].
  destruct IH as [Hall ->]. split; [done|]. by destruct s.
Qed.

(** Every key of the batch is stored once the batch is written. *)
Lemma write_all_stores {R V} (key : R -> Z * Z) (val : R -> V) m rows r :
  r ∈ rows -> is_Some (write_all key val m rows !! key r).
Proof.
  intros Hr. rewrite write_all_lookup.
  destruct (List.find _ _) as [r'|] eqn:E; [done|].
  apply list_elem_of_In, in_rev in Hr.
  pose proof (find_none _ _ E r Hr) as Hn. cbn in Hn.
  by rewrite bool_decide_eq_true_2 in Hn.
Qed.

(** Repeating [upsertCandles] or [upsertIndicators] with the rows that were
    just written leaves the connection as it is. *)
Lemma upsertCandles_idempotent c rows c1 :
  upsertCandles c rows = (c1, Ok tt) -> upsertCandles c1 rows = (c1, Ok tt).
Proof.
  unfold upsertCandles, run.
  pose proof (run_batch_candle_result rows (db c)) as H.
  destruct (run_batch upsert_candle rows (db c)) as [s1|e]; [|done].
  destruct H as [Hall ->].
  intros Heq; inversion Heq; subst c1. cbn [db snapshot].
  set (s1 := with_candles _ (db c)).
  assert (Hall1 : forallb (candle_ok s1) rows = true).
  { apply forallb_forall. intros r Hr.
    pose proof (proj1 (forallb_forall _ _) Hall r Hr) as Hok.
    unfold candle_ok in *. apply andb_prop in Hok as [-> _]. cbn [andb].
    apply orb_true_intro. right. apply bool_decide_eq_true_2.
    subst s1. cbn [candles with_candles].
    by apply write_all_stores, list_elem_of_In. }
  pose proof (run_batch_candle_result rows s1) as H.
  destruct (run_batch upsert_candle rows s1) as [s2|e].
  - destruct H as [_ ->]. subst s1. cbn [candles with_candles].
    rewrite write_all_idempotent. unfold with_candles. cbn. done.
  - destruct H as (good & r & bad & Hrows & _ & Hbad & _). exfalso.
    rewrite Hrows, forallb_app in Hall1. cbn [forallb] in Hall1.
    rewrite Hbad in Hall1. by rewrite andb_false_r in Hall1.
Qed.

Lemma upsertIndicators_idempotent c rows c1 :
  upsertIndicators c rows = (c1, Ok tt) -> upsertIndicators c1 rows = (c1, Ok tt).
Proof.
  unfold upsertIndicators, run.
  pose proof (run_batch_indicator_result rows (db c)) as H.
  destruct (run_batch upsert_indicator rows (db c)) as [s1|e]; [|done].
  destruct H as [Hall ->].
  intros Heq; inversion Heq; subst c1. cbn [db snapshot].
  set (s1 := with_indicators _ (db c)).
  assert (Hall1 : forallb (indicator_ok s1) rows = true).
  { apply forallb_forall. intros r Hr.
    unfold indicator_ok. apply orb_true_intro. right. apply bool_decide_eq_true_2.
    subst s1. cbn [indicators with_indicators].
    by apply write_all_stores, list_elem_of_In. }
  pose proof (run_batch_indicator_result rows s1) as H.
  destruct (run_batch upsert_indicator rows s1) as [s2|e].
  - destruct H as [_ ->]. subst s1. cbn [indicators with_indicators].
    rewrite write_all_idempotent. unfold with_indicators. cbn. done.
  - destruct H as [Hbad _]. congruence.
Qed.

End UpsertBatches.

(** ** The repository's test (tests/indicators.test.ts) *)


(** "indicators compute without throwing and produce expected lengths" *)
Example indicators_test_passes Math_log :
  match Indicators.computeIndicators Math_log IndicatorsTest.series with
  | Ok ind => IndicatorsTest.lengths ind = replicate 10 300%nat
  | Err _ => False
  end.
Proof. vm_compute. reflexivity. Qed.

(** ** Update twice (src/pipeline.ts) *)

(** C4, at an input where the code falls short of it.  On the empty store,
    against an exchange listing 602 one-minute bars and answering the same
    to the same request, a first [update] writes every bar with indicators
    computed from bar 0 on; a second [update] right after starts at
    [max_open_time - 600 bars] with [cursor = start], so its window has no
    overlap before the cursor and it overwrites the indicator row at
    open time 60000, which held values, with a row whose fields are all
    NULL: the store after two runs is not the store after one. *)
Theorem update_twice_rewrites_warm_indicators (Math_log : float -> float) :
  UpdateExample.requested (UpdateExample.twice Math_log)
    = [(0, 36119999); (60000, 36119999)] /\
  UpdateExample.indicator_row_null (1, 60000) (UpdateExample.once Math_log)
    = Some (true, Some false) /\
  UpdateExample.indicator_row_null (1, 60000) (UpdateExample.twice Math_log)
    = Some (true, Some true) /\
  UpdateExample.once Math_log <> UpdateExample.twice Math_log.
Proof.
  assert (H1 : UpdateExample.indicator_row_null (1, 60000) (UpdateExample.once Math_log)
               = Some (true, Some false)) by (vm_compute; reflexivity).
  assert (H2 : UpdateExample.indicator_row_null (1, 60000) (UpdateExample.twice Math_log)
               = Some (true, Some true)) by (vm_compute; reflexivity).
  split; [vm_compute; reflexivity|].
  split; [exact H1|]. split; [exact H2|].
  intros Heq. rewrite Heq in H1. congruence.
Qed.


(** * Further properties of the code *)

(** ** Utilities (src/utils.ts) *)

(** X1.  For a positive interval, [floorToInterval(ms, intervalMs)] returns
    the greatest multiple [f] of [intervalMs] that is at most [ms], so that
    [f <= ms < f + intervalMs], and flooring [f] again returns [f]; for an
    interval that is zero or negative it throws the error
    [intervalMs must be positive]. *)
Theorem floorToInterval_greatest_multiple (ms intervalMs : Z) :
  if 0 <? intervalMs then
    exists f, Utils.floorToInterval ms intervalMs = Ok f /\
              (intervalMs | f) /\ f <= ms < f + intervalMs /\
              Utils.floorToInterval f intervalMs = Ok f
  else Utils.floorToInterval ms intervalMs = Err (E_error "intervalMs must be positive").
Proof.
  unfold Utils.floorToInterval.
  destruct (0 <? intervalMs) eqn:Hpos.
  - apply Z.ltb_lt in Hpos.
    destruct (intervalMs <=? 0) eqn:Hle; [lia|].
    eexists. split; [reflexivity|].
    pose proof (Z.mul_div_le ms intervalMs Hpos).
    pose proof (Z.mul_succ_div_gt ms intervalMs Hpos).
    repeat split; try lia.
    + by exists (ms / intervalMs).
    + by rewrite Z.div_mul by lia.
  - apply Z.ltb_ge in Hpos.
    destruct (intervalMs <=? 0) eqn:Hle; [done|lia].
Qed.

Section Clamp.
Local Open Scope Q_scope.

(** X2.  For bounds [lo <= hi], [clamp(n, lo, hi)] lies in [[lo, hi]]: it is
    [n] when [n] is inside the bounds, [lo] when [n] is below, [hi] when
    [n] is above; and clamping the result again changes nothing. *)
Theorem clamp_into_range (n lo hi : Q) :
  lo <= hi ->
  lo <= Utils.clamp n lo hi <= hi /\
  (lo <= n <= hi -> Utils.clamp n lo hi = n) /\
  (n < lo -> Utils.clamp n lo hi = lo) /\
  (hi < n -> Utils.clamp n lo hi = hi) /\
  Utils.clamp (Utils.clamp n lo hi) lo hi = Utils.clamp n lo hi.
Proof.
  intros Hb. unfold Utils.clamp.
  destruct (Utils.Qltb n lo) eqn:E1.
  { apply Qltb_lt in E1.
    split; [lra|]. split; [intros; exfalso; lra|]. split; [done|].
    split; [intros; exfalso; lra|].
    destruct (Utils.Qltb lo lo) eqn:E3; [done|].
    destruct (Utils.Qltb hi lo) eqn:E4; [|done].
    apply Qltb_lt in E4. exfalso; lra. }
  apply Qltb_ge in E1.
  destruct (Utils.Qltb hi n) eqn:E2.
  { apply Qltb_lt in E2.
    split; [lra|]. split; [intros; exfalso; lra|].
    split; [intros; exfalso; lra|]. split; [done|].
    destruct (Utils.Qltb hi lo) eqn:E3; [apply Qltb_lt in E3; exfalso; lra|].
    destruct (Utils.Qltb hi hi) eqn:E4; [|done].
    apply Qltb_lt in E4. exfalso; lra. }
  apply Qltb_ge in E2.
  split; [lra|]. split; [done|].
  split; [intros; exfalso; lra|]. split; [intros; exfalso; lra|].
  by rewrite (proj2 (Qltb_ge n lo) E1), (proj2 (Qltb_ge hi n) E2).
Qed.

End Clamp.

Lemma clamp_into_range_witness :
  (Utils.clamp 70000 500 60000 = 60000 /\ Utils.clamp 100 500 60000 = 500)%Q.
Proof.
  assert (H : (500 <= 60000)%Q) by discriminate.
  split.
  - apply (proj1 (proj2 (proj2 (proj2 (clamp_into_range 70000 500 60000 H))))).
    reflexivity.
  - apply (proj1 (proj2 (proj2 (clamp_into_range 100 500 60000 H)))).
    reflexivity.
Defined.

(** ** [symbol.replace(/USDT$/, "")] (src/pipeline.ts) *)

Lemma substring_whole (t : string) : String.substring 0 (String.length t) t = t.
Proof. induction t as [|a t IH]; simpl; [done|f_equal; exact IH]. Qed.

Lemma substring_append_l (s t : string) :
  String.substring 0 (String.length s) (s +:+ t) = s.
Proof.
  induction s as [|a s IH]; simpl.
  - by destruct t.
  - f_equal. exact IH.
Qed.

Lemma substring_append_r (s t : string) :
  String.substring (String.length s) (String.length t) (s +:+ t) = t.
Proof.
  induction s as [|a s IH]; simpl; [apply substring_whole|exact IH].
Qed.

Lemma length_append (s t : string) :
  String.length (s +:+ t) = (String.length s + String.length t)%nat.
Proof. induction s as [|a s IH]; simpl; [done|f_equal; exact IH]. Qed.

(** X3.  The base asset that [bootstrapSeries] and [updateSeries] derive with
    [symbol.replace(/USDT$/, ...)]: from a symbol [base + USDT] the
    replacement returns [base] (the empty string for the symbol USDT
    itself), and a symbol shorter than four characters is returned as it
    is. *)
Theorem strip_USDT_suffix (base : string) :
  Pipeline.strip_USDT (base +:+ "USDT") = base /\
  (forall symbol, (String.length symbol < 4)%nat ->
     Pipeline.strip_USDT symbol = symbol).
Proof.
  split.
  - unfold Pipeline.strip_USDT. cbv zeta. rewrite length_append.
    change (String.length "USDT") with 4%nat.
    replace (String.length base + 4 - 4)%nat with (String.length base) by lia.
    pose proof (substring_append_r base "USDT") as Hr.
    change (String.length "USDT") with 4%nat in Hr.
    rewrite Hr, substring_append_l.
    destruct (4 <=? String.length base + 4)%nat eqn:H; [done|].
    apply Nat.leb_gt in H. lia.
  - intros symbol Hlen. unfold Pipeline.strip_USDT.
    destruct (4 <=? String.length symbol)%nat eqn:H; [|done].
    apply Nat.leb_le in H. lia.
Qed.


(** ** Warm-up of the indicator kernels (src/indicators.ts) *)

Section Warmup.
Import Indicators WarmupSpec.

Lemma ema_loop_length values period k fuel : forall i sum out,
  length (ema_loop values period k fuel i sum out) = length out.
Proof.
  induction fuel as [|fuel IH]; intros i sum out; cbn [ema_loop]; [done|].
  destruct (Z.of_nat i <? period).
  - rewrite IH. destruct (Z.of_nat i =? period - 1); [apply length_insert|done].
  - rewrite IH. apply length_insert.
Qed.

Lemma ema_loop_below values period k fuel : forall i sum out (j : nat),
  (j < i)%nat -> ema_loop values period k fuel i sum out !! j = out !! j.
Proof.
  induction fuel as [|fuel IH]; intros i sum out j Hj; cbn [ema_loop]; [done|].
  destruct (Z.of_nat i <? period).
  - rewrite IH by lia.
    destruct (Z.of_nat i =? period - 1); [|done].
    apply list_lookup_insert_ne; lia.
  - rewrite IH by lia. apply list_lookup_insert_ne; lia.
Qed.

Lemma ema_loop_from values period k fuel : forall i sum out (j : nat),
  (i <= j < i + fuel)%nat -> (j < length out)%nat ->
  if Z.of_nat j <? period - 1
  then ema_loop values period k fuel i sum out !! j = out !! j
  else exists v, ema_loop values period k fuel i sum out !! j = Some (Some v).
Proof.
  induction fuel as [|fuel IH]; intros i sum out j Hj Hlen; [lia|].
  cbn [ema_loop].
  destruct (decide (j = i)) as [->|Hne].
  - destruct (Z.of_nat i <? period) eqn:Hp.
    + rewrite ema_loop_below by lia.
      destruct (Z.of_nat i =? period - 1) eqn:He.
      * apply Z.eqb_eq in He.
        destruct (Z.of_nat i <? period - 1) eqn:Hw; [apply Z.ltb_lt in Hw; lia|].
        eexists. by apply list_lookup_insert_eq.
      * apply Z.eqb_neq in He. apply Z.ltb_lt in Hp.
        destruct (Z.of_nat i <? period - 1) eqn:Hw; [done|].
        apply Z.ltb_ge in Hw. lia.
    + rewrite ema_loop_below by lia. apply Z.ltb_ge in Hp.
      destruct (Z.of_nat i <? period - 1) eqn:Hw; [apply Z.ltb_lt in Hw; lia|].
      eexists. by apply list_lookup_insert_eq.
  - assert (Hgen : forall s o, length o = length out -> o !! j = out !! j ->
      if Z.of_nat j <? period - 1
      then ema_loop values period k fuel (S i) s o !! j = out !! j
      else exists v, ema_loop values period k fuel (S i) s o !! j = Some (Some v)).
    { intros s o Hl Ho. specialize (IH (S i) s o j ltac:(lia) ltac:(lia)).
      destruct (Z.of_nat j <? period - 1); [by rewrite IH|done]. }
    destruct (Z.of_nat i <? period); [destruct (Z.of_nat i =? period - 1)|];
      apply Hgen; first [apply length_insert | apply list_lookup_insert_ne; lia | done].
Qed.

Lemma ema_warm (values : list float) (period : Z) (alphaOverride : option float) :
  0 < period ->
  exists out, ema values period alphaOverride = Ok out /\
              warm_from (period - 1) (length values) out.
Proof.
  intros Hpos. unfold ema. destruct (period <=? 0) eqn:Hle; [lia|].
  eexists. split; [reflexivity|]. split.
  - by unfold nulls; rewrite ema_loop_length, length_replicate.
  - intros j Hj.
    pose proof (ema_loop_from values period
                  (match alphaOverride with
                   | Some a => a
                   | None => (2 / (Z2F period + 1))%float
                   end) (length values) 0 0%float (nulls (length values)) j
                  ltac:(lia) ltac:(unfold nulls; rewrite length_replicate; lia)) as H.
    destruct (Z.of_nat j <? period - 1); [|done].
    rewrite H. unfold nulls. by apply lookup_replicate_2.
Qed.

(** X4.  For a positive period, [ema] returns a vector as long as its input
    that is null exactly at the indices below [period - 1] and holds a number
    at every index from there on, for every input and every [alphaOverride];
    for a period that is zero or negative it throws [period must be > 0]. *)
Theorem ema_warm_up (values : list float) (period : Z) (alphaOverride : option float) :
  if 0 <? period then
    exists out, ema values period alphaOverride = Ok out /\
                warm_from (period - 1) (length values) out
  else ema values period alphaOverride = Err (E_error "period must be > 0").
Proof.
  destruct (0 <? period) eqn:Hpos.
  - apply ema_warm. lia.
  - unfold ema. destruct (period <=? 0) eqn:Hle; [done|lia].
Qed.

Lemma sma_loop_length values period fuel : forall i sum out,
  length (sma_loop values period fuel i sum out) = length out.
Proof.
  induction fuel as [|fuel IH]; intros i sum out; cbn [sma_loop]; [done|].
  rewrite IH. destruct (Z.of_nat i >=? period - 1); [apply length_insert|done].
Qed.

Lemma sma_loop_below values period fuel : forall i sum out (j : nat),
  (j < i)%nat -> sma_loop values period fuel i sum out !! j = out !! j.
Proof.
  induction fuel as [|fuel IH]; intros i sum out j Hj; cbn [sma_loop]; [done|].
  rewrite IH by lia.
  destruct (Z.of_nat i >=? period - 1); [|done].
  apply list_lookup_insert_ne; lia.
Qed.

Lemma sma_loop_from values period fuel : forall i sum out (j : nat),
  (i <= j < i + fuel)%nat -> (j < length out)%nat ->
  if Z.of_nat j <? period - 1
  then sma_loop values period fuel i sum out !! j = out !! j
  else exists v, sma_loop values period fuel i sum out !! j = Some (Some v).
Proof.
  induction fuel as [|fuel IH]; intros i sum out j Hj Hlen; [lia|].
  cbn [sma_loop].
  destruct (decide (j = i)) as [->|Hne].
  - rewrite sma_loop_below by lia.
    destruct (Z.of_nat i >=? period - 1) eqn:Hw.
    + apply Z.geb_le in Hw.
      destruct (Z.of_nat i <? period - 1) eqn:Hw'; [apply Z.ltb_lt in Hw'; lia|].
      eexists. by apply list_lookup_insert_eq.
    + destruct (Z.of_nat i <? period - 1) eqn:Hw'; [done|].
      apply Z.ltb_ge in Hw'. rewrite Z.geb_leb in Hw. apply Z.leb_gt in Hw. lia.
  - assert (Hgen : forall s o, length o = length out -> o !! j = out !! j ->
      if Z.of_nat j <? period - 1
      then sma_loop values period fuel (S i) s o !! j = out !! j
      else exists v, sma_loop values period fuel (S i) s o !! j = Some (Some v)).
    { intros s o Hl Ho. specialize (IH (S i) s o j ltac:(lia) ltac:(lia)).
      destruct (Z.of_nat j <? period - 1); [by rewrite IH|done]. }
    destruct (Z.of_nat i >=? period - 1);
      apply Hgen; first [apply length_insert | apply list_lookup_insert_ne; lia | done].
Qed.

Lemma sma_warm (values : list float) (period : Z) :
  warm_from (period - 1) (length values) (sma values period).
Proof.
  unfold sma. split.
  - by unfold nulls; rewrite sma_loop_length, length_replicate.
  - intros j Hj.
    pose proof (sma_loop_from values period (length values) 0 0%float
                  (nulls (length values)) j
                  ltac:(lia) ltac:(unfold nulls; rewrite length_replicate; lia)) as H.
    destruct (Z.of_nat j <? period - 1); [|done].
    rewrite H. unfold nulls. by apply lookup_replicate_2.
Qed.

Lemma atr_tr_length high low close fuel : forall i tr,
  length (atr_tr high low close fuel i tr) = length tr.
Proof.
  induction fuel as [|fuel IH]; intros i tr; cbn [atr_tr]; [done|].
  by rewrite IH, length_insert.
Qed.

Lemma atr_loop_length tr period fuel : forall i sum out,
  length (atr_loop tr period fuel i sum out) = length out.
Proof.
  induction fuel as [|fuel IH]; intros i sum out; cbn [atr_loop]; [done|].
  destruct (Z.of_nat i <? period).
  - rewrite IH. destruct (Z.of_nat i =? period - 1); [apply length_insert|done].
  - rewrite IH. apply length_insert.
Qed.

Lemma atr_loop_below tr period fuel : forall i sum out (j : nat),
  (j < i)%nat -> atr_loop tr period fuel i sum out !! j = out !! j.
Proof.
  induction fuel as [|fuel IH]; intros i sum out j Hj; cbn [atr_loop]; [done|].
  destruct (Z.of_nat i <? period).
  - rewrite IH by lia.
    destruct (Z.of_nat i =? period - 1); [|done].
    apply list_lookup_insert_ne; lia.
  - rewrite IH by lia. apply list_lookup_insert_ne; lia.
Qed.

Lemma atr_loop_from tr period fuel : forall i sum out (j : nat),
  (i <= j < i + fuel)%nat -> (j < length out)%nat ->
  if Z.of_nat j <? period - 1
  then atr_loop tr period fuel i sum out !! j = out !! j
  else exists v, atr_loop tr period fuel i sum out !! j = Some (Some v).
Proof.
  induction fuel as [|fuel IH]; intros i sum out j Hj Hlen; [lia|].
  cbn [atr_loop].
  destruct (decide (j = i)) as [->|Hne].
  - destruct (Z.of_nat i <? period) eqn:Hp.
    + rewrite atr_loop_below by lia.
      destruct (Z.of_nat i =? period - 1) eqn:He.
      * apply Z.eqb_eq in He.
        destruct (Z.of_nat i <? period - 1) eqn:Hw; [apply Z.ltb_lt in Hw; lia|].
        eexists. by apply list_lookup_insert_eq.
      * apply Z.eqb_neq in He. apply Z.ltb_lt in Hp.
        destruct (Z.of_nat i <? period - 1) eqn:Hw; [done|].
        apply Z.ltb_ge in Hw. lia.
    + rewrite atr_loop_below by lia. apply Z.ltb_ge in Hp.
      destruct (Z.of_nat i <? period - 1) eqn:Hw; [apply Z.ltb_lt in Hw; lia|].
      eexists. by apply list_lookup_insert_eq.
  - assert (Hgen : forall s o, length o = length out -> o !! j = out !! j ->
      if Z.of_nat j <? period - 1
      then atr_loop tr period fuel (S i) s o !! j = out !! j
      else exists v, atr_loop tr period fuel (S i) s o !! j = Some (Some v)).
    { intros s o Hl Ho. specialize (IH (S i) s o j ltac:(lia) ltac:(lia)).
      destruct (Z.of_nat j <? period - 1); [by rewrite IH|done]. }
    destruct (Z.of_nat i <? period); [destruct (Z.of_nat i =? period - 1)|];
      apply Hgen; first [apply length_insert | apply list_lookup_insert_ne; lia | done].
Qed.

Lemma atrWilder_warm (high low close : list float) (period : Z) :
  warm_from (period - 1) (length close) (atrWilder high low close period).
Proof.
  unfold atrWilder. cbv zeta. unfold zeros, nulls. split.
  - by rewrite atr_loop_length, length_replicate.
  - intros j Hj.
    match goal with
    | |- context [atr_loop ?tr period ?f 0 ?s ?o] =>
        pose proof (atr_loop_from tr period f 0 s o j) as H;
        assert (Hf : f = length close)
          by (subst; rewrite atr_tr_length; apply length_replicate)
    end.
    rewrite length_replicate in H.
    specialize (H ltac:(lia) ltac:(lia)).
    destruct (Z.of_nat j <? period - 1); [|done].
    rewrite H. by apply lookup_replicate_2.
Qed.

Lemma rsi_smooth_from close period fuel : forall k ag al out (j : nat),
  (k <= j < k + fuel)%nat -> (j < length out)%nat ->
  exists v, rsi_smooth close period fuel k ag al out !! j = Some (Some v).
Proof.
  induction fuel as [|fuel IH]; intros k ag al out j Hj Hlen; [lia|].
  cbn [rsi_smooth]. cbv zeta.
  destruct (decide (j = k)) as [->|Hne].
  - rewrite rsi_smooth_below by lia. eexists. by apply list_lookup_insert_eq.
  - apply IH; [lia|]. rewrite length_insert; lia.
Qed.

Lemma rsi_loop_from close period fuel : forall i prev gs ls out (j : nat),
  (0 < i)%nat -> Z.of_nat i <= period <= Z.of_nat j ->
  (Z.to_nat period < i + fuel)%nat ->
  length out = length close -> (j < length close)%nat ->
  exists v, rsi_loop close period fuel i (Some prev) gs ls out !! j = Some (Some v).
Proof.
  induction fuel as [|fuel IH]; intros i prev gs ls out j Hi Hp Hf Hlen Hj; [lia|].
  cbn [rsi_loop]. cbv zeta.
  destruct (Z.of_nat i <=? period) eqn:Hle; [|apply Z.leb_gt in Hle; lia].
  destruct (Z.of_nat i =? period) eqn:Heq.
  - apply Z.eqb_eq in Heq. destruct (decide (j = i)) as [->|Hne].
    + rewrite rsi_smooth_below by lia. eexists. apply list_lookup_insert_eq; lia.
    + apply rsi_smooth_from; [lia|]. rewrite length_insert; lia.
  - apply Z.eqb_neq in Heq. apply IH; lia.
Qed.

Lemma rsi_loop_idle close period fuel : forall i prev gs ls out,
  period < Z.of_nat i -> rsi_loop close period fuel i prev gs ls out = out.
Proof.
  induction fuel as [|fuel IH]; intros i prev gs ls out Hi; cbn [rsi_loop]; [done|].
  destruct prev as [prev|]; [|apply IH; lia]. cbv zeta.
  destruct (Z.of_nat i <=? period) eqn:Hle; [apply Z.leb_le in Hle; lia|].
  apply IH; lia.
Qed.

Lemma rsiWilder_warm (close : list float) (period : Z) :
  0 < period -> warm_from period (length close) (rsiWilder close period).
Proof.
  intros Hpos. unfold rsiWilder. split.
  - unfold nulls. by rewrite rsi_loop_length, length_replicate.
  - intros j Hj. destruct (Z.of_nat j <? period) eqn:Hw.
    + apply Z.ltb_lt in Hw. rewrite rsi_loop_below by done.
      unfold nulls. by apply lookup_replicate_2.
    + apply Z.ltb_ge in Hw.
      destruct (length close) as [|n] eqn:Hl; [lia|].
      cbn [rsi_loop]. cbv zeta.
      apply rsi_loop_from; try lia.
      unfold nulls. by rewrite length_replicate.
Qed.

(** X6.  For a positive period, [rsiWilder] returns a vector as long as
    [close] that is null exactly at the indices below [period]: every index
    from [period] on holds a number.  For a period that is zero or negative
    it does not throw and never emits: every entry is null. *)
Theorem rsiWilder_warm_up (close : list float) (period : Z) :
  if 0 <? period then warm_from period (length close) (rsiWilder close period)
  else rsiWilder close period = nulls (length close).
Proof.
  destruct (0 <? period) eqn:Hpos.
  - apply rsiWilder_warm. lia.
  - apply Z.ltb_ge in Hpos. unfold rsiWilder. destruct close as [|c0 rest]; [done|].
    cbn [length rsi_loop]. apply rsi_loop_idle. lia.
Qed.

(** *** adxWilder *)

Lemma adx_dx_loop_length m period fuel : forall i s dx,
  length (adx_dx_loop m period fuel i s dx) = length dx.
Proof.
  induction fuel as [|fuel IH]; intros i s dx; cbn [adx_dx_loop]; [done|].
  cbv zeta. by rewrite IH, length_insert.
Qed.

Lemma adx_dx_loop_below m period fuel : forall i s dx (j : nat),
  (j < i)%nat -> adx_dx_loop m period fuel i s dx !! j = dx !! j.
Proof.
  induction fuel as [|fuel IH]; intros i s dx j Hj; cbn [adx_dx_loop]; [done|].
  cbv zeta. rewrite IH by lia. apply list_lookup_insert_ne; lia.
Qed.

Lemma adx_dx_loop_from m period fuel : forall i s dx (j : nat),
  (i <= j < i + fuel)%nat -> (j < length dx)%nat ->
  exists v, adx_dx_loop m period fuel i s dx !! j = Some (Some v).
Proof.
  induction fuel as [|fuel IH]; intros i s dx j Hj Hlen; [lia|].
  cbn [adx_dx_loop]. cbv zeta.
  destruct (decide (j = i)) as [->|Hne].
  - rewrite adx_dx_loop_below by lia. eexists. by apply list_lookup_insert_eq.
  - apply IH; [lia|]. rewrite length_insert; lia.
Qed.

Section Adx.

Variable dx : list (option float).
Variable period : Z.
Variable len : nat.
Hypothesis Hdx : warm_from period len dx.

Lemma adx_first_spec fuel : forall i sum count adx,
  (i + fuel = len)%nat -> count = Z.max 0 (Z.of_nat i - period) ->
  Z.of_nat i < 2 * period ->
  if 2 * period - 1 <? Z.of_nat len
  then exists v, adx_first dx period fuel i sum count adx
                 = <[Z.to_nat (2 * period - 1) := Some v]> adx
  else adx_first dx period fuel i sum count adx = adx.
Proof.
  induction fuel as [|fuel IH]; intros i sum count adx Hf Hc Hi.
  - cbn [adx_first].
    destruct (2 * period - 1 <? Z.of_nat len) eqn:Hl; [apply Z.ltb_lt in Hl; lia|done].
  - cbn [adx_first].
    destruct Hdx as [_ Hat]. specialize (Hat i ltac:(lia)).
    destruct (Z.of_nat i <? period) eqn:Hw.
    + apply Z.ltb_lt in Hw. rewrite Hat. apply IH; lia.
    + apply Z.ltb_ge in Hw. destruct Hat as [v ->]. cbv zeta.
      destruct (count + 1 =? period) eqn:He.
      * apply Z.eqb_eq in He.
        destruct (2 * period - 1 <? Z.of_nat len) eqn:Hl; [|apply Z.ltb_ge in Hl; lia].
        eexists. f_equal. lia.
      * apply Z.eqb_neq in He. apply IH; lia.
Qed.

Lemma adx_smooth_length fuel : forall i adx,
  length (adx_smooth dx period fuel i adx) = length adx.
Proof.
  induction fuel as [|fuel IH]; intros i adx; cbn [adx_smooth]; [done|].
  cbv zeta. destruct (dx !! i) as [[v|]|]; rewrite IH; try apply length_insert; done.
Qed.

Lemma adx_smooth_below fuel : forall i adx (j : nat),
  (j < i)%nat -> adx_smooth dx period fuel i adx !! j = adx !! j.
Proof.
  induction fuel as [|fuel IH]; intros i adx j Hj; cbn [adx_smooth]; [done|].
  cbv zeta. destruct (dx !! i) as [[v|]|]; rewrite IH by lia;
    try (apply list_lookup_insert_ne; lia); done.
Qed.

Lemma adx_smooth_from fuel : forall i adx (j : nat),
  (i <= j < i + fuel)%nat -> (j < length adx)%nat -> (j < len)%nat ->
  if Z.of_nat j <? period
  then adx_smooth dx period fuel i adx !! j = adx !! j
  else exists v, adx_smooth dx period fuel i adx !! j = Some (Some v).
Proof.
  induction fuel as [|fuel IH]; intros i adx j Hj Hlen Hjl; [lia|].
  cbn [adx_smooth]. cbv zeta.
  destruct Hdx as [_ Hat]. specialize (Hat i ltac:(lia)).
  destruct (decide (j = i)) as [->|Hne].
  - destruct (Z.of_nat i <? period).
    + rewrite Hat. by rewrite adx_smooth_below by lia.
    + destruct Hat as [v ->]. rewrite adx_smooth_below by lia.
      eexists. by apply list_lookup_insert_eq.
  - assert (Hgen : forall a, length a = length adx -> a !! j = adx !! j ->
      if Z.of_nat j <? period
      then adx_smooth dx period fuel (S i) a !! j = adx !! j
      else exists v, adx_smooth dx period fuel (S i) a !! j = Some (Some v)).
    { intros a Hl Ha. specialize (IH (S i) a j ltac:(lia) ltac:(lia) Hjl).
      destruct (Z.of_nat j <? period); [by rewrite IH|done]. }
    destruct (Z.of_nat i <? period).
    + rewrite Hat. by apply Hgen.
    + destruct Hat as [v ->].
      apply Hgen; [apply length_insert | apply list_lookup_insert_ne; lia].
Qed.

End Adx.

Lemma findIndex_nonnull_nulls (n : nat) : forall i,
  findIndex_nonnull (replicate n None) i = -1.
Proof. induction n as [|n IH]; intros i; cbn; [done|apply IH]. Qed.

Lemma findIndex_nonnull_insert (n : nat) : forall (k i : nat) (v : float),
  (k < n)%nat ->
  findIndex_nonnull (<[k := Some v]> (replicate n None)) i = Z.of_nat (i + k).
Proof.
  induction n as [|n IH]; intros k i v Hk; [lia|].
  destruct k as [|k]; cbn.
  - f_equal. lia.
  - rewrite IH by lia. lia.
Qed.

Lemma adxWilder_warm (high low close : list float) (period : Z) :
  0 < period ->
  warm_from (if 2 * period - 1 <? Z.of_nat (length close) then 2 * period - 1 else period)
    (length close) (adxWilder high low close period).
Proof.
  intros Hp. unfold adxWilder. cbv zeta.
  set (len := length close).
  set (m := adx_moves _ _ _ _ _ _).
  set (s := adx_seed_sums _ _ _ _).
  set (dx := adx_dx_loop _ _ _ _ _ _).
  assert (Hdx : warm_from period len dx).
  { subst dx. split.
    - rewrite adx_dx_loop_length, length_insert. apply length_replicate.
    - intros j Hj. destruct (Z.of_nat j <? period) eqn:Hw.
      + apply Z.ltb_lt in Hw. rewrite adx_dx_loop_below by lia.
        rewrite list_lookup_insert_ne by lia. by apply lookup_replicate_2.
      + apply Z.ltb_ge in Hw. destruct (decide (j = Z.to_nat period)) as [->|Hne].
        * rewrite adx_dx_loop_below by lia. eexists.
          apply list_lookup_insert_eq. unfold nulls. rewrite length_replicate. lia.
        * apply adx_dx_loop_from; [lia|].
          rewrite length_insert. unfold nulls. rewrite length_replicate. lia. }
  pose proof (adx_first_spec dx period len Hdx len 0 0%float 0 (nulls len)
                ltac:(lia) ltac:(lia) ltac:(lia)) as Hfirst.
  destruct (2 * period - 1 <? Z.of_nat len) eqn:Hl.
  - apply Z.ltb_lt in Hl. destruct Hfirst as [v ->].
    assert (Hfi : findIndex_nonnull (<[Z.to_nat (2 * period - 1) := Some v]> (nulls len)) 0
                  = Z.of_nat (0 + Z.to_nat (2 * period - 1)))
      by (apply findIndex_nonnull_insert; lia).
    rewrite Hfi.
    split.
    + rewrite adx_smooth_length, length_insert. apply length_replicate.
    + intros j Hj. destruct (Z.of_nat j <? 2 * period - 1) eqn:Hw.
      * apply Z.ltb_lt in Hw. rewrite adx_smooth_below by lia.
        rewrite list_lookup_insert_ne by lia. by apply lookup_replicate_2.
      * apply Z.ltb_ge in Hw.
        destruct (decide (j = Z.to_nat (2 * period - 1))) as [->|Hne].
        -- rewrite adx_smooth_below by lia. eexists.
           apply list_lookup_insert_eq. unfold nulls. rewrite length_replicate. lia.
        -- pose proof (adx_smooth_from dx period len Hdx
                         (len - Z.to_nat (Z.of_nat (0 + Z.to_nat (2 * period - 1)) + 1))
                         (Z.to_nat (Z.of_nat (0 + Z.to_nat (2 * period - 1)) + 1))
                         (<[Z.to_nat (2 * period - 1) := Some v]> (nulls len)) j
                         ltac:(lia)
                         ltac:(rewrite length_insert; unfold nulls;
                               rewrite length_replicate; lia) Hj) as H.
           destruct (Z.of_nat j <? period) eqn:Hjp; [apply Z.ltb_lt in Hjp; lia|exact H].
  - apply Z.ltb_ge in Hl. rewrite Hfirst.
    assert (Hfi : findIndex_nonnull (nulls len) 0 = -1)
      by apply findIndex_nonnull_nulls.
    rewrite Hfi.
    split.
    + rewrite adx_smooth_length. apply length_replicate.
    + intros j Hj.
      pose proof (adx_smooth_from dx period len Hdx (len - Z.to_nat (-1 + 1))
                    (Z.to_nat (-1 + 1)) (nulls len) j
                    ltac:(cbn; lia)
                    ltac:(unfold nulls; rewrite length_replicate; lia) Hj) as H.
      destruct (Z.of_nat j <? period); [|done].
      rewrite H. by apply lookup_replicate_2.
Qed.

(** *** stddev, macd and the Bollinger bands *)

Lemma warm_from_nulls_below (warm : Z) (n : nat) (out : list (option float)) (j : nat) :
  warm_from warm n out -> (j < n)%nat -> Z.of_nat j < warm -> out !! j = Some None.
Proof.
  intros [_ H] Hj Hw. specialize (H j Hj).
  destruct (Z.of_nat j <? warm) eqn:E; [done|apply Z.ltb_ge in E; lia].
Qed.

Lemma warm_from_value_from (warm : Z) (n : nat) (out : list (option float)) (j : nat) :
  warm_from warm n out -> (j < n)%nat -> warm <= Z.of_nat j ->
  exists v, out !! j = Some (Some v).
Proof.
  intros [_ H] Hj Hw. specialize (H j Hj).
  destruct (Z.of_nat j <? warm) eqn:E; [apply Z.ltb_lt in E; lia|done].
Qed.

Lemma both_warm op (a b : list (option float)) (wa wb : Z) (n : nat) :
  warm_from wa n a -> warm_from wb n b ->
  warm_from (Z.max wa wb) n (both op a b).
Proof.
  intros Ha Hb. split.
  - unfold both. rewrite length_zip_with.
    destruct Ha as [-> _], Hb as [-> _]. lia.
  - intros j Hj. unfold both. rewrite lookup_zip_with.
    destruct (Z.of_nat j <? Z.max wa wb) eqn:E.
    + apply Z.ltb_lt in E. destruct (Z.lt_ge_cases (Z.of_nat j) wa) as [Hwa|Hwa].
      * rewrite (warm_from_nulls_below wa n a j Ha Hj Hwa).
        destruct (lookup_lt_is_Some_2 b j) as [y ->]; [destruct Hb as [-> _]; lia|].
        done.
      * destruct (warm_from_value_from wa n a j Ha Hj Hwa) as [x ->].
        rewrite (warm_from_nulls_below wb n b j Hb Hj) by lia. done.
    + apply Z.ltb_ge in E.
      destruct (warm_from_value_from wa n a j Ha Hj ltac:(lia)) as [x ->].
      destruct (warm_from_value_from wb n b j Hb Hj ltac:(lia)) as [y ->].
      by eexists.
Qed.

Lemma stddev_loop_length values period ma fuel : forall i out,
  length (stddev_loop values period ma fuel i out) = length out.
Proof.
  induction fuel as [|fuel IH]; intros i out; cbn [stddev_loop]; [done|].
  destruct (ma !! i) as [[v|]|]; rewrite IH; try apply length_insert; done.
Qed.

Lemma stddev_loop_below values period ma fuel : forall i out (j : nat),
  (j < i)%nat -> stddev_loop values period ma fuel i out !! j = out !! j.
Proof.
  induction fuel as [|fuel IH]; intros i out j Hj; cbn [stddev_loop]; [done|].
  destruct (ma !! i) as [[v|]|]; rewrite IH by lia;
    try (apply list_lookup_insert_ne; lia); done.
Qed.

Lemma stddev_loop_from values period ma fuel : forall i out (j : nat),
  (i <= j < i + fuel)%nat -> (j < length out)%nat ->
  (forall k : nat, (i <= k)%nat -> (k < length out)%nat -> exists m, ma !! k = Some (Some m)) ->
  exists v, stddev_loop values period ma fuel i out !! j = Some (Some v).
Proof.
  induction fuel as [|fuel IH]; intros i out j Hj Hlen Hma; [lia|].
  cbn [stddev_loop].
  destruct (Hma i ltac:(lia) ltac:(lia)) as [m ->].
  destruct (decide (j = i)) as [->|Hne].
  - rewrite stddev_loop_below by lia. eexists. by apply list_lookup_insert_eq.
  - apply IH; [lia | rewrite length_insert; lia |].
    intros k Hk Hkl. rewrite length_insert in Hkl. apply Hma; lia.
Qed.

Lemma stddev_warm (values : list float) (period : Z) (ma : list (option float)) :
  warm_from (period - 1) (length values) ma ->
  warm_from (period - 1) (length values) (stddev values period ma).
Proof.
  intros Hma. unfold stddev. cbv zeta. unfold nulls. split.
  - by rewrite stddev_loop_length, length_replicate.
  - intros j Hj. destruct (Z.of_nat j <? period - 1) eqn:Hw.
    + apply Z.ltb_lt in Hw. rewrite stddev_loop_below by lia.
      by apply lookup_replicate_2.
    + apply Z.ltb_ge in Hw. apply stddev_loop_from.
      * lia.
      * rewrite length_replicate; lia.
      * intros k Hk Hkl. rewrite length_replicate in Hkl.
        apply (warm_from_value_from (period - 1) (length values)); [done|lia|lia].
Qed.

Lemma macd_warm (close : list float) (fast slow signal : Z) :
  0 < fast -> 0 < slow -> 0 < signal ->
  exists m, macd close fast slow signal = Ok m /\
    warm_from (Z.max (fast - 1) (slow - 1)) (length close) (macd_line m) /\
    warm_from (signal - 1) (length close) (macd_signal_line m) /\
    warm_from (Z.max (Z.max (fast - 1) (slow - 1)) (signal - 1)) (length close)
      (macd_hist_line m).
Proof.
  intros Hf Hs Hg. unfold macd.
  destruct (ema_warm close fast None Hf) as (ef & -> & Hwf). cbn [mbind Result_bind].
  destruct (ema_warm close slow None Hs) as (es & -> & Hws). cbn [mbind Result_bind].
  pose proof (both_warm PrimFloat.sub ef es _ _ _ Hwf Hws) as Hline.
  match goal with
  | |- context [ema ?vs signal None] =>
      destruct (ema_warm vs signal None Hg) as (eg & -> & Hwg)
  end.
  cbn [mbind Result_bind].
  rewrite length_map in Hwg. destruct Hline as [Hll Hline].
  rewrite Hll in Hwg.
  eexists. split; [reflexivity|]. cbn [macd_line macd_signal_line macd_hist_line].
  split; [by split|]. split; [done|].
  by apply both_warm.
Qed.

(** *** The return vectors *)

Section Returns.

Variable Math_log : float -> float.

Lemma returns_loop_length close fuel : forall i pct logr,
  length (returns_loop Math_log close fuel i pct logr).1 = length pct /\
  length (returns_loop Math_log close fuel i pct logr).2 = length logr.
Proof.
  induction fuel as [|fuel IH]; intros i pct logr; cbn [returns_loop]; [done|].
  cbv zeta. destruct (IH (S i) (<[i := pct_at close i]> pct)
                       (<[i := log_at Math_log close i]> logr)) as [H1 H2].
  unfold pct_at, log_at in *. rewrite H1, H2, !length_insert. done.
Qed.

Lemma returns_loop_below close fuel : forall i pct logr (j : nat),
  (j < i)%nat ->
  (returns_loop Math_log close fuel i pct logr).1 !! j = pct !! j /\
  (returns_loop Math_log close fuel i pct logr).2 !! j = logr !! j.
Proof.
  induction fuel as [|fuel IH]; intros i pct logr j Hj; cbn [returns_loop]; [done|].
  cbv zeta. destruct (IH (S i) (<[i := pct_at close i]> pct)
                       (<[i := log_at Math_log close i]> logr) j ltac:(lia)) as [H1 H2].
  unfold pct_at, log_at in *. rewrite H1, H2.
  split; apply list_lookup_insert_ne; lia.
Qed.

Lemma returns_loop_from close fuel : forall i pct logr (j : nat),
  (i <= j < i + fuel)%nat -> (j < length pct)%nat -> (j < length logr)%nat ->
  (returns_loop Math_log close fuel i pct logr).1 !! j = Some (pct_at close j) /\
  (returns_loop Math_log close fuel i pct logr).2 !! j = Some (log_at Math_log close j).
Proof.
  induction fuel as [|fuel IH]; intros i pct logr j Hj Hp Hl; [lia|].
  cbn [returns_loop]. cbv zeta.
  destruct (decide (j = i)) as [->|Hne].
  - destruct (returns_loop_below close fuel (S i) (<[i := pct_at close i]> pct)
                (<[i := log_at Math_log close i]> logr) i ltac:(lia)) as [H1 H2].
    unfold pct_at, log_at in *. rewrite H1, H2.
    split; by apply list_lookup_insert_eq.
  - destruct (IH (S i) (<[i := pct_at close i]> pct)
                (<[i := log_at Math_log close i]> logr) j ltac:(lia)
                ltac:(rewrite length_insert; lia)
                ltac:(rewrite length_insert; lia)) as [H1 H2].
    unfold pct_at, log_at in *. by rewrite H1, H2.
Qed.

(** What [computeIndicators] returns, vector by vector. *)
Lemma computeIndicators_vectors (series : list OHLCV) :
  exists ind, computeIndicators Math_log series = Ok ind /\
    let n := length series in
    warm_from 49 n (ema50 ind) /\ warm_from 199 n (ema200 ind) /\
    warm_from 14 n (rsi14 ind) /\ warm_from 13 n (atr14 ind) /\
    warm_from (if 27 <? Z.of_nat n then 27 else 14) n (adx14 ind) /\
    warm_from 19 n (vol_ma20 ind) /\
    warm_from 25 n (macd_ ind) /\ warm_from 8 n (macd_signal ind) /\
    warm_from 25 n (macd_hist ind) /\
    warm_from 19 n (bb_sma20 ind) /\ warm_from 19 n (bb_upper ind) /\
    warm_from 19 n (bb_lower ind) /\
    (length (pct_return_1 ind) = n /\ length (log_return_1 ind) = n) /\
    forall j : nat, (j < n)%nat ->
      pct_return_1 ind !! j
        = Some (match j with O => None | S _ => pct_at (map close series) j end) /\
      log_return_1 ind !! j
        = Some (match j with O => None | S _ => log_at Math_log (map close series) j end).
Proof.
  unfold computeIndicators. cbv zeta.
  set (cl := map close series).
  assert (Hn : length cl = length series) by apply length_map.
  destruct (ema_warm cl 50 None ltac:(lia)) as (e50 & -> & H50).
  destruct (ema_warm cl 200 None ltac:(lia)) as (e200 & -> & H200).
  cbn [mbind Result_bind].
  destruct (macd_warm cl 12 26 9 ltac:(lia) ltac:(lia) ltac:(lia))
    as (m & -> & Hm1 & Hm2 & Hm3).
  cbn [mbind Result_bind].
  pose proof (returns_loop_length cl (length cl - 1) 1 (nulls (length cl))
                (nulls (length cl))) as [Hlp Hll].
  pose proof (returns_loop_below cl (length cl - 1) 1 (nulls (length cl))
                (nulls (length cl)) 0 ltac:(lia)) as [Hzp Hzl].
  pose proof (returns_loop_from cl (length cl - 1) 1 (nulls (length cl))
                (nulls (length cl))) as Hfrom.
  destruct (returns_loop Math_log cl (length cl - 1) 1 (nulls (length cl))
              (nulls (length cl))) as [pct logr].
  cbn [fst snd] in *. unfold nulls in Hlp, Hll, Hzp, Hzl, Hfrom.
  rewrite length_replicate in Hlp, Hll, Hfrom.
  eexists. split; [reflexivity|].
  cbn [ema50 ema200 rsi14 atr14 adx14 vol_ma20 macd_ macd_signal macd_hist
       bb_sma20 bb_upper bb_lower pct_return_1 log_return_1].
  rewrite <- Hn.
  pose proof (sma_warm cl 20) as Hmid.
  pose proof (stddev_warm cl 20 _ Hmid) as Hstd.
  change (20 - 1) with 19 in Hmid, Hstd.
  repeat match goal with |- _ /\ _ => split end.
  - exact H50.
  - exact H200.
  - apply rsiWilder_warm. lia.
  - apply (atrWilder_warm _ _ cl 14).
  - apply (adxWilder_warm _ _ cl 14). lia.
  - pose proof (sma_warm (map volume series) 20) as Hv.
    rewrite length_map in Hv. by rewrite Hn.
  - exact Hm1.
  - exact Hm2.
  - exact Hm3.
  - exact Hmid.
  - apply (both_warm _ _ _ 19 19 _ Hmid Hstd).
  - apply (both_warm _ _ _ 19 19 _ Hmid Hstd).
  - exact Hlp.
  - exact Hll.
  - intros j Hj. destruct j as [|j]; [|apply Hfrom; lia].
    rewrite Hzp, Hzl. split; apply lookup_replicate_2; lia.
Qed.

End Returns.

(** X5.  For every period, [sma], [stddev] taken over that [sma], and
    [atrWilder] return a vector as long as their input ([atrWilder]: as
    [close], whatever the lengths of [high] and [low]) that is null exactly
    at the indices below [period - 1].  None of them throws: for a period
    that is zero or negative no index is null. *)
Theorem moving_averages_warm_up (values high low close : list float) (period : Z) :
  warm_from (period - 1) (length values) (sma values period) /\
  warm_from (period - 1) (length values) (stddev values period (sma values period)) /\
  warm_from (period - 1) (length close) (atrWilder high low close period).
Proof.
  split; [apply sma_warm|]. split; [apply stddev_warm, sma_warm|apply atrWilder_warm].
Qed.

(** X7.  For a positive period, [adxWilder] returns a vector as long as
    [close], and the index of its first value depends on that length.  With
    at least [2 * period] bars the first ADX is at index [2 * period - 1] (the
    mean of the first [period] values of DX) and every index below is null.
    With fewer bars no first ADX is stored, [findIndex] returns [-1], the
    smoothing loop starts at index 0 reading the null before it as 0, and
    values appear from index [period] on.  So for a period above 1 the
    entry at index [period] is null on a long series and a number on a
    series of more than [period] and fewer than [2 * period] bars. *)
Theorem adxWilder_warm_up (high low close : list float) (period : Z) :
  0 < period ->
  warm_from (if 2 * period - 1 <? Z.of_nat (length close) then 2 * period - 1 else period)
    (length close) (adxWilder high low close period) /\
  (1 < period -> 2 * period <= Z.of_nat (length close) ->
   adxWilder high low close period !! Z.to_nat period = Some None) /\
  (period < Z.of_nat (length close) < 2 * period ->
   exists v, adxWilder high low close period !! Z.to_nat period = Some (Some v)).
Proof.
  intros Hp. pose proof (adxWilder_warm high low close period Hp) as H.
  split; [exact H|]. split; [intros Hp1 Hlen|intros Hlen].
  - destruct (2 * period - 1 <? Z.of_nat (length close)) eqn:E;
      [|apply Z.ltb_ge in E; lia].
    apply (warm_from_nulls_below _ _ _ _ H); lia.
  - destruct (2 * period - 1 <? Z.of_nat (length close)) eqn:E;
      [apply Z.ltb_lt in E; lia|].
    apply (warm_from_value_from _ _ _ _ H); lia.
Qed.

(** X8.  For positive [fast], [slow] and [signal], [macd] returns three vectors
    as long as [close]: the MACD line is null exactly below
    [max(fast, slow) - 1]; the signal line is null exactly below [signal - 1],
    because its EMA runs over the MACD line with every null replaced by 0, so
    it holds numbers where the MACD line has none; the histogram is null
    exactly below the larger of the two.  When one of the three periods is
    zero or negative, [macd] throws [period must be > 0]. *)
Theorem macd_warm_up (close : list float) (fast slow signal : Z) :
  if (0 <? fast) && (0 <? slow) && (0 <? signal) then
    exists m, macd close fast slow signal = Ok m /\
      warm_from (Z.max (fast - 1) (slow - 1)) (length close) (macd_line m) /\
      warm_from (signal - 1) (length close) (macd_signal_line m) /\
      warm_from (Z.max (Z.max (fast - 1) (slow - 1)) (signal - 1)) (length close)
        (macd_hist_line m)
  else macd close fast slow signal = Err (E_error "period must be > 0").
Proof.
  assert (Hthrow : forall vs p o, p <= 0 ->
            ema vs p o = Err (E_error "period must be > 0")).
  { intros vs p o Hp. unfold ema. destruct (p <=? 0) eqn:E; [done|lia]. }
  destruct (0 <? fast) eqn:Hf; cbn [andb].
  2:{ apply Z.ltb_ge in Hf. unfold macd. by rewrite (Hthrow close fast None Hf). }
  apply Z.ltb_lt in Hf.
  destruct (0 <? slow) eqn:Hs; cbn [andb].
  2:{ apply Z.ltb_ge in Hs. unfold macd.
      destruct (ema_warm close fast None Hf) as (ef & -> & _).
      cbn [mbind Result_bind]. by rewrite (Hthrow close slow None Hs). }
  apply Z.ltb_lt in Hs.
  destruct (0 <? signal) eqn:Hg.
  2:{ apply Z.ltb_ge in Hg. unfold macd.
      destruct (ema_warm close fast None Hf) as (ef & -> & _).
      destruct (ema_warm close slow None Hs) as (es & -> & _).
      cbn [mbind Result_bind]. by rewrite (Hthrow _ signal None Hg). }
  apply Z.ltb_lt in Hg. by apply macd_warm.
Qed.

(** X9.  [computeIndicators] never throws.  On a series of [n] bars each of
    its vectors has length [n] (the test of the repository checks this for
    one series of 300 bars), and each is null exactly below its warm-up index:
    49 for [ema50], 199 for [ema200], 14 for [rsi14], 13 for [atr14], 19 for
    [vol_ma20] and the three Bollinger vectors, 25 for [macd] and [macd_hist],
    8 for [macd_signal], and for [adx14] 27 when the series has at least 28
    bars and 14 when it is shorter. *)
Theorem computeIndicators_warm_up (Math_log : float -> float) (series : list OHLCV) :
  exists ind, computeIndicators Math_log series = Ok ind /\
    let n := length series in
    warm_from 49 n (ema50 ind) /\ warm_from 199 n (ema200 ind) /\
    warm_from 14 n (rsi14 ind) /\ warm_from 13 n (atr14 ind) /\
    warm_from (if 27 <? Z.of_nat n then 27 else 14) n (adx14 ind) /\
    warm_from 19 n (vol_ma20 ind) /\
    warm_from 25 n (macd_ ind) /\ warm_from 8 n (macd_signal ind) /\
    warm_from 25 n (macd_hist ind) /\
    warm_from 19 n (bb_sma20 ind) /\ warm_from 19 n (bb_upper ind) /\
    warm_from 19 n (bb_lower ind) /\
    length (pct_return_1 ind) = n /\ length (log_return_1 ind) = n.
Proof.
  destruct (computeIndicators_vectors Math_log series)
    as (ind & Hok & H1 & H2 & H3 & H4 & H5 & H6 & H7 & H8 & H9 & H10 & H11 & H12
        & [Hp Hl] & _).
  exists ind. split; [exact Hok|]. cbv zeta. tauto.
Qed.

(** X10.  The two return vectors of [computeIndicators]: index 0 is null; at
    an index [j >= 1] both are null exactly when [close[j-1] === 0], and
    otherwise hold [close[j] / close[j-1] - 1] and
    [Math.log(close[j] / close[j-1])]; the two vectors are null at the same
    indices. *)
Theorem computeIndicators_returns (Math_log : float -> float) (series : list OHLCV) :
  exists ind, computeIndicators Math_log series = Ok ind /\
    forall j : nat, (j < length series)%nat ->
      pct_return_1 ind !! j
        = Some (match j with O => None | S _ => pct_at (map close series) j end) /\
      log_return_1 ind !! j
        = Some (match j with
                | O => None
                | S _ => log_at Math_log (map close series) j
                end) /\
      (pct_return_1 ind !! j = Some None <-> log_return_1 ind !! j = Some None).
Proof.
  destruct (computeIndicators_vectors Math_log series) as (ind & Hok & H).
  exists ind. split; [exact Hok|]. intros j Hj.
  destruct H as (_ & _ & _ & _ & _ & _ & _ & _ & _ & _ & _ & _ & _ & H).
  destruct (H j Hj) as [Hp Hl]. split; [exact Hp|]. split; [exact Hl|].
  rewrite Hp, Hl. destruct j as [|j]; [done|].
  unfold pct_at, log_at. destruct (_ =? _)%float; split; intros; done.
Qed.

End Warmup.

(** X11.  For every series that is not empty, the indicator row built from
    index 0 of [computeIndicators] is stored with all fourteen indicator
    columns NULL: the first bar of every fetched window gets no indicator
    value at all. *)
Theorem first_indicator_row_all_null (Math_log : float -> float)
    (bar : Indicators.OHLCV) (rest : list Indicators.OHLCV) (seriesId openTime : Z) :
  exists ind, Indicators.computeIndicators Math_log (bar :: rest) = Ok ind /\
    Repair.all_null (Db.stored_indicator (Pipeline.indicatorRow seriesId openTime ind 0))
      = true.
Proof.
  destruct (computeIndicators_vectors Math_log (bar :: rest))
    as (ind & Hok & H1 & H2 & H3 & H4 & H5 & H6 & H7 & H8 & H9 & H10 & H11 & H12
        & _ & Hr).
  exists ind. split; [exact Hok|].
  assert (Hz : forall w out, WarmupSpec.warm_from w (length (bar :: rest)) out -> 0 < w ->
                 Indicators.at_index out 0 = None).
  { intros w out Hw Hpos. unfold Indicators.at_index.
    rewrite (warm_from_nulls_below w _ out 0 Hw); [done|cbn; lia|lia]. }
  destruct (Hr 0%nat ltac:(cbn; lia)) as [Hp Hl].
  unfold Pipeline.indicatorRow, Db.stored_indicator, Repair.all_null.
  cbn [Db.ema50 Db.ema200 Db.rsi14 Db.atr14 Db.adx14 Db.vol_ma20 Db.macd
       Db.macd_signal Db.macd_hist Db.bb_sma20 Db.bb_upper Db.bb_lower
       Db.pct_return_1 Db.log_return_1].
  rewrite (Hz _ _ H1), (Hz _ _ H2), (Hz _ _ H3), (Hz _ _ H4), (Hz _ _ H6),
    (Hz _ _ H7), (Hz _ _ H8), (Hz _ _ H9), (Hz _ _ H10), (Hz _ _ H11),
    (Hz _ _ H12) by lia.
  rewrite (Hz _ _ H5) by (destruct (27 <? _); lia).
  unfold Indicators.at_index. rewrite Hp, Hl. reflexivity.
Qed.

Lemma adxWilder_warm_up_witness :
  exists v,
    Indicators.adxWilder [3; 4; 5; 6]%float [1; 2; 3; 4]%float [2; 3; 4; 5]%float 3
      !! 3%nat = Some (Some v).
Proof.
  refine (proj2 (proj2 (adxWilder_warm_up [3; 4; 5; 6]%float [1; 2; 3; 4]%float
                          [2; 3; 4; 5]%float 3 _)) _).
  - lia.
  - cbn. lia.
Defined.


(** ** Requests, admission and waits (src/binance.ts) *)

Section RetryBound.
Import Binance RetryBudget.

Lemma doReq_sleeps_once r a : (length (doReq r a).2 <= 1)%nat.
Proof.
  unfold doReq. destruct (reply a) as [reason|resp]; [cbn; lia|].
  destruct (status resp =? 418); [cbn; lia|].
  destruct (status resp =? 429); [cbn; lia|].
  destruct (negb (ok resp)); cbn; lia.
Qed.

(** X12.  The retry loop of [getKlines], entered with [attempt = a], issues at
    least one request and at most [max(1, maxRetries - a + 1)]; an error
    leaves the loop only after exactly that many requests, a success ends it
    earlier; the loop sleeps fewer than two times per request; and the call
    is still in flight after the answers listed only when the world has
    given fewer answers than that budget. *)
Theorem retryLoop_request_budget (r : RetryConfig) (req : Request) (attempt : Z)
    (env : list (Request -> Attempt)) :
  match retryLoop r req attempt env with
  | Some run =>
      (1 <= requests run <= length env)%nat /\
      Z.of_nat (requests run) <= budget r attempt /\
      (is_ok (outcome run) = false -> Z.of_nat (requests run) = budget r attempt) /\
      (length (sleeps run) < 2 * requests run)%nat
  | None => Z.of_nat (length env) < budget r attempt
  end.
Proof.
  revert attempt. induction env as [|w env IH]; intros attempt.
  - cbn. unfold budget. lia.
  - cbn [retryLoop]. cbv zeta.
    pose proof (doReq_sleeps_once r (w req)) as Hs.
    destruct (doReq r (w req)) as [res slept]. cbn [snd] in Hs.
    destruct res as [klines|err].
    + cbn. unfold budget. repeat split; first [lia | done].
    + destruct (attempt + 1 >? maxRetries r) eqn:Hgt.
      * apply Z.gtb_lt in Hgt. cbn. unfold budget. repeat split; lia.
      * rewrite Z.gtb_ltb in Hgt. apply Z.ltb_ge in Hgt.
        specialize (IH (attempt + 1)). unfold budget in *.
        destruct (retryLoop r req (attempt + 1) env) as [run|].
        -- destruct IH as (Hreq & Hb & Herr & Hsl). cbn.
           rewrite length_app. cbn [length].
           repeat split; try lia. intros Hf. specialize (Herr Hf). lia.
        -- cbn [length]. lia.
Qed.

End RetryBound.

Section Starvation.
Import Binance.
Local Open Scope Q_scope.

Lemma refill_le_capacity now b :
  tokens b <= capacity b ->
  tokens (refill now b) <= capacity (refill now b) /\
  capacity (refill now b) = capacity b.
Proof.
  intros H. unfold refill. cbv zeta.
  destruct (now - lastRefill b <=? 0)%Z; [done|]. cbn.
  split; [apply Q.le_min_l|done].
Qed.

Lemma take_starved clock : forall b,
  capacity b < 1 -> tokens b <= capacity b -> take clock b = None.
Proof.
  induction clock as [|now clock IH]; intros b Hc Ht; [done|].
  cbn [take]. unfold takeIter. cbv zeta.
  destruct (refill_le_capacity now b Ht) as [Ht' Hc'].
  destruct (Qle_bool 1 (tokens (refill now b))) eqn:E.
  - apply Qle_bool_iff in E. rewrite Hc' in Ht'. lra.
  - apply IH; [by rewrite Hc'|done].
Qed.

(** X13.  A client whose rate limit has [maxConcurrent <= 0] or
    [requestsPerMinute < 1] never issues a request: the gate of the scheduler
    never opens, respectively the bucket never holds a whole token, so
    [getKlines] does not return, whatever the clock shows and whatever the
    exchange would answer. *)
Theorem getKlines_never_admitted (cfg : RateLimitConfig) (timeoutMs now : Z)
    (req : Request) (clock : list Z) (env : list (Request -> Attempt)) :
  (maxConcurrent cfg <= 0)%Z \/ requestsPerMinute cfg < 1 ->
  getKlines (newBinanceClient cfg timeoutMs now) req clock env = None.
Proof.
  intros H. unfold getKlines, schedule, newBinanceClient, newRequestScheduler.
  cbn [scheduler active sched_maxConcurrent bucket client_retry].
  destruct (0 >=? maxConcurrent cfg)%Z eqn:Hg; [done|].
  destruct H as [H|H].
  - rewrite Z.geb_leb in Hg. apply Z.leb_gt in Hg. lia.
  - rewrite take_starved; [done|exact H|]. cbn. lra.
Qed.

(** X14.  With [requestsPerMinute >= 1] and a bucket within its invariant,
    [take()] returns at the first reading [now] of the clock with
    [(now - lastRefill) * requestsPerMinute >= 60000], that is one token
    period after the last refill at the latest, however few tokens the bucket
    held; it removes one token from the refilled bucket and keeps the
    invariant. *)
Theorem take_admits_within_a_token_period (tpm : Q) (b : TokenBucket) (now : Z)
    (clock : list Z) :
  1 <= tpm -> BucketSpec.bucket_inv tpm b ->
  60000 <= inject_Z (now - lastRefill b) * tpm ->
  exists b', take (now :: clock) b = Some (b', clock) /\
             tokens b' == tokens (refill now b) - 1 /\
             BucketSpec.bucket_inv tpm b'.
Proof.
  intros Htpm Hb Hwait.
  assert (Hnn : 0 <= tpm) by lra.
  pose proof (takeIter_inv tpm Hnn now b Hb) as Hinv.
  destruct Hb as (Hc & Hr & H0 & H1).
  assert (Hd : (0 < now - lastRefill b)%Z).
  { destruct (Z.lt_ge_cases 0 (now - lastRefill b)) as [Hlt|Hge]; [done|].
    exfalso. assert (inject_Z (now - lastRefill b) <= 0).
    { change 0 with (inject_Z 0). rewrite <- Zle_Qle. lia. }
    nra. }
  cbn [take]. unfold takeIter in *. cbv zeta in *.
  assert (Hfull : 1 <= tokens (refill now b)).
  { unfold refill. cbv zeta.
    destruct (now - lastRefill b <=? 0)%Z eqn:E; [apply Z.leb_le in E; lia|].
    cbn. apply Q.min_glb; [rewrite Hc; lra|].
    rewrite Hr.
    assert (1 <= inject_Z (now - lastRefill b) * (tpm / 60000)).
    { assert (Hq : inject_Z (now - lastRefill b) * (tpm / 60000)
                   == inject_Z (now - lastRefill b) * tpm / 60000) by field.
      rewrite Hq. apply Qle_shift_div_l; [reflexivity|]. lra. }
    lra. }
  apply Qle_bool_iff in Hfull. rewrite Hfull in *. cbn in Hinv.
  eexists. split; [reflexivity|]. split; [reflexivity|exact Hinv].
Qed.

(** X15.  With [baseMs <= maxMs] and a numeric [Retry-After] header of [ra]
    seconds, [backoffWaitMs] returns [clamp(ra * 1000, baseMs, maxMs)]
    whatever the attempt number and the random draw: [ra * 1000] when that is
    within the bounds, [baseMs] when the server asks for less, and [maxMs]
    when the server asks for more, so a [Retry-After] beyond [maxMs] is cut
    short. *)
Theorem backoffWaitMs_honours_retry_after (r : RetryConfig) (ra : Q)
    (attempt attempt' : Z) (rnd rnd' : Q) :
  baseMs r <= maxMs r ->
  backoffWaitMs r attempt (RA_seconds ra) rnd
    = backoffWaitMs r attempt' (RA_seconds ra) rnd' /\
  baseMs r <= backoffWaitMs r attempt (RA_seconds ra) rnd <= maxMs r /\
  (baseMs r <= ra * 1000 <= maxMs r ->
   backoffWaitMs r attempt (RA_seconds ra) rnd = ra * 1000) /\
  (maxMs r < ra * 1000 -> backoffWaitMs r attempt (RA_seconds ra) rnd = maxMs r) /\
  (ra * 1000 < baseMs r -> backoffWaitMs r attempt (RA_seconds ra) rnd = baseMs r).
Proof.
  intros Hb. cbn [backoffWaitMs]. split; [reflexivity|].
  split; [by apply clamp_bounds|].
  unfold Utils.clamp.
  destruct (Utils.Qltb (ra * 1000) (baseMs r)) eqn:E1.
  - apply Qltb_lt in E1. repeat split; try done; intros; exfalso; lra.
  - apply Qltb_ge in E1.
    destruct (Utils.Qltb (maxMs r) (ra * 1000)) eqn:E2.
    + apply Qltb_lt in E2. repeat split; try done; intros; exfalso; lra.
    + apply Qltb_ge in E2. repeat split; try done; intros; exfalso; lra.
Qed.

End Starvation.

Lemma getKlines_never_admitted_witness :
  Binance.getKlines
    (Binance.newBinanceClient (Binance.mkRateLimit 600 0 RetryExample.cfg) 5000 0)
    RetryExample.req [0; 100; 200] [RetryExample.good] = None.
Proof.
  apply getKlines_never_admitted. left. cbn. lia.
Defined.

Lemma take_admits_within_a_token_period_witness :
  exists b', Binance.take [1000; 1100] (Binance.mkBucket 60 0 (60 / 60000) 0)
             = Some (b', [1100]).
Proof.
  destruct (take_admits_within_a_token_period 60 (Binance.mkBucket 60 0 (60 / 60000) 0)
              1000 [1100]) as (b' & H & _).
  - discriminate.
  - unfold BucketSpec.bucket_inv. cbn. repeat split; discriminate.
  - vm_compute. discriminate.
  - by exists b'.
Defined.

Lemma backoffWaitMs_honours_retry_after_witness :
  Binance.backoffWaitMs RetryExample.cfg 0 (Binance.RA_seconds 120) 0 = 60000%Q.
Proof.
  refine (proj1 (proj2 (proj2 (proj2
            (backoffWaitMs_honours_retry_after RetryExample.cfg 120 0 0 0 0 _)))) _).
  - discriminate.
  - reflexivity.
Defined.


(** ** Gaps and spans (src/verify.ts, src/repair.ts) *)

Lemma findGaps_from_step_zero rest : forall prev,
  Repair.findGaps_from 0 prev rest = Verify.findGaps_from 0 prev rest /\
  Forall (fun g => missingBars g = Infinity) (Verify.findGaps_from 0 prev rest).
Proof.
  induction rest as [|next rest IH]; intros prev; [by split|].
  cbn [Repair.findGaps_from Verify.findGaps_from].
  destruct (IH next) as [IHr IHv].
  destruct (next - prev >? 0); [|done].
  cbn [missing_between Z.eqb Count_geb]. rewrite IHr.
  split; [done|]. by constructor.
Qed.

Lemma findGaps_from_finite step rest : forall prev,
  step <> 0 ->
  Forall (fun g =>
            missingBars g
            = Finite ((endMissing g - startMissing g + 2 * step) / step - 1))
    (Verify.findGaps_from step prev rest).
Proof.
  induction rest as [|next rest IH]; intros prev Hstep; [constructor|].
  cbn [Verify.findGaps_from].
  destruct (next - prev >? step); [|by apply IH].
  constructor; [|by apply IH].
  cbn [missingBars startMissing endMissing]. unfold missing_between.
  destruct (step =? 0) eqn:E; [lia|].
  by replace (next - step - (prev + step) + 2 * step) with (next - prev) by lia.
Qed.

(** X16.  For every list of times and every step, sorted or not, the copy of
    [findGaps] in repair.ts reports exactly those gaps of the copy in
    verify.ts that have [missingBars >= MIN_GAP_BARS_TO_REPAIR], in the same
    order.  For a step other than 0 every [missingBars] is the whole number
    [floor((next - prev) / step) - 1].  With the step 0 it is [Infinity]:
    both copies then report the same gaps, one for every pair of times that
    rises. *)
Theorem repair_findGaps_filters_verify (times : list Z) (step : Z) :
  Repair.findGaps times step
    = List.filter
        (fun g => Count_geb (missingBars g) Repair.MIN_GAP_BARS_TO_REPAIR)
        (Verify.findGaps times step) /\
  (step <> 0 ->
   Forall (fun g =>
             missingBars g
             = Finite ((endMissing g - startMissing g + 2 * step) / step - 1))
     (Verify.findGaps times step)) /\
  Repair.findGaps times 0 = Verify.findGaps times 0 /\
  Forall (fun g => missingBars g = Infinity) (Verify.findGaps times 0) /\
  (forall prev next, prev < next ->
     Repair.findGaps [prev; next] 0 = [mkGap prev next Infinity]).
Proof.
  split; [|split; [|split; [|split]]].
  - destruct times as [|t0 rest]; [done|].
    unfold Repair.findGaps, Verify.findGaps. revert t0.
    induction rest as [|next rest IH]; intros prev; [done|].
    cbn [Repair.findGaps_from Verify.findGaps_from].
    destruct (next - prev >? step); [|apply IH].
    cbn [List.filter missingBars].
    destruct (Count_geb (missing_between (next - prev) step)
                Repair.MIN_GAP_BARS_TO_REPAIR);
      by rewrite IH.
  - intros Hstep. destruct times as [|t0 rest]; [constructor|].
    by apply findGaps_from_finite.
  - destruct times as [|t0 rest]; [done|]. apply findGaps_from_step_zero.
  - destruct times as [|t0 rest]; [constructor|]. apply findGaps_from_step_zero.
  - intros prev next Hlt. cbn.
    destruct (next - prev >? 0) eqn:E; [|lia].
    do 2 f_equal; lia.
Qed.

Section GapAccounting.

Variable ms : Z.
Hypothesis ms_pos : 0 < ms.

Lemma findGaps_from_accounts rest : forall prev lst,
  Sorted Z.lt (prev :: rest) -> (ms | prev) -> Forall (fun t => (ms | t)) rest ->
  last (prev :: rest) = Some lst ->
  exists k m,
    lst - prev = k * ms /\
    SpanSpec.missing (Verify.findGaps_from ms prev rest) = Finite m /\
    m + Z.of_nat (length rest) = k /\
    0 <= m /\
    (Verify.findGaps_from ms prev rest = [] <-> m = 0).
Proof using ms_pos.
  induction rest as [|next rest IH]; intros prev lst Hs Hp Hr Hl.
  - cbn in Hl. inversion Hl; subst. exists 0, 0. cbn. repeat split; lia.
  - apply Forall_cons in Hr as [Hn Hr].
    apply Sorted_inv in Hs as [Hs Hd]. apply HdRel_inv in Hd.
    change (last (prev :: next :: rest)) with (last (next :: rest)) in Hl.
    destruct (IH next lst Hs Hn Hr Hl) as (k & m & Hk & Hm & Hlen & Hm0 & Hnil).
    destruct Hp as [a ->], Hn as [b ->].
    cbn [Verify.findGaps_from length]. cbv zeta.
    rewrite (missing_between_finite ms ms_pos).
    replace (b * ms - a * ms) with ((b - a) * ms) by lia.
    rewrite Z.div_mul by lia.
    destruct ((b - a) * ms >? ms) eqn:Hgt.
    + apply Z.gtb_lt in Hgt. assert (2 <= b - a) by nia.
      exists (k + (b - a)), (b - a - 1 + m).
      split; [lia|]. split.
      { cbn [SpanSpec.missing foldr missingBars].
        fold (SpanSpec.missing (Verify.findGaps_from ms (b * ms) rest)).
        by rewrite Hm. }
      split; [lia|]. split; [lia|]. split; [done|lia].
    + rewrite Z.gtb_ltb in Hgt. apply Z.ltb_ge in Hgt.
      assert (b - a = 1) by nia.
      exists (k + (b - a)), m.
      split; [lia|]. split; [done|]. split; [lia|]. by split.
Qed.

(** X17.  On a strictly increasing list of open times that are multiples of a
    positive [ms], the reported gaps account for every missing bar: the
    missing bars of all gaps, a finite number, together with the listed bars
    make up the [(last - first) / ms + 1] bars of the window; the copy in
    repair.ts reports the same gaps; and no gap is reported exactly when the
    list is complete. *)
Theorem findGaps_accounts_for_every_missing_bar (times : list Z) (first lst : Z) :
  Sorted Z.lt times -> Forall (fun t => (ms | t)) times ->
  head times = Some first -> last times = Some lst ->
  Count_add (SpanSpec.missing (Verify.findGaps times ms))
            (Finite (Z.of_nat (length times)))
    = Finite ((lst - first) / ms + 1) /\
  Repair.findGaps times ms = Verify.findGaps times ms /\
  (Verify.findGaps times ms = [] <->
   Z.of_nat (length times) = (lst - first) / ms + 1).
Proof using ms_pos.
  intros Hs Hal Hh Hl. destruct times as [|t0 rest]; [done|].
  cbn in Hh. inversion Hh; subst t0.
  apply Forall_cons in Hal as [H0 Hr].
  destruct (findGaps_from_accounts rest first lst Hs H0 Hr Hl)
    as (k & m & Hk & Hm & Hlen & Hm0 & Hnil).
  assert (Hdiv : (lst - first) / ms = k) by (rewrite Hk; apply Z.div_mul; lia).
  unfold Verify.findGaps, Repair.findGaps. cbn [length].
  split; [rewrite Hm; cbn [Count_add]; f_equal; lia|].
  split; [by apply repair_findGaps_from_verify|].
  rewrite Hdiv, Hnil. lia.
Qed.

End GapAccounting.

Section MergeContiguous.

Variable step : Z.
Hypothesis step_nonzero : step <> 0.

Lemma expand_run (s : Z) (n : nat) :
  SpanSpec.expand step (Repair.mkSpan s (s + Z.of_nat n * step))
    = map (fun k : nat => s + Z.of_nat k * step) (seq 0 (S n)).
Proof using step_nonzero.
  unfold SpanSpec.expand, VerifyReport.bars. cbn [Repair.span_start Repair.span_end].
  replace (s + Z.of_nat n * step - s) with (Z.of_nat n * step) by lia.
  rewrite Z.div_mul by done. by replace (Z.to_nat (Z.of_nat n + 1)) with (S n) by lia.
Qed.

Lemma mergeContiguous_from_expand rest : forall (s : Z) (n : nat),
  flat_map (SpanSpec.expand step)
    (Repair.mergeContiguous_from step s (s + Z.of_nat n * step) rest)
  = map (fun k : nat => s + Z.of_nat k * step) (seq 0 (S n)) ++ rest.
Proof using step_nonzero.
  induction rest as [|t rest IH]; intros s n.
  - cbn [Repair.mergeContiguous_from flat_map]. rewrite expand_run.
    by rewrite !app_nil_r.
  - cbn [Repair.mergeContiguous_from].
    destruct (t =? s + Z.of_nat n * step + step) eqn:E.
    + apply Z.eqb_eq in E.
      assert (Ht : t = s + Z.of_nat (S n) * step) by (rewrite Nat2Z.inj_succ, Z.mul_succ_l; lia).
      rewrite Ht.
      rewrite IH. rewrite (seq_S (S n)), map_app, <- app_assoc. done.
    + cbn [flat_map]. rewrite expand_run.
      specialize (IH t 0%nat). replace (t + Z.of_nat 0 * step) with t in IH by lia.
      rewrite IH. f_equal. cbn [seq map app]. f_equal. lia.
Qed.

Lemma mergeContiguous_copies rest : forall s p,
  VerifyReport.mergeContiguous_from step s p rest
    = Repair.mergeContiguous_from step s p rest.
Proof.
  induction rest as [|t rest IH]; intros s p; [done|].
  cbn [VerifyReport.mergeContiguous_from Repair.mergeContiguous_from].
  by rewrite !IH.
Qed.

Lemma mergeContiguous_from_bars rest : forall (s : Z) (n : nat),
  Forall (fun sp => 1 <= VerifyReport.bars step sp)
    (Repair.mergeContiguous_from step s (s + Z.of_nat n * step) rest).
Proof using step_nonzero.
  induction rest as [|t rest IH]; intros s n.
  - constructor; [|constructor]. unfold VerifyReport.bars. cbn.
    replace (s + Z.of_nat n * step - s) with (Z.of_nat n * step) by lia.
    rewrite Z.div_mul by done. lia.
  - cbn [Repair.mergeContiguous_from].
    destruct (t =? s + Z.of_nat n * step + step) eqn:E.
    + apply Z.eqb_eq in E.
      assert (Ht : t = s + Z.of_nat (S n) * step) by (rewrite Nat2Z.inj_succ, Z.mul_succ_l; lia).
      rewrite Ht. apply IH.
    + constructor.
      * unfold VerifyReport.bars. cbn.
        replace (s + Z.of_nat n * step - s) with (Z.of_nat n * step) by lia.
        rewrite Z.div_mul by done. lia.
      * specialize (IH t 0%nat). by replace (t + Z.of_nat 0 * step) with t in IH by lia.
Qed.

(** X18.  For a step other than 0, [mergeContiguous] loses nothing: expanding
    every span into [start], [start + step], ..., [end], of which there are
    [(end - start) / step + 1] as [sampleSpans] counts them, and
    concatenating gives back the list of times, in order; every span holds at
    least one bar; and the copy in verify.ts returns the same spans as the
    copy in repair.ts. *)
Theorem mergeContiguous_round_trip (times : list Z) :
  flat_map (SpanSpec.expand step) (Repair.mergeContiguous times step) = times /\
  Forall (fun sp => 1 <= VerifyReport.bars step sp) (Repair.mergeContiguous times step) /\
  VerifyReport.mergeContiguous times step = Repair.mergeContiguous times step.
Proof using step_nonzero.
  destruct times as [|t0 rest]; [by split; [|split; [constructor|]]|].
  unfold Repair.mergeContiguous, VerifyReport.mergeContiguous.
  pose proof (mergeContiguous_from_expand rest t0 0%nat) as H.
  pose proof (mergeContiguous_from_bars rest t0 0%nat) as Hb.
  replace (t0 + Z.of_nat 0 * step) with t0 in H, Hb by lia.
  split; [|split; [exact Hb|apply mergeContiguous_copies]].
  rewrite H. cbn. f_equal. lia.
Qed.

End MergeContiguous.

(** X19.  For a duration [ms >= 0], the three numbers that [msToHuman] prints
    as days, hours and minutes satisfy [0 <= d], [0 <= h < 24] and
    [0 <= m < 60], and [d] days [h] hours [m] minutes is the duration rounded
    down to the minute. *)
Theorem msToHuman_decomposes (ms : Z) :
  0 <= ms ->
  let '(d, h, m) := VerifyReport.msToHuman ms in
  0 <= d /\ 0 <= h < 24 /\ 0 <= m < 60 /\
  d * 86400 + h * 3600 + m * 60 <= ms / 1000 < d * 86400 + h * 3600 + m * 60 + 60.
Proof.
  intros Hms. unfold VerifyReport.msToHuman. cbv zeta.
  assert (Hs : 0 <= ms / 1000) by (apply Z.div_pos; lia).
  rewrite !Z.rem_mod_nonneg by lia.
  generalize dependent (ms / 1000). intros s Hs.
  repeat split; Z.div_mod_to_equations; lia.
Qed.

Lemma findGaps_accounts_for_every_missing_bar_witness :
  Count_add (SpanSpec.missing (Verify.findGaps [0; 60000; 240000; 300000] 60000))
            (Finite 4)
    = Finite 6.
Proof.
  refine (proj1 (findGaps_accounts_for_every_missing_bar 60000 ltac:(lia)
                   [0; 60000; 240000; 300000] 0 300000 _ _ _ _)).
  - repeat constructor.
  - repeat constructor; [by exists 0|by exists 1|by exists 4|by exists 5].
  - reflexivity.
  - reflexivity.
Defined.

Lemma mergeContiguous_round_trip_witness :
  flat_map (SpanSpec.expand 60000)
    (Repair.mergeContiguous [60000; 120000; 300000] 60000)
  = [60000; 120000; 300000].
Proof.
  exact (proj1 (mergeContiguous_round_trip 60000 ltac:(lia) [60000; 120000; 300000])).
Defined.

Lemma msToHuman_decomposes_witness :
  0 <= 1 /\ 0 <= 2 < 24 /\ 0 <= 3 < 60 /\
  1 * 86400 + 2 * 3600 + 3 * 60 <= 93784000 / 1000
    < 1 * 86400 + 2 * 3600 + 3 * 60 + 60.
Proof. exact (msToHuman_decomposes 93784000 ltac:(lia)). Defined.


(** ** Queries, deletion and metadata (src/db.ts) *)

Section CandleTimes.
Import Db StoreSpec.

Lemma elem_of_candle_keys (s : Store) (seriesId t : Z) :
  t ∈ map snd (List.filter (fun k : Z * Z => k.1 =? seriesId)
                 (map fst (map_to_list (candles s))))
  <-> has_candle s seriesId t.
Proof.
  unfold has_candle. rewrite list_elem_of_In, in_map_iff. split.
  - intros ([k1 k2] & Hk & Hin). cbn in Hk. subst k2.
    apply filter_In in Hin as [Hin Hs]. cbn in Hs. apply Z.eqb_eq in Hs. subst k1.
    apply in_map_iff in Hin as ([k v] & Hk & Hin). cbn in Hk. subst k.
    apply list_elem_of_In, elem_of_map_to_list in Hin. by eexists.
  - intros [v Hv]. exists (seriesId, t). split; [done|].
    apply filter_In. split; [|cbn; apply Z.eqb_refl].
    apply in_map_iff. exists (seriesId, t, v). split; [done|].
    by apply list_elem_of_In, elem_of_map_to_list.
Qed.

Lemma NoDup_candle_keys (s : Store) (seriesId : Z) :
  NoDup (map snd (List.filter (fun k : Z * Z => k.1 =? seriesId)
                    (map fst (map_to_list (candles s))))).
Proof.
  apply (NoDup_fmap_2_strong snd).
  - intros [a1 a2] [b1 b2] Ha Hb Heq. cbn in Heq. subst b2.
    apply list_elem_of_In, filter_In in Ha as [_ Ha].
    apply list_elem_of_In, filter_In in Hb as [_ Hb].
    cbn in Ha, Hb. apply Z.eqb_eq in Ha, Hb. by subst.
  - apply NoDup_ListNoDup, List.NoDup_filter, NoDup_ListNoDup.
    apply (NoDup_fst_map_to_list (candles s)).
Qed.

Lemma Sorted_le_NoDup_lt (l : list Z) :
  StronglySorted Z.le l -> NoDup l -> Sorted Z.lt l.
Proof.
  intros Hs Hn. apply StronglySorted_Sorted.
  induction Hs as [|x l Hs IH Hx]; [constructor|].
  apply NoDup_cons in Hn as [Hx' Hn].
  constructor; [by apply IH|].
  apply Forall_forall. intros y Hy.
  rewrite Forall_forall in Hx. specialize (Hx y Hy).
  assert (x <> y) by (intros ->; by apply Hx', list_elem_of_In).
  lia.
Qed.

Lemma candle_times_members (s : Store) (seriesId : Z) :
  Sorted Z.lt (candle_times s seriesId) /\
  forall t, t ∈ candle_times s seriesId <-> has_candle s seriesId t.
Proof.
  unfold candle_times. split.
  - apply Sorted_le_NoDup_lt.
    + apply StronglySorted_merge_sort; apply _.
    + rewrite merge_sort_Permutation. apply NoDup_candle_keys.
  - intros t. rewrite merge_sort_Permutation. apply elem_of_candle_keys.
Qed.

Lemma foldr_max_spec (ts : list Z) : forall t,
  foldr Z.max t ts ∈ t :: ts /\ forall x, x ∈ t :: ts -> x <= foldr Z.max t ts.
Proof.
  induction ts as [|u ts IH]; intros t.
  - cbn. split; [left|]. intros x Hx. apply list_elem_of_singleton in Hx. lia.
  - cbn [foldr]. destruct (IH t) as [Hin Hmax]. split.
    + destruct (Z.max_spec u (foldr Z.max t ts)) as [[_ ->]|[_ ->]].
      * apply elem_of_cons in Hin as [->|Hin]; [left|]. by do 2 right.
      * right; left.
    + intros x Hx. apply elem_of_cons in Hx as [->|Hx].
      * specialize (Hmax t ltac:(left)). lia.
      * apply elem_of_cons in Hx as [->|Hx]; [lia|].
        specialize (Hmax x ltac:(by right)). lia.
Qed.

(** X20.  The open times that [SELECT open_time FROM candles WHERE series_id =
    ? ORDER BY open_time ASC] returns are strictly increasing and are exactly
    the open times at which the series has a candle, so the list handed to
    [findGaps] is sorted; and [getMaxOpenTime] returns null exactly when the
    series has no candle, and otherwise the largest open time stored for
    it. *)
Theorem candle_times_sorted_with_newest (c : Conn) (seriesId : Z) :
  Sorted Z.lt (candle_times (db c) seriesId) /\
  (forall t, t ∈ candle_times (db c) seriesId <-> has_candle (db c) seriesId t) /\
  match getMaxOpenTime c seriesId with
  | Some newest =>
      has_candle (db c) seriesId newest /\
      forall t, has_candle (db c) seriesId t -> t <= newest
  | None => forall t, ~ has_candle (db c) seriesId t
  end.
Proof.
  destruct (candle_times_members (db c) seriesId) as [Hsorted Hin].
  split; [done|]. split; [done|].
  unfold getMaxOpenTime.
  destruct (candle_times (db c) seriesId) as [|t ts].
  - intros t Ht. apply Hin in Ht. by apply elem_of_nil in Ht.
  - destruct (foldr_max_spec ts t) as [Hmem Hmax]. split.
    + by apply Hin.
    + intros x Hx. apply Hmax. by apply Hin.
Qed.

End CandleTimes.

Section DeleteRange.
Import Db.

(** X21.  [deleteRange] never throws and leaves the state of an open
    transaction as it is.  Afterwards neither [candles] nor [indicators]
    holds a row of the series with [fromInclusive <= open_time <=
    toInclusive]; every other row of the two tables, and every other table,
    is as before; with [toInclusive < fromInclusive] nothing is deleted; and
    deleting the same range again changes nothing. *)
Theorem deleteRange_deletes_exactly_the_range (c : Conn)
    (seriesId fromInclusive toInclusive : Z) :
  let after := deleteRange c seriesId fromInclusive toInclusive in
  after.2 = Ok tt /\
  snapshot after.1 = snapshot c /\
  (forall k,
     candles (db after.1) !! k
       = (if in_range seriesId fromInclusive toInclusive k then None
          else candles (db c) !! k) /\
     indicators (db after.1) !! k
       = (if in_range seriesId fromInclusive toInclusive k then None
          else indicators (db c) !! k)) /\
  (symbols (db after.1) = symbols (db c) /\
   intervals (db after.1) = intervals (db c) /\
   series (db after.1) = series (db c) /\
   series_state (db after.1) = series_state (db c) /\
   known_gaps (db after.1) = known_gaps (db c)) /\
  (toInclusive < fromInclusive -> after.1 = c) /\
  deleteRange after.1 seriesId fromInclusive toInclusive = after.
Proof.
  cbv zeta. unfold deleteRange, run, delete_range. cbn [fst snd db snapshot].
  assert (Hlook : forall V (m : gmap (Z * Z) V) k,
    filter (fun kv : Z * Z * V =>
              in_range seriesId fromInclusive toInclusive kv.1 = false) m !! k
    = if in_range seriesId fromInclusive toInclusive k then None else m !! k).
  { intros V m k. destruct (in_range _ _ _ k) eqn:E.
    - apply map_lookup_filter_None. right. intros v _. cbn. congruence.
    - destruct (m !! k) as [v|] eqn:Hk.
      + by apply map_lookup_filter_Some.
      + apply map_lookup_filter_None. by left. }
  assert (Hidem : forall V (m : gmap (Z * Z) V),
    filter (fun kv : Z * Z * V =>
              in_range seriesId fromInclusive toInclusive kv.1 = false)
      (filter (fun kv : Z * Z * V =>
              in_range seriesId fromInclusive toInclusive kv.1 = false) m)
    = filter (fun kv : Z * Z * V =>
              in_range seriesId fromInclusive toInclusive kv.1 = false) m).
  { intros V m. apply map_eq. intros k. rewrite !Hlook.
    by destruct (in_range _ _ _ k). }
  split; [done|]. split; [done|]. split.
  { intros k. cbn [candles indicators with_candles with_indicators]. by rewrite !Hlook. }
  split; [done|]. split.
  - intros Hempty. destruct c as [s snap]. cbn [db snapshot]. f_equal.
    destruct s as [sy iv se ca ind st kg]. unfold with_candles, with_indicators. cbn.
    f_equal; apply map_eq; intros k; rewrite Hlook;
      (destruct (in_range _ _ _ k) eqn:E; [|done]);
      unfold in_range in E; lia.
  - cbn [candles indicators with_candles with_indicators]. unfold with_candles, with_indicators.
    cbn. by rewrite !Hidem.
Qed.

End DeleteRange.

Section Metadata.
Import Db StoreSpec.

Lemma NoDup_map_inj {A B} (f : A -> B) (l : list A) (x y : A) :
  NoDup (map f l) -> x ∈ l -> y ∈ l -> f x = f y -> x = y.
Proof.
  induction l as [|a l IH]; intros Hn Hx Hy Hf; [by apply elem_of_nil in Hx|].
  cbn [map] in Hn. apply NoDup_cons in Hn as [Ha Hn].
  apply elem_of_cons in Hx as [->|Hx]; apply elem_of_cons in Hy as [->|Hy].
  - done.
  - exfalso. apply Ha. rewrite Hf. by apply list_elem_of_In, in_map, list_elem_of_In.
  - exfalso. apply Ha. rewrite <- Hf. by apply list_elem_of_In, in_map, list_elem_of_In.
  - by apply IH.
Qed.

Lemma find_elem {A} (p : A -> bool) (l : list A) (x : A) :
  x ∈ l -> p x = true -> exists y, List.find p l = Some y /\ y ∈ l /\ p y = true.
Proof.
  intros Hx Hp. destruct (List.find p l) as [y|] eqn:E.
  - apply find_some in E as [Hy Hpy]. exists y.
    by rewrite list_elem_of_In.
  - apply list_elem_of_In in Hx. pose proof (find_none _ _ E x Hx). congruence.
Qed.

(** After the upsert the symbol has a row, and names stay unique. *)
Lemma upsert_symbol_spec symbol base quote s :
  NoDup (map sym_symbol (symbols s)) ->
  NoDup (map sym_symbol (symbols (upsert_symbol symbol base quote s))) /\
  exists row, row ∈ symbols (upsert_symbol symbol base quote s) /\
              sym_symbol row = symbol /\ base_asset row = base /\
              quote_asset row = quote.
Proof.
  intros Hn. unfold upsert_symbol. cbv zeta.
  destruct (existsb _ _) eqn:E;
    cbn [symbols with_symbols with_seq_symbols with_sequence].
  - split.
    + rewrite map_map.
      erewrite map_ext; [exact Hn|].
      intros r. by destruct (String.eqb _ _).
    + apply existsb_exists in E as (r & Hr & Hname).
      exists (mkSymbolRow (sym_id r) (sym_symbol r) base quote).
      split; [|by apply String.eqb_eq in Hname].
      apply list_elem_of_In, in_map_iff. exists r. by rewrite Hname.
  - split.
    + rewrite map_app. cbn [map sym_symbol]. apply NoDup_app. split; [done|].
      split; [|apply NoDup_singleton].
      intros x Hx Hx'. apply list_elem_of_singleton in Hx'. subst x.
      apply list_elem_of_In, in_map_iff in Hx as (r & Hname & Hr).
      assert (existsb (fun r => String.eqb (sym_symbol r) symbol) (symbols s) = true);
        [|congruence].
      apply existsb_exists. exists r. split; [done|]. by apply String.eqb_eq.
    + eexists. split; [apply elem_of_app; right; left|done].
Qed.


Lemma upsert_symbol_keeps_ids symbol base quote s r :
  r ∈ symbols s ->
  exists r', r' ∈ symbols (upsert_symbol symbol base quote s) /\
             sym_id r' = sym_id r /\ sym_symbol r' = sym_symbol r.
Proof.
  intros Hr. unfold upsert_symbol. cbv zeta.
  destruct (existsb _ _); cbn [symbols with_symbols with_seq_symbols with_sequence].
  - exists (if String.eqb (sym_symbol r) symbol
            then mkSymbolRow (sym_id r) (sym_symbol r) base quote else r).
    split; [|by destruct (String.eqb _ _)].
    apply list_elem_of_In, in_map_iff. exists r. by rewrite <- list_elem_of_In.
  - exists r. split; [|done]. apply elem_of_app. by left.
Qed.

Lemma ensureSymbol_eq c symbol base quote :
  NoDup (map sym_symbol (symbols (db c))) ->
  exists row,
    ensureSymbol c symbol base quote
      = (mkConn (upsert_symbol symbol base quote (db c)) (snapshot c), Ok (sym_id row)) /\
    row ∈ symbols (upsert_symbol symbol base quote (db c)) /\
    sym_symbol row = symbol /\ base_asset row = base /\ quote_asset row = quote.
Proof.
  intros Hn. destruct (upsert_symbol_spec symbol base quote (db c) Hn)
    as (Hn1 & row0 & Hin & Hname & Hb & Hq).
  destruct (find_elem (fun r => String.eqb (sym_symbol r) symbol) _ row0 Hin
              ltac:(by apply String.eqb_eq)) as (row & Hfind & Hrow & Hp).
  apply String.eqb_eq in Hp.
  assert (row = row0) as -> by (eapply (NoDup_map_inj sym_symbol); [done..|congruence]).
  exists row0. unfold ensureSymbol. cbv zeta. cbn [db]. by rewrite Hfind.
Qed.

Lemma foldr_max_nonneg (l : list Z) : 0 <= foldr Z.max 0 l.
Proof. induction l as [|x l IH]; cbn [foldr]; lia. Qed.

Lemma foldr_max_snoc (l : list Z) (x : Z) :
  foldr Z.max 0 (l ++ [x]) = Z.max (foldr Z.max 0 l) x.
Proof. induction l as [|y l IH]; cbn [foldr app]; lia. Qed.

(** After an upsert [sqlite_sequence] holds an id that no row exceeds. *)
Lemma upsert_symbol_sequence symbol base quote s :
  let s1 := upsert_symbol symbol base quote s in
  seq_symbols (sqlite_sequence s1)
    = next_id (seq_symbols (sqlite_sequence s)) (map sym_id (symbols s)) /\
  foldr Z.max 0 (map sym_id (symbols s1)) <= seq_symbols (sqlite_sequence s1).
Proof.
  cbv zeta. unfold upsert_symbol. cbv zeta.
  pose proof (foldr_max_nonneg (map sym_id (symbols s))) as H0.
  destruct (existsb _ _);
    cbn [symbols sqlite_sequence seq_symbols with_symbols with_seq_symbols with_sequence];
    (split; [done|]); unfold next_id.
  - match goal with |- context [map sym_id (map ?f ?l)] =>
      assert (Hids : map sym_id (map f l) = map sym_id l)
        by (rewrite map_map; apply map_ext; intros r; by destruct (String.eqb _ _));
      rewrite Hids
    end. lia.
  - rewrite map_app. cbn [map sym_id]. rewrite foldr_max_snoc. lia.
Qed.

(** The same upsert again changes no row: it uses up one more id. *)
Lemma upsert_symbol_again symbol base quote s :
  NoDup (map sym_symbol (symbols s)) ->
  let s1 := upsert_symbol symbol base quote s in
  upsert_symbol symbol base quote s1
    = with_seq_symbols (seq_symbols (sqlite_sequence s1) + 1) s1.
Proof.
  intros Hn. cbv zeta.
  destruct (upsert_symbol_spec symbol base quote s Hn)
    as (Hn1 & row0 & Hin & Hname & Hb & Hq).
  destruct (upsert_symbol_sequence symbol base quote s) as [_ Hle].
  cbv zeta in Hle.
  set (s1 := upsert_symbol symbol base quote s) in *.
  unfold upsert_symbol at 1. cbv zeta.
  assert (E : existsb (fun r => String.eqb (sym_symbol r) symbol) (symbols s1) = true).
  { apply existsb_exists. exists row0. split; [by apply list_elem_of_In|].
    by apply String.eqb_eq. }
  rewrite E.
  assert (Hmap : map (fun r => if String.eqb (sym_symbol r) symbol
                               then mkSymbolRow (sym_id r) (sym_symbol r) base quote
                               else r) (symbols s1) = symbols s1).
  { rewrite <- (map_id (symbols s1)) at 2. apply map_ext_in. intros r Hr.
    destruct (String.eqb _ _) eqn:En; [|done]. apply String.eqb_eq in En.
    apply list_elem_of_In in Hr.
    assert (r = row0) as -> by (eapply (NoDup_map_inj sym_symbol); [done..|congruence]).
    destruct row0; cbn in *; congruence. }
  rewrite Hmap.
  assert (Hid : next_id (seq_symbols (sqlite_sequence s1)) (map sym_id (symbols s1))
                = seq_symbols (sqlite_sequence s1) + 1)
    by (unfold next_id; lia).
  rewrite Hid. by destruct s1.
Qed.

(** X22.  On a store whose symbol names and interval codes are unique,
    [ensureSymbol] never throws, and names stay unique.  Calling it again
    with the same arguments returns the same id and changes no row of any
    table, but it is not without effect: the repeated [INSERT ... ON
    CONFLICT DO UPDATE] uses up an id, so the entry of [symbols] in
    [sqlite_sequence] is one larger than the first call left it.  A symbol
    that was stored before keeps its id; a symbol that was not stored gets
    the id after the largest one that the table holds or that
    [sqlite_sequence] records. *)
Theorem ensureSymbol_interns_once (c : Conn) (symbol base quote : string) :
  names_unique (db c) ->
  exists id,
    let c1 := (ensureSymbol c symbol base quote).1 in
    let c2 := (ensureSymbol c1 symbol base quote).1 in
    ensureSymbol c symbol base quote = (c1, Ok id) /\
    ensureSymbol c1 symbol base quote = (c2, Ok id) /\
    c2 = mkConn (with_seq_symbols (seq_symbols (sqlite_sequence (db c1)) + 1) (db c1))
                (snapshot c1) /\
    seq_symbols (sqlite_sequence (db c1))
      = next_id (seq_symbols (sqlite_sequence (db c))) (map sym_id (symbols (db c))) /\
    names_unique (db c1) /\
    (forall r, r ∈ symbols (db c) -> sym_symbol r = symbol -> sym_id r = id) /\
    ((forall r, r ∈ symbols (db c) -> sym_symbol r <> symbol) ->
     id = next_id (seq_symbols (sqlite_sequence (db c))) (map sym_id (symbols (db c)))).
Proof.
  intros [Hn Hi].
  destruct (ensureSymbol_eq c symbol base quote Hn) as (row & Heq & Hin & Hname & _).
  destruct (upsert_symbol_spec symbol base quote (db c) Hn) as (Hn1 & _).
  destruct (upsert_symbol_sequence symbol base quote (db c)) as [Hseq _].
  cbv zeta in Hseq.
  exists (sym_id row). cbv zeta. rewrite Heq. cbn [fst].
  destruct (ensureSymbol_eq (mkConn (upsert_symbol symbol base quote (db c)) (snapshot c))
              symbol base quote Hn1) as (row' & Heq' & Hin' & Hname' & _).
  cbn [db snapshot] in *.
  pose proof (upsert_symbol_again symbol base quote (db c) Hn) as Hagain.
  cbv zeta in Hagain. rewrite Hagain in Heq', Hin'.
  assert (row' = row) as ->.
  { eapply (NoDup_map_inj sym_symbol); [exact Hn1| |done|congruence].
    exact Hin'. }
  rewrite Heq'. cbn [fst].
  split; [done|]. split; [done|]. split; [done|]. split; [done|].
  split; [|split].
  - split; [done|]. unfold upsert_symbol. cbv zeta.
    by destruct (existsb _ _).
  - intros r Hr Hrn.
    destruct (upsert_symbol_keeps_ids symbol base quote (db c) r Hr)
      as (r' & Hr' & Hid & Hn').
    assert (r' = row) as ->
      by (eapply (NoDup_map_inj sym_symbol); [done..|congruence]).
    done.
  - intros Hnew. clear Heq Heq' Hagain Hin' Hname' Hseq Hn1.
    unfold upsert_symbol in Hin. cbv zeta in Hin.
    destruct (existsb _ _) eqn:E.
    + apply existsb_exists in E as (r & Hr & Hp). apply String.eqb_eq in Hp.
      exfalso. eapply Hnew; [by apply list_elem_of_In|done].
    + cbn [symbols with_symbols with_seq_symbols with_sequence] in Hin.
      apply elem_of_app in Hin as [Hin|Hin].
      * exfalso. by eapply Hnew.
      * apply list_elem_of_singleton in Hin. by subst row.
Qed.





End Metadata.

Lemma ensureSymbol_interns_once_witness :
  exists id,
    (Db.ensureSymbol (Db.openDatabase Db.empty_store) "BTCUSDT" "BTC" "USDT").2 = Ok id.
Proof.
  destruct (ensureSymbol_interns_once (Db.openDatabase Db.empty_store)
              "BTCUSDT" "BTC" "USDT") as (id & H & _).
  - split; constructor.
  - exists id. cbv zeta in H. by rewrite H.
Defined.

(** On the empty store: a symbol, the same symbol again, and a second
    symbol get the ids 1, 1 and 3. *)
Example ensureSymbol_skips_an_id :
  let c0 := Db.openDatabase Db.empty_store in
  let (c1, r1) := Db.ensureSymbol c0 "BTCUSDT" "BTC" "USDT" in
  let (c2, r2) := Db.ensureSymbol c1 "BTCUSDT" "BTC" "USDT" in
  let (c3, r3) := Db.ensureSymbol c2 "ETHUSDT" "ETH" "USDT" in
  (r1, r2, r3) = (Ok 1, Ok 1, Ok 3) /\
  Db.symbols (Db.db c2) = Db.symbols (Db.db c1) /\
  c2 <> c1.
Proof. vm_compute. split; [done|]. split; [done|]. discriminate. Qed.



(** ** Batches, update runs and repair runs (src/db.ts, src/pipeline.ts, src/repair.ts) *)

Section Batches.
Import Db BatchSpec.

Lemma stored_real_again (x : float) :
  Indicators.isNaN x = false ->
  Indicators.isNaN (stored_real x) = false /\
  stored_real (stored_real x) = stored_real x.
Proof.
  intros Hx. unfold stored_real.
  destruct (x =? 0)%float eqn:E.
  - split; reflexivity.
  - rewrite E. done.
Qed.

Lemma stored_real_not_neg_zero (x : float) : stored_real x <> neg_zero.
Proof.
  unfold stored_real. destruct (x =? 0)%float eqn:E.
  - discriminate.
  - intros ->. vm_compute in E. discriminate.
Qed.

Lemma stored_real_fixed (x : float) :
  stored_real (stored_real x) = stored_real x.
Proof.
  unfold stored_real. destruct (x =? 0)%float eqn:E; [reflexivity|by rewrite E].
Qed.

(** X24.  [upsertCandles] writes all rows or none.  It succeeds exactly when
    every row is free of NaN in its REAL columns and names a stored series
    or a key that the table holds already (an update checks no foreign
    key); then every key holds the last row of the batch with that key in
    its stored form, or what it held before when the batch has none, and
    [indicators] and [series] are unchanged.  The stored form of a row has
    [0] where the row has [-0] and is the row itself otherwise.  When the
    batch is refused the connection is as it was, and the error is that of
    the first row that is not accepted: [NOT NULL constraint failed:
    candles.<column>] for the first column, in the order of the table, that
    holds NaN, and [FOREIGN KEY constraint failed] when the row has no NaN. *)
Theorem upsertCandles_all_or_nothing (c : Conn) (rows : list CandleRow) :
  match upsertCandles c rows with
  | (c', Ok _) =>
      forallb (candle_ok (db c)) rows = true /\
      snapshot c' = snapshot c /\
      (forall k, candles (db c') !! k =
         match List.find (fun r => bool_decide (candle_key r = k)) (rev rows) with
         | Some r => Some (stored_candle r)
         | None => candles (db c) !! k
         end) /\
      indicators (db c') = indicators (db c) /\
      series (db c') = series (db c)
  | (c', Err e) =>
      forallb (candle_ok (db c)) rows = false /\ c' = c /\
      exists good r bad,
        rows = good ++ r :: bad /\
        forallb (candle_ok (db c)) good = true /\
        candle_ok (db c) r = false /\
        e = candle_error r
  end /\
  (forall r, stored_candle (stored_candle r) = stored_candle r) /\
  (forall r, Forall (fun x => (x =? 0)%float = false) (candle_reals r) ->
             stored_candle r = r) /\
  (forall r, open r = neg_zero -> open (stored_candle r) = 0%float) /\
  (forall r, Forall (fun x => x <> neg_zero) (candle_reals (stored_candle r))) /\
  candle_error nan_candle = E_sqlite "NOT NULL constraint failed: candles.low".
Proof.
  split; [|split; [|split; [|split; [|split]]]].
  - unfold upsertCandles, run.
    pose proof (run_batch_candle_result rows (db c)) as H.
    destruct (run_batch upsert_candle rows (db c)) as [s1|e].
    + destruct H as [Hall ->]. cbn [db snapshot candles with_candles].
      split; [done|]. split; [done|]. split.
      * intros k. by rewrite (write_all_lookup candle_key stored_candle).
      * done.
    + destruct H as (good & r & bad & Hrows & Hgood & Hr & He).
      split; [|split; [done|by exists good, r, bad]].
      rewrite Hrows, forallb_app. cbn [forallb]. rewrite Hr.
      by rewrite andb_false_r.
  - intros r. unfold stored_candle. cbn. by rewrite !stored_real_fixed.
  - intros r Hr. unfold candle_reals, candle_columns in Hr. cbn [map snd] in Hr.
    repeat (apply Forall_cons in Hr as [? Hr]).
    unfold stored_candle, stored_real.
    repeat match goal with H : (_ =? _)%float = false |- _ => rewrite H; clear H end.
    by destruct r.
  - intros r Hr. unfold stored_candle. cbn. by rewrite Hr.
  - intros r. unfold candle_reals, candle_columns, stored_candle.
    cbn [map snd open high low close volume quote_asset_volume
         taker_buy_base_volume taker_buy_quote_volume].
    repeat constructor; apply stored_real_not_neg_zero.
  - reflexivity.
Qed.

(** A candle with NaN in [low] and [close] that names no stored series is
    refused for [low]; a candle with [-0] is stored with [0]; a candle of a
    series that is not stored is refused at a new key and accepted at a key
    that the table holds. *)
Example upsertCandles_examples :
  let c := openDatabase (DryRunSpec.interned "BTCUSDT" "1m" 60000) in
  upsertCandles c [nan_candle]
    = (c, Err (E_sqlite "NOT NULL constraint failed: candles.low")) /\
  open <$> (candles (db (upsertCandles c [neg_zero_candle]).1) !! (1, 0))
    = Some 0%float /\
  open neg_zero_candle <> 0%float /\
  upsertCandles c [orphan]
    = (c, Err (E_sqlite "FOREIGN KEY constraint failed")) /\
  upsertCandles (openDatabase orphaned) [orphan]
    = (openDatabase orphaned, Ok tt).
Proof.
  vm_compute. split; [done|]. split; [done|]. split; [discriminate|].
  split; reflexivity.
Qed.

Lemma bind_real_again (v : option float) :
  bind_nullable (bind_nullable v) = bind_nullable v.
Proof.
  destruct v as [x|]; [|done]. cbn. unfold bind_real.
  destruct (Indicators.isNaN x) eqn:E; [done|]. cbn. unfold bind_real.
  destruct (stored_real_again x E) as [-> ->]. done.
Qed.

(** X25.  [upsertIndicators] succeeds exactly when every row names a stored
    series or a key that the table holds already, and otherwise throws the
    FOREIGN KEY error with nothing written.  A NaN among the indicator
    values is not refused but stored as NULL, and [-0] is stored as [0]; a
    value that is neither NaN nor a zero, and null, are stored as they are.
    Every key holds the last row of the batch with that key in its stored
    form, [candles] is unchanged, and storing a row in its stored form
    changes nothing. *)
Theorem upsertIndicators_stores_nan_as_null (c : Conn) (rows : list IndicatorRow) :
  match upsertIndicators c rows with
  | (c', Ok _) =>
      forallb (indicator_ok (db c)) rows = true /\
      snapshot c' = snapshot c /\
      candles (db c') = candles (db c) /\
      (forall k, indicators (db c') !! k =
         match List.find (fun r => bool_decide (indicator_key r = k)) (rev rows) with
         | Some r => Some (stored_indicator r)
         | None => indicators (db c) !! k
         end)
  | (c', Err e) =>
      forallb (indicator_ok (db c)) rows = false /\
      c' = c /\ e = E_sqlite "FOREIGN KEY constraint failed"
  end /\
  (forall r, stored_indicator (stored_indicator r) = stored_indicator r) /\
  (forall r, ema50 r = Some nan -> ema50 (stored_indicator r) = None) /\
  (forall r, ema50 r = Some neg_zero -> ema50 (stored_indicator r) = Some 0%float) /\
  (forall r x, ema50 r = Some x -> Indicators.isNaN x = false ->
               (x =? 0)%float = false -> ema50 (stored_indicator r) = Some x) /\
  (forall r, ema50 r = None -> ema50 (stored_indicator r) = None).
Proof.
  split; [|split; [|split; [|split; [|split]]]].
  - unfold upsertIndicators, run.
    pose proof (run_batch_indicator_result rows (db c)) as H.
    destruct (run_batch upsert_indicator rows (db c)) as [s1|e].
    + destruct H as [Hall ->]. cbn [db snapshot candles indicators with_indicators].
      split; [done|]. split; [done|]. split; [done|].
      intros k. by rewrite (write_all_lookup indicator_key stored_indicator).
    + destruct H as [Hall He]. done.
  - intros r. unfold stored_indicator. cbn. by rewrite !bind_real_again.
  - intros r Hr. unfold stored_indicator. cbn. by rewrite Hr.
  - intros r Hr. unfold stored_indicator. cbn. by rewrite Hr.
  - intros r x Hr Hnan Hz. unfold stored_indicator. cbn. rewrite Hr. cbn.
    unfold bind_real, stored_real. by rewrite Hnan, Hz.
  - intros r Hr. unfold stored_indicator. cbn. by rewrite Hr.
Qed.

End Batches.

Section UpdateRuns.
Import Pipeline DryRunSpec.

Variable Env : Type.
Variable getKlines :
  Env -> string -> string -> Z -> Z -> Z -> Env * Result (list Binance.Kline).
Variable Date_now : Env -> Env * Z.
Variable Math_log : float -> float.

Lemma updateSeries_dry fuel cfg symbol interval s env s' env' r :
  updateSeries Env getKlines Date_now Math_log fuel cfg symbol interval true
    s env = Some (s', env', r) ->
  s' = Db.db (ensureMeta (Db.openDatabase s) symbol interval).1.
Proof.
  unfold updateSeries.
  pose proof (ensureMeta_frame (Db.openDatabase s) symbol interval) as [Hsnap _].
  destruct (ensureMeta _ _ _) as [[s1 snap1] [[seriesId intervalMs]|e]];
    cbn [fst Db.snapshot Db.openDatabase Db.db] in *; subst snap1.
  2:{ intros H; by inversion H. }
  cbv zeta.
  destruct (Date_now env) as [env1 now].
  destruct (Utils.floorToInterval now intervalMs) as [floored|e].
  2:{ intros H; by inversion H. }
  destruct (match Db.getMaxOpenTime _ _ with Some _ => _ | None => _ end) as [start|].
  2:{ intros H; by inversion H. }
  destruct (ingestLoop _ _ _ _ _ _ _ _ _ _ _ _ _ _) as [[[conn2 env2] r2]|] eqn:Hloop;
    [|done].
  apply ingestLoop_dry in Hloop as ->. intros H; by inversion H.
Qed.

(** X26.  A dry-run [update] on any store leaves [candles], [indicators],
    [series_state] and [known_gaps] as they were; what each series leaves
    behind is the store after its three metadata upserts, which run outside
    the dry-run transaction. *)
Theorem dry_run_update_keeps_data fuel cfg s env s' env' r :
  updateCommand Env getKlines Date_now Math_log fuel cfg true s env
    = Some (s', env', r) ->
  same_data s s' /\
  (forall symbol interval s1 env1 r1,
     updateSeries Env getKlines Date_now Math_log fuel cfg symbol interval true
       s env = Some (s1, env1, r1) ->
     s1 = Db.db (ensureMeta (Db.openDatabase s) symbol interval).1).
Proof.
  intros Hrun. split; [|intros *; apply updateSeries_dry].
  revert Hrun. unfold updateCommand. apply forEachSeries_frame.
  intros symbol interval s0 env0 s1 env1 r1 H1.
  apply updateSeries_dry in H1 as ->.
  apply ensureMeta_frame.
Qed.

(** X27.  [updateSeries] always returns, whatever the store holds and whatever
    the exchange answers: some number of turns of its loop suffices, since
    the interval of a supported code is positive and an unsupported code
    makes [ensureInterval] throw before the loop. *)
Theorem updateSeries_terminates cfg symbol interval dryRun s env :
  exists fuel, forall fuel', (fuel <= fuel')%nat ->
    is_Some (updateSeries Env getKlines Date_now Math_log fuel' cfg
               symbol interval dryRun s env).
Proof.
  unfold updateSeries.
  destruct (ensureMeta _ _ _) as [conn [[seriesId intervalMs]|e]];
    [|by exists 0%nat].
  cbv zeta.
  destruct (Date_now env) as [env1 now].
  unfold Utils.floorToInterval.
  destruct (intervalMs <=? 0) eqn:Hms; [by exists 0%nat|].
  apply Z.leb_gt in Hms.
  destruct (match Db.getMaxOpenTime _ _ with Some _ => _ | None => _ end) as [start|];
    [|by exists 0%nat].
  exists (S (IngestSpec.turns intervalMs (now / intervalMs * intervalMs - 1) start)).
  intros fuel' Hfuel.
  destruct (ingestLoop_terminates Env getKlines Math_log symbol interval seriesId
              intervalMs start (now / intervalMs * intervalMs - 1) dryRun Hms
              fuel' start conn env1 ltac:(lia)) as [[[conn2 env2] r] ->].
  done.
Qed.

End UpdateRuns.

Lemma dry_run_update_keeps_data_witness :
  match Pipeline.updateCommand Market.Env (Market.getKlines (Market.bars 0 3))
          (Market.Date_now 180000) Market.log_stand_in 10 Market.cfg true
          RepairExample.holed [] with
  | Some (s', _, _) => Db.candles s' = Db.candles RepairExample.holed
  | None => False
  end.
Proof.
  destruct (Pipeline.updateCommand _ _ _ _ _ _ _ _ _) as [[[s' env'] r]|] eqn:E.
  - exact (proj1 (proj1 (dry_run_update_keeps_data _ _ _ _ _ _ _ _ _ _ _ E))).
  - vm_compute in E. discriminate.
Defined.


Section RepairRuns.
Import Repair RepairSpec.

Variable Env : Type.
Variable getKlines :
  Env -> string -> string -> Z -> Z -> Z -> Env * Result (list Binance.Kline).
Variable Math_log : float -> float.
Variable meta : SeriesMeta.

Local Abbreviation gstep := (gapStep Env getKlines Math_log meta).
Local Abbreviation gloop := (gapLoop Env getKlines Math_log meta).
Local Abbreviation sstep := (spanStep Env getKlines Math_log meta).
Local Abbreviation sloop := (spanLoop Env getKlines Math_log meta).

Lemma gapStep_advance g to cursor conn env conn' env' cursor' :
  0 < intervalMs meta ->
  gstep g to cursor conn env = (conn', env', Ok cursor') ->
  cursor + intervalMs meta <= cursor'.
Proof.
  intros Hms. unfold gapStep.
  destruct (getKlines _ _ _ _ _ _) as [env1 [klines|e]]; [|done].
  destruct (length klines =? 0)%nat; [intros H; inversion H; lia|].
  destruct (Indicators.computeIndicators _ _) as [ind|e]; [|done].
  destruct (_ || _); [destruct (Db.tx _ _ _) as [conn1 [[]|e]]; [|done]|];
    intros H; inversion H; subst; nia.
Qed.

Lemma spanStep_advance to cursor conn env conn' env' cursor' :
  0 < intervalMs meta ->
  sstep to cursor conn env = (conn', env', Ok cursor') ->
  cursor + intervalMs meta <= cursor'.
Proof.
  intros Hms. unfold spanStep.
  destruct (getKlines _ _ _ _ _ _) as [env1 [klines|e]]; [|done].
  destruct (length klines =? 0)%nat; [intros H; inversion H; lia|].
  destruct (Indicators.computeIndicators _ _) as [ind|e]; [|done].
  destruct (0 <? _)%nat; [destruct (Db.tx _ _ _) as [conn1 [[]|e]]; [|done]|];
    intros H; inversion H; subst; nia.
Qed.

Lemma gapLoop_terminates g to fuel : forall cursor conn env,
  0 < intervalMs meta ->
  (IngestSpec.turns (intervalMs meta) to cursor < fuel)%nat ->
  is_Some (gloop g to fuel cursor conn env).
Proof.
  induction fuel as [|fuel IH]; intros cursor conn env Hms Hfuel; [lia|].
  cbn [gapLoop].
  destruct (cursor <=? to) eqn:Hc; [|done].
  apply Z.leb_le in Hc.
  destruct (gstep g to cursor conn env) as [[conn1 env1] [cursor1|e]] eqn:Hstep; [|done].
  apply gapStep_advance in Hstep; [|done].
  apply IH; [done|].
  pose proof (turns_decrease _ _ Hms _ _ Hc Hstep). lia.
Qed.

Lemma spanLoop_terminates to fuel : forall cursor conn env,
  0 < intervalMs meta ->
  (IngestSpec.turns (intervalMs meta) to cursor < fuel)%nat ->
  is_Some (sloop to fuel cursor conn env).
Proof.
  induction fuel as [|fuel IH]; intros cursor conn env Hms Hfuel; [lia|].
  cbn [spanLoop].
  destruct (cursor <=? to) eqn:Hc; [|done].
  apply Z.leb_le in Hc.
  destruct (sstep to cursor conn env) as [[conn1 env1] [cursor1|e]] eqn:Hstep; [|done].
  apply spanStep_advance in Hstep; [|done].
  apply IH; [done|].
  pose proof (turns_decrease _ _ Hms _ _ Hc Hstep). lia.
Qed.

(** X28.  For a series with a positive interval the loops of [repairGaps] and
    of [repairNullSpans] end, by passing the end of the window or by an
    exception, whatever the exchange answers: a window from [lo - 600 bars]
    to [hi + 600 bars] takes at most [(hi - lo) / ms + 1201] turns. *)
Theorem repair_loops_terminate (fuel : nat) (gaps : list Gap) (spans : list Span)
    (conn : Db.Conn) (env : Env) :
  0 < intervalMs meta ->
  (Forall (fun g => (window_turns (intervalMs meta) (startMissing g) (endMissing g)
                     < fuel)%nat) gaps ->
   is_Some (repairGaps Env getKlines Math_log fuel meta gaps conn env)) /\
  (Forall (fun s => (window_turns (intervalMs meta) (span_start s) (span_end s)
                     < fuel)%nat) spans ->
   is_Some (repairNullSpans Env getKlines Math_log fuel meta spans conn env)).
Proof.
  intros Hms. split.
  - revert conn env. induction gaps as [|g gs IH]; intros conn env Hall; [done|].
    apply Forall_cons in Hall as [Hg Hgs]. cbn [repairGaps]. cbv zeta.
    destruct (gapLoop_terminates g (endMissing g + OVERLAP_BARS * intervalMs meta) fuel
                (startMissing g - OVERLAP_BARS * intervalMs meta) conn env Hms Hg)
      as [[[conn1 env1] [[]|e]] ->]; [by apply IH|done].
  - revert conn env. induction spans as [|s ss IH]; intros conn env Hall; [done|].
    apply Forall_cons in Hall as [Hs Hss]. cbn [repairNullSpans]. cbv zeta.
    destruct (spanLoop_terminates (span_end s + OVERLAP_BARS * intervalMs meta) fuel
                (span_start s - OVERLAP_BARS * intervalMs meta) conn env Hms Hs)
      as [[[conn1 env1] [[]|e]] ->]; [by apply IH|done].
Qed.

(** *** What repair writes *)

Lemma upsertCandles_frame c rows (k : Z * Z) :
  (forall r, r ∈ rows -> BatchSpec.candle_key r <> k) ->
  Db.candles (Db.db (Db.upsertCandles c rows).1) !! k = Db.candles (Db.db c) !! k /\
  Db.snapshot (Db.upsertCandles c rows).1 = Db.snapshot c.
Proof.
  intros Hk. unfold Db.upsertCandles, Db.run.
  pose proof (run_batch_candle_result rows (Db.db c)) as H.
  destruct (Db.run_batch Db.upsert_candle rows (Db.db c)) as [s1|e]; [|done].
  destruct H as [_ ->]. cbn [fst Db.db Db.snapshot Db.candles Db.with_candles].
  split; [|done].
  rewrite (write_all_lookup BatchSpec.candle_key Db.stored_candle).
  destruct (List.find _ _) as [r|] eqn:E; [|done].
  apply find_some in E as [Hin Hkey]. apply bool_decide_eq_true in Hkey.
  exfalso. apply (Hk r); [|done]. by apply list_elem_of_In, in_rev.
Qed.

Lemma upsertIndicators_frame c rows :
  Db.candles (Db.db (Db.upsertIndicators c rows).1) = Db.candles (Db.db c) /\
  Db.snapshot (Db.upsertIndicators c rows).1 = Db.snapshot c.
Proof.
  unfold Db.upsertIndicators, Db.run.
  pose proof (run_batch_indicator_result rows (Db.db c)) as H.
  destruct (Db.run_batch Db.upsert_indicator rows (Db.db c)) as [s1|e]; [|done].
  by destruct H as [_ ->].
Qed.

Lemma writeGapChunk_frame cw iw c (k : Z * Z) :
  (forall r, r ∈ cw -> BatchSpec.candle_key r <> k) ->
  Db.candles (Db.db (writeGapChunk cw iw c).1) !! k = Db.candles (Db.db c) !! k.
Proof.
  intros Hk. unfold writeGapChunk.
  pose proof (upsertCandles_frame c cw k Hk) as [Hc _].
  destruct (0 <? length cw)%nat.
  - destruct (Db.upsertCandles c cw) as [c1 [[]|e]]; cbn [fst] in *; [|done].
    destruct (0 <? length iw)%nat; [|done].
    destruct (upsertIndicators_frame c1 iw) as [-> _]. done.
  - destruct (0 <? length iw)%nat; [|done].
    destruct (upsertIndicators_frame c iw) as [-> _]. done.
Qed.

Lemma writeGapChunk_keeps_transaction cw iw c :
  Db.snapshot (writeGapChunk cw iw c).1 = Db.snapshot c.
Proof.
  unfold writeGapChunk.
  pose proof (upsertCandles_frame c cw (0, 0)) as Hc.
  destruct (0 <? length cw)%nat.
  - pose proof (run_keeps_transaction (Db.run_batch Db.upsert_candle cw) c) as H1.
    unfold Db.upsertCandles.
    destruct (Db.run _ c) as [c1 [[]|e]]; cbn [fst] in *; [|done].
    destruct (0 <? length iw)%nat; [|done].
    unfold Db.upsertIndicators. by rewrite run_keeps_transaction.
  - destruct (0 <? length iw)%nat; [|done].
    unfold Db.upsertIndicators. by rewrite run_keeps_transaction.
Qed.

Lemma gapStep_frame g to cursor s env (k : Z * Z) :
  ~ in_gaps (id meta) [g] k ->
  exists s', (gstep g to cursor (Db.mkConn s None) env).1.1 = Db.mkConn s' None /\
             Db.candles s' !! k = Db.candles s !! k.
Proof.
  intros Hk. unfold gapStep.
  destruct (getKlines _ _ _ _ _ _) as [env1 [klines|e]]; [|by exists s].
  destruct (length klines =? 0)%nat; [by exists s|].
  destruct (Indicators.computeIndicators _ _) as [ind|e]; [|by exists s].
  set (cw := List.filter _ _). set (iw := indicWrite _ _ _).
  destruct (_ || _).
  2:{ by exists s. }
  rewrite tx_unfold by apply writeGapChunk_keeps_transaction.
  pose proof (writeGapChunk_frame cw iw (Db.mkConn s (Some s)) k) as Hf.
  destruct ((writeGapChunk cw iw _).2) as [[]|e]; [|by exists s].
  eexists. split; [reflexivity|]. cbn [Db.db] in *. apply Hf.
  intros r Hr Hkey. apply Hk. subst cw.
  apply list_elem_of_In, filter_In in Hr as [Hr Hrange].
  apply in_map_iff in Hr as (kl & <- & _).
  unfold BatchSpec.candle_key in Hkey. cbn in Hkey, Hrange. subst k.
  split; [done|]. constructor. cbn. lia.
Qed.

Lemma gapLoop_frame g to fuel (k : Z * Z) : forall cursor s env conn' env' r,
  ~ in_gaps (id meta) [g] k ->
  gloop g to fuel cursor (Db.mkConn s None) env = Some (conn', env', r) ->
  exists s', conn' = Db.mkConn s' None /\ Db.candles s' !! k = Db.candles s !! k.
Proof.
  induction fuel as [|fuel IH]; intros cursor s env conn' env' r Hk H; [done|].
  cbn [gapLoop] in H.
  destruct (cursor <=? to).
  2:{ inversion H; subst. by exists s. }
  destruct (gapStep_frame g to cursor s env k Hk) as (s1 & Hc1 & Hk1).
  destruct (gstep g to cursor _ env) as [[conn1 env1] [cursor1|e]];
    cbn [fst] in Hc1; subst conn1.
  - destruct (IH _ _ _ _ _ _ Hk H) as (s2 & -> & Hk2).
    exists s2. split; [done|congruence].
  - inversion H; subst. by exists s1.
Qed.

Lemma spanStep_frame to cursor s env :
  exists s', (sstep to cursor (Db.mkConn s None) env).1.1 = Db.mkConn s' None /\
             Db.candles s' = Db.candles s.
Proof.
  unfold spanStep.
  destruct (getKlines _ _ _ _ _ _) as [env1 [klines|e]]; [|by exists s].
  destruct (length klines =? 0)%nat; [by exists s|].
  destruct (Indicators.computeIndicators _ _) as [ind|e]; [|by exists s].
  set (iw := indicWrite _ _ _).
  destruct (0 <? _)%nat.
  2:{ by exists s. }
  rewrite tx_unfold by (intros c; apply upsertIndicators_frame).
  pose proof (upsertIndicators_frame (Db.mkConn s (Some s)) iw) as [Hf _].
  destruct ((Db.upsertIndicators _ iw).2) as [[]|e]; [|by exists s].
  eexists. split; [reflexivity|]. exact Hf.
Qed.

Lemma spanLoop_frame to fuel : forall cursor s env conn' env' r,
  sloop to fuel cursor (Db.mkConn s None) env = Some (conn', env', r) ->
  exists s', conn' = Db.mkConn s' None /\ Db.candles s' = Db.candles s.
Proof.
  induction fuel as [|fuel IH]; intros cursor s env conn' env' r H; [done|].
  cbn [spanLoop] in H.
  destruct (cursor <=? to).
  2:{ inversion H; subst. by exists s. }
  destruct (spanStep_frame to cursor s env) as (s1 & Hc1 & Hk1).
  destruct (sstep to cursor _ env) as [[conn1 env1] [cursor1|e]];
    cbn [fst] in Hc1; subst conn1.
  - destruct (IH _ _ _ _ _ _ H) as (s2 & -> & Hk2).
    exists s2. split; [done|congruence].
  - inversion H; subst. by exists s1.
Qed.

(** X29.  Started with no transaction open, [repairGaps] changes [candles]
    only at keys of its series whose open time lies inside one of the gaps
    it was given, from [startMissing] to [endMissing]: the bars of the
    overlap fetched around a gap are not written as candles.
    [repairNullSpans] leaves [candles] as it is.  Both leave no transaction
    open, also when they end with an exception. *)
Theorem repair_writes_candles_in_gaps_only (fuel : nat) (gaps : list Gap)
    (spans : list Span) (s : Db.Store) (env : Env) :
  (forall conn' env' r,
     repairGaps Env getKlines Math_log fuel meta gaps (Db.mkConn s None) env
       = Some (conn', env', r) ->
     Db.snapshot conn' = None /\
     forall k, ~ in_gaps (id meta) gaps k ->
       Db.candles (Db.db conn') !! k = Db.candles s !! k) /\
  (forall conn' env' r,
     repairNullSpans Env getKlines Math_log fuel meta spans (Db.mkConn s None) env
       = Some (conn', env', r) ->
     Db.snapshot conn' = None /\ Db.candles (Db.db conn') = Db.candles s).
Proof.
  split.
  - revert s env. induction gaps as [|g gs IH]; intros s env conn' env' r H.
    { cbn in H. inversion H; subst. done. }
    cbn [repairGaps] in H. cbv zeta in H.
    destruct (gloop g _ fuel _ _ env) as [[[conn1 env1] r1]|] eqn:Hloop; [|done].
    assert (Hfirst : forall k, ~ in_gaps (id meta) (g :: gs) k ->
              exists s1, conn1 = Db.mkConn s1 None /\
                         Db.candles s1 !! k = Db.candles s !! k).
    { intros k Hk. eapply gapLoop_frame; [|exact Hloop].
      intros [Hid Hex]. apply Hk. split; [done|].
      apply Exists_cons. left. by apply Exists_cons in Hex as [Hex|Hex%Exists_nil]. }
    assert (Hconn : exists s1, conn1 = Db.mkConn s1 None).
    { destruct (decide (in_gaps (id meta) (g :: gs) (id meta + 1, 0))) as [[Hid _]|Hn].
      - cbn in Hid. lia.
      - destruct (Hfirst _ Hn) as (s1 & -> & _). by exists s1. }
    destruct Hconn as (s1 & ->).
    destruct r1 as [[]|e].
    + destruct (IH _ _ _ _ _ H) as [Hsnap Hrest]. split; [done|].
      intros k Hk. rewrite Hrest.
      * destruct (Hfirst k Hk) as (s1' & Heq & Hk1). by inversion Heq; subst.
      * intros [Hid Hex]. apply Hk. split; [done|]. apply Exists_cons. by right.
    + inversion H; subst. split; [done|].
      intros k Hk. destruct (Hfirst k Hk) as (s1' & Heq & Hk1). by inversion Heq; subst.
  - revert s env. induction spans as [|sp ss IH]; intros s env conn' env' r H.
    { cbn in H. inversion H; subst. done. }
    cbn [repairNullSpans] in H. cbv zeta in H.
    destruct (sloop _ fuel _ _ env) as [[[conn1 env1] r1]|] eqn:Hloop; [|done].
    apply spanLoop_frame in Hloop as (s1 & -> & Hk1).
    destruct r1 as [[]|e].
    + destruct (IH _ _ _ _ _ H) as [Hsnap Hrest]. split; [done|congruence].
    + inversion H; subst. done.
Qed.

End RepairRuns.


Section IngestFrame.
Import Pipeline IngestFrameSpec.

Variable Env : Type.
Variable getKlines :
  Env -> string -> string -> Z -> Z -> Z -> Env * Result (list Binance.Kline).
Variable Math_log : float -> float.
Variables (symbol interval : string) (seriesId intervalMs start endClosed : Z).
Variable dryRun : bool.

Local Abbreviation step := (ingestStep Env getKlines Math_log symbol interval seriesId
                    intervalMs start endClosed dryRun).
Local Abbreviation loop := (ingestLoop Env getKlines Math_log symbol interval seriesId
                    intervalMs start endClosed dryRun).

Lemma upsertCandles_keeps_indicators c rows :
  Db.indicators (Db.db (Db.upsertCandles c rows).1) = Db.indicators (Db.db c).
Proof.
  unfold Db.upsertCandles, Db.run.
  pose proof (run_batch_candle_result rows (Db.db c)) as H.
  destruct (Db.run_batch Db.upsert_candle rows (Db.db c)) as [s1|e]; [|done].
  by destruct H as [_ ->].
Qed.

Lemma upsertIndicators_frame_key c rows (k : Z * Z) :
  (forall r, r ∈ rows -> BatchSpec.indicator_key r <> k) ->
  Db.indicators (Db.db (Db.upsertIndicators c rows).1) !! k
    = Db.indicators (Db.db c) !! k.
Proof.
  intros Hk. unfold Db.upsertIndicators, Db.run.
  pose proof (run_batch_indicator_result rows (Db.db c)) as H.
  destruct (Db.run_batch Db.upsert_indicator rows (Db.db c)) as [s1|e]; [|done].
  destruct H as [_ ->]. cbn [fst Db.db Db.indicators Db.with_indicators].
  rewrite (write_all_lookup BatchSpec.indicator_key Db.stored_indicator).
  destruct (List.find _ _) as [r|] eqn:E; [|done].
  apply find_some in E as [Hin Hkey]. apply bool_decide_eq_true in Hkey.
  exfalso. apply (Hk r); [|done]. by apply list_elem_of_In, in_rev.
Qed.

Lemma writeChunk_frame cw iw c (k : Z * Z) :
  (forall r, r ∈ cw -> BatchSpec.candle_key r <> k) ->
  (forall r, r ∈ iw -> BatchSpec.indicator_key r <> k) ->
  Db.candles (Db.db (writeChunk cw iw c).1) !! k = Db.candles (Db.db c) !! k /\
  Db.indicators (Db.db (writeChunk cw iw c).1) !! k = Db.indicators (Db.db c) !! k.
Proof.
  intros Hc Hi. unfold writeChunk.
  destruct (0 <? _); [|done].
  pose proof (upsertCandles_frame c cw k Hc) as [Hc1 _].
  pose proof (upsertCandles_keeps_indicators c cw) as Hi1.
  destruct (Db.upsertCandles c cw) as [c1 [[]|e]]; cbn [fst] in *.
  - destruct (upsertIndicators_frame c1 iw) as [Hc2 _].
    pose proof (upsertIndicators_frame_key c1 iw k Hi) as Hi2.
    split; congruence.
  - split; congruence.
Qed.

Lemma lookup_map {A B} (f : A -> B) (l : list A) (i : nat) :
  map f l !! i = f <$> l !! i.
Proof. exact (list_lookup_fmap f l i). Qed.

Lemma ingestStep_frame cursor s env :
  exists s', (step cursor (Db.mkConn s None) env).1.1 = Db.mkConn s' None /\
             kept_before seriesId cursor s s'.
Proof.
  unfold ingestStep.
  destruct (getKlines _ _ _ _ _ _) as [env1 [klines|e]]; [|by exists s].
  destruct (length klines =? 0)%nat; [by exists s|].
  destruct (Indicators.computeIndicators _ _) as [indAll|e]; [|by exists s].
  set (cw := omap _ _). set (iw := omap _ _).
  rewrite tx_unfold by apply writeChunk_keeps_transaction.
  assert (Hframe : kept_before seriesId cursor s
                     (Db.db (writeChunk cw iw (Db.mkConn s (Some s))).1)).
  { intros k Hk. apply (writeChunk_frame cw iw (Db.mkConn s (Some s)) k).
    - intros r Hr Hkey. subst cw. unfold writeIndices in Hr.
      rewrite (omap_lookup_filter (fun r => Db.open_time r >=? cursor)) in Hr.
      apply list_elem_of_In, filter_In in Hr as [Hr Hge].
      apply in_map_iff in Hr as (kl & <- & _).
      unfold BatchSpec.candle_key in Hkey. cbn in Hkey, Hge. subst k.
      cbn in Hk. lia.
    - intros r Hr Hkey. subst iw.
      apply list_elem_of_omap in Hr as (i & Hi & Hrow).
      unfold writeIndices in Hi.
      apply list_elem_of_In, filter_In in Hi as [_ Hge].
      unfold mapToRows, mapToOHLCV in *.
      rewrite lookup_map in Hge. rewrite lookup_map in Hrow.
      destruct (klines !! i) as [kl|]; [|done]. cbn in Hge, Hrow.
      inversion Hrow; subst r.
      unfold BatchSpec.indicator_key, indicatorRow in Hkey. cbn in Hkey. subst k.
      cbn in Hk. lia. }
  destruct ((writeChunk cw iw _).2) as [[]|e]; [|by exists s].
  destruct dryRun.
  - exists s. split; [by destruct (0 <? _)|done].
  - eexists. split; [by destruct (0 <? _)|exact Hframe].
Qed.

Hypothesis intervalMs_nonneg : 0 <= intervalMs.

Lemma ingestStep_forward cursor conn env conn' env' cursor' :
  step cursor conn env = (conn', env', Ok cursor') -> cursor <= cursor'.
Proof using intervalMs_nonneg.
  intros H. apply ingestStep_advance in H as (klines & _ & ->). nia.
Qed.

(** X30.  For an interval that is not negative, the ingest loop of
    [bootstrapSeries] and [updateSeries], started at [cursor] with no
    transaction open, leaves every candle and indicator row of other series,
    and every row of its own series with an open time before [cursor], as it
    was: the overlap before the cursor is fetched for warm-up only.  It leaves
    no transaction open, also when it ends with an exception. *)
Theorem ingest_writes_from_cursor_only fuel : forall cursor s env conn' env' r,
  loop fuel cursor (Db.mkConn s None) env = Some (conn', env', r) ->
  Db.snapshot conn' = None /\ kept_before seriesId cursor s (Db.db conn').
Proof using intervalMs_nonneg.
  induction fuel as [|fuel IH]; intros cursor s env conn' env' r H; [done|].
  cbn [ingestLoop] in H.
  destruct (cursor <=? endClosed).
  2:{ inversion H; subst. split; [done|]. by intros k _. }
  destruct (ingestStep_frame cursor s env) as (s1 & Hc1 & Hk1).
  destruct (step cursor _ env) as [[conn1 env1] [cursor1|e]] eqn:Hstep;
    cbn [fst] in Hc1; subst conn1.
  - apply ingestStep_forward in Hstep.
    destruct (IH _ _ _ _ _ _ H) as [Hsnap Hk2]. split; [done|].
    intros k Hk. destruct (Hk1 k Hk) as [Ha Hb].
    destruct (Hk2 k ltac:(lia)) as [Hc Hd]. split; congruence.
  - inversion H; subst. done.
Qed.

End IngestFrame.

Lemma repair_loops_terminate_witness :
  is_Some (Repair.repairGaps Market.Env (Market.getKlines (Market.bars 0 4))
             Market.log_stand_in 2000 (Repair.mkSeriesMeta 1 "BTCUSDT" "1m" 60000)
             [mkGap 60000 120000 2] (Db.openDatabase RepairExample.holed) []).
Proof.
  refine (proj1 (repair_loops_terminate Market.Env (Market.getKlines (Market.bars 0 4))
            Market.log_stand_in (Repair.mkSeriesMeta 1 "BTCUSDT" "1m" 60000) 2000
            [mkGap 60000 120000 2] [] (Db.openDatabase RepairExample.holed) [] _) _).
  - cbn. lia.
  - constructor; [|constructor]. vm_compute. lia.
Defined.

Lemma ingest_writes_from_cursor_only_witness :
  match Pipeline.ingestLoop Market.Env (Market.getKlines (Market.bars 0 4))
          Market.log_stand_in "BTCUSDT" "1m" 1 60000 0 239999 false
          4 60000 (Db.mkConn RepairExample.holed None) [] with
  | Some (conn', _, _) =>
      Db.candles (Db.db conn') !! (1, 0) = Db.candles RepairExample.holed !! (1, 0)
  | None => False
  end.
Proof.
  destruct (Pipeline.ingestLoop _ _ _ _ _ _ _ _ _ _ _ _ _ _) as [[[conn' env'] r]|] eqn:E.
  - refine (proj1 (proj2 (ingest_writes_from_cursor_only _ _ _ _ _ _ _ _ _ _ _ _ _ _ _ _ _ _ E)
                     (1, 0) _)).
    + lia.
    + right. cbn. lia.
  - vm_compute in E. discriminate.
Defined.
